(** * overlaybd: full-file cache pool, LSMT index algebra, credential
      lookup and the switch file

    A shallow embedding of
    - [src/overlaybd/cache/full_file_cache/cache_pool.cpp] (module [Cache]),
    - [src/image_service.cpp] (module [ImageService]),
    - [src/switch_file.cpp] (module [Switch]),
    - the index operations exercised by [src/overlaybd/lsmt/test/test.cpp]
      (module [LSMT]),
    together with the properties the specification states about them. *)

From Stdlib Require Import ZArith Floats Lia Bool List Ascii.
From stdpp Require Import gmap strings list fin_maps.

Open Scope Z_scope.

(** ** Fixed-width integers

    C++ integers are carried as [Z] and wrapped explicitly where the
    source computes in [uint64_t], [int64_t] or [uint32_t]. *)

Definition u64 (x : Z) : Z := x mod 2 ^ 64.
Definition s64 (x : Z) : Z := (x + 2 ^ 63) mod 2 ^ 64 - 2 ^ 63.
Definition u32 (x : Z) : Z := x mod 2 ^ 32.

(** ** IEEE binary64 helpers

    [calcWaterMark] multiplies an unsigned 64-bit integer by the [double]
    literal [0.01] and casts the product back to [uint64_t].  The conversion
    of an integer to [double] rounds to nearest-even; the cast back truncates
    toward zero. *)

Definition double_of_u64 (n : Z) : float :=
  SF2Prim (binary_normalize prec emax n 0 false).

Definition u64_of_double (f : float) : Z :=
  match Prim2SF f with
  | S754_finite false m e => Z.shiftl (Z.pos m) e
  | _ => 0
  end.

(** * The full-file cache pool ([cache_pool.cpp]) *)

Module Cache.

(** *** Constants

    [kGB], [kMaxFreeSpace] and [kEvictionMark] are defined in
    [cache_pool.cpp]. *)

Definition kGB : Z := 1024 * 1024 * 1024.
Definition kMaxFreeSpace : Z := 50 * kGB.
Definition kEvictionMark : Z := 5 * kGB.

(** Modelled from the spec: the constants of [cache_pool.h], which is not
    among the sources; the specification gives [kWaterMarkRatio] as 90 and
    sizes on media are counted in 512-byte disk blocks. *)
Definition kWaterMarkRatio : Z := 90.
Definition kDiskBlockSize : Z := 512.

Definition ENOENT : Z := 2.
Definition EIO : Z := 5.

(** The [double] nearest to the literal [0.01]. *)
Definition one_percent : float := 0x1.47ae147ae147bp-7%float.

(** *** calcWaterMark

    [std::max(static_cast<uint64_t>(capacity * kWaterMarkRatio * 0.01),
              capacity > maxFreeSpace ? capacity - maxFreeSpace : 0)] *)

Definition scaleWaterMark (capacity : Z) : Z :=
  u64_of_double (double_of_u64 (u64 (capacity * kWaterMarkRatio)) * one_percent)%float.

Definition calcWaterMark (capacity maxFreeSpace : Z) : Z :=
  Z.max (scaleWaterMark capacity)
        (if maxFreeSpace <? capacity then capacity - maxFreeSpace else 0).

(** The three quantities the constructor derives from [capacityInGB]. *)

Definition capacityInBytes (capacityInGB : Z) : Z := s64 (u64 (capacityInGB * kGB)).

Definition waterMark_of (capacityInGB : Z) : Z :=
  calcWaterMark (u64 (capacityInBytes capacityInGB)) kMaxFreeSpace.

(** [std::max(capacityInBytes - kEvictionMark,
              (static_cast<int64_t>(waterMark_) + capacityInBytes) >> 1)] *)
Definition riskMark_from (capacityInBytes waterMark : Z) : Z :=
  Z.max (s64 (capacityInBytes - kEvictionMark))
        (Z.shiftr (s64 (s64 waterMark + capacityInBytes)) 1).

Definition riskMark_of (capacityInGB : Z) : Z :=
  riskMark_from (capacityInBytes capacityInGB) (waterMark_of capacityInGB).

(** *** The media file system

    The pool talks to its media through [statvfs], [truncate], [unlink],
    [open] and [stat].  The media is an external collaborator; it is
    represented by the files it holds (path to allocated bytes), the answer
    it gives to [statvfs] and the paths on which it fails with [EIO]. *)

Record StatVfs := { f_frsize : Z; f_blocks : Z; f_bavail : Z }.

Record MediaFs := {
  fs_files : gmap string Z;
  fs_statvfs : option StatVfs;
  fs_fail : string -> bool
}.

Definition fs_with_files (fs : MediaFs) (files : gmap string Z) : MediaFs :=
  {| fs_files := files; fs_statvfs := fs_statvfs fs; fs_fail := fs_fail fs |}.

(** [truncate(path, 0)]: result code, [errno], and the media afterwards. *)
Definition fs_truncate0 (fs : MediaFs) (path : string) : Z * Z * MediaFs :=
  match fs_files fs !! path with
  | None => (-1, ENOENT, fs)
  | Some _ =>
    if fs_fail fs path then (-1, EIO, fs)
    else (0, 0, fs_with_files fs (<[path := 0]> (fs_files fs)))
  end.

(** [unlink(path)]: result code and the media afterwards. *)
Definition fs_unlink (fs : MediaFs) (path : string) : Z * MediaFs :=
  match fs_files fs !! path with
  | None => (-1, fs)
  | Some _ =>
    if fs_fail fs path then (-1, fs)
    else (0, fs_with_files fs (delete path (fs_files fs)))
  end.

(** [open(path, flags, mode)]: whether a file object is returned, and the
    media afterwards ([creat] stands for [O_CREAT] in [flags]). *)
Definition fs_open (fs : MediaFs) (path : string) (creat : bool) : bool * MediaFs :=
  if fs_fail fs path then (false, fs)
  else match fs_files fs !! path with
       | Some _ => (true, fs)
       | None => if creat then (true, fs_with_files fs (<[path := 0]> (fs_files fs)))
                 else (false, fs)
       end.

(** *** Pool state *)

(** [LruEntry{lruIter, openCount, size}]; the position [lruIter] is the
    slot of the entry's key in [lru_], the lock is not represented. *)
Record LruEntry := { openCount : Z; size : Z }.

(** Modelled from the spec: the member types of [cache_pool.h] and the LRU
    list of [lru.h], which are not among the sources.  [totalUsed_] and
    [riskMark_] are signed 64-bit, the other counters unsigned; the LRU is
    the list of keys, most recent first, with the set of slots marked
    cleared. *)
Record Pool := {
  mediaFs_ : MediaFs;
  capacityInGB_ : Z;
  periodInUs_ : Z;
  diskAvailInBytes_ : Z;
  refillUnit_ : Z;
  totalUsed_ : Z;
  riskMark_ : Z;
  waterMark_ : Z;
  running_ : bool;
  exit_ : bool;
  isFull_ : bool;
  fileIndex_ : gmap string LruEntry;
  lru_ : list string;
  lru_cleared : gset string
}.

Definition set_mediaFs (fs : MediaFs) (p : Pool) : Pool :=
  {| mediaFs_ := fs; capacityInGB_ := capacityInGB_ p; periodInUs_ := periodInUs_ p;
     diskAvailInBytes_ := diskAvailInBytes_ p; refillUnit_ := refillUnit_ p;
     totalUsed_ := totalUsed_ p; riskMark_ := riskMark_ p; waterMark_ := waterMark_ p;
     running_ := running_ p; exit_ := exit_ p; isFull_ := isFull_ p;
     fileIndex_ := fileIndex_ p; lru_ := lru_ p; lru_cleared := lru_cleared p |}.

Definition set_totalUsed (v : Z) (p : Pool) : Pool :=
  {| mediaFs_ := mediaFs_ p; capacityInGB_ := capacityInGB_ p; periodInUs_ := periodInUs_ p;
     diskAvailInBytes_ := diskAvailInBytes_ p; refillUnit_ := refillUnit_ p;
     totalUsed_ := v; riskMark_ := riskMark_ p; waterMark_ := waterMark_ p;
     running_ := running_ p; exit_ := exit_ p; isFull_ := isFull_ p;
     fileIndex_ := fileIndex_ p; lru_ := lru_ p; lru_cleared := lru_cleared p |}.

Definition set_running (b : bool) (p : Pool) : Pool :=
  {| mediaFs_ := mediaFs_ p; capacityInGB_ := capacityInGB_ p; periodInUs_ := periodInUs_ p;
     diskAvailInBytes_ := diskAvailInBytes_ p; refillUnit_ := refillUnit_ p;
     totalUsed_ := totalUsed_ p; riskMark_ := riskMark_ p; waterMark_ := waterMark_ p;
     running_ := b; exit_ := exit_ p; isFull_ := isFull_ p;
     fileIndex_ := fileIndex_ p; lru_ := lru_ p; lru_cleared := lru_cleared p |}.

Definition set_isFull (b : bool) (p : Pool) : Pool :=
  {| mediaFs_ := mediaFs_ p; capacityInGB_ := capacityInGB_ p; periodInUs_ := periodInUs_ p;
     diskAvailInBytes_ := diskAvailInBytes_ p; refillUnit_ := refillUnit_ p;
     totalUsed_ := totalUsed_ p; riskMark_ := riskMark_ p; waterMark_ := waterMark_ p;
     running_ := running_ p; exit_ := exit_ p; isFull_ := b;
     fileIndex_ := fileIndex_ p; lru_ := lru_ p; lru_cleared := lru_cleared p |}.

Definition set_fileIndex (m : gmap string LruEntry) (p : Pool) : Pool :=
  {| mediaFs_ := mediaFs_ p; capacityInGB_ := capacityInGB_ p; periodInUs_ := periodInUs_ p;
     diskAvailInBytes_ := diskAvailInBytes_ p; refillUnit_ := refillUnit_ p;
     totalUsed_ := totalUsed_ p; riskMark_ := riskMark_ p; waterMark_ := waterMark_ p;
     running_ := running_ p; exit_ := exit_ p; isFull_ := isFull_ p;
     fileIndex_ := m; lru_ := lru_ p; lru_cleared := lru_cleared p |}.

Definition set_lru (l : list string) (c : gset string) (p : Pool) : Pool :=
  {| mediaFs_ := mediaFs_ p; capacityInGB_ := capacityInGB_ p; periodInUs_ := periodInUs_ p;
     diskAvailInBytes_ := diskAvailInBytes_ p; refillUnit_ := refillUnit_ p;
     totalUsed_ := totalUsed_ p; riskMark_ := riskMark_ p; waterMark_ := waterMark_ p;
     running_ := running_ p; exit_ := exit_ p; isFull_ := isFull_ p;
     fileIndex_ := fileIndex_ p; lru_ := l; lru_cleared := c |}.

(** *** LRU operations used by the pool *)

(** Modelled from the spec: the operations of the LRU list ([lru.h] is not
    among the sources) that the pool calls: [push_front], [access] (move to
    the front), [mark_key_cleared], [remove] and [back]. *)
Definition lru_remove_key (k : string) (l : list string) : list string :=
  filter (fun x => x <> k) l.

(** [lru_.push_front(..); lru_.front() = iter] *)
Definition lru_push_front (k : string) (p : Pool) : Pool :=
  set_lru (k :: lru_ p) (lru_cleared p) p.

(** [lru_.access(iter)]: move the slot to the front. *)
Definition lru_access (k : string) (p : Pool) : Pool :=
  set_lru (k :: lru_remove_key k (lru_ p)) (lru_cleared p) p.

(** [lru_.mark_key_cleared(iter)] *)
Definition lru_mark_key_cleared (k : string) (p : Pool) : Pool :=
  set_lru (lru_ p) ({[k]} ∪ lru_cleared p) p.

(** [lru_.remove(iter)] *)
Definition lru_remove (k : string) (p : Pool) : Pool :=
  set_lru (lru_remove_key k (lru_ p)) (lru_cleared p ∖ {[k]}) p.

(** [lru_.back()] *)
Definition lru_back (p : Pool) : option string := last (lru_ p).

(** *** Constructor *)

Definition FileCachePool (mediaFs : MediaFs)
    (capacityInGB periodInUs diskAvailInBytes refillUnit : Z) : Pool :=
  {| mediaFs_ := mediaFs; capacityInGB_ := capacityInGB; periodInUs_ := periodInUs;
     diskAvailInBytes_ := diskAvailInBytes; refillUnit_ := refillUnit;
     totalUsed_ := 0;
     riskMark_ := riskMark_of capacityInGB;
     waterMark_ := waterMark_of capacityInGB;
     running_ := false; exit_ := false; isFull_ := false;
     fileIndex_ := ∅; lru_ := []; lru_cleared := ∅ |}.

(** *** Results of operations

    [Done] carries the state when the call returns; [Undefined] marks a use
    of a key that has no entry in [fileIndex_] (a dangling iterator);
    [OutOfFuel] marks an eviction loop still running when the iteration
    budget is spent. *)

Inductive outcome (A : Type) : Type :=
  | Done (a : A)
  | Undefined
  | OutOfFuel.
Arguments Done {A} a.
Arguments Undefined {A}.
Arguments OutOfFuel {A}.

Definition bind {A B} (o : outcome A) (f : A -> outcome B) : outcome B :=
  match o with
  | Done a => f a
  | Undefined => Undefined
  | OutOfFuel => OutOfFuel
  end.

Definition omap {A B} (f : A -> B) (o : outcome A) : outcome B :=
  bind o (fun a => Done (f a)).

Definition entry_of (p : Pool) (k : string) : outcome LruEntry :=
  match fileIndex_ p !! k with
  | Some e => Done e
  | None => Undefined
  end.

(** *** afterFtrucate *)

Definition afterFtrucate (k : string) (p : Pool) : outcome Pool :=
  bind (entry_of p k) (fun e =>
    let total := s64 (totalUsed_ p - s64 (size e)) in
    let total := if total <? 0 then 0 else total in
    let p1 := set_totalUsed total
                (set_fileIndex (<[k := {| openCount := openCount e; size := 0 |}]> (fileIndex_ p)) p) in
    if openCount e =? 0 then
      let '(err, fs) := fs_unlink (mediaFs_ p1) k in
      if negb (err =? 0) then Done (set_mediaFs fs p1)
      else Done (set_fileIndex (delete k (fileIndex_ p1)) (lru_remove k (set_mediaFs fs p1)))
    else Done p1).

(** *** One iteration of the eviction loop

    The body of [while (actualEvict > 0 && !lru_.empty() && !exit_)]:
    the state after the iteration and the amount taken off [actualEvict]. *)

Definition evict_step (p : Pool) : outcome (Pool * Z) :=
  match lru_back p with
  | None => Undefined
  | Some fileName =>
    bind (entry_of p fileName) (fun lruEntry =>
      let fileSize := size lruEntry in
      let p1 := if openCount lruEntry =? 0 then lru_mark_key_cleared fileName p
                else lru_access fileName p in
      if fileSize =? 0 then
        if openCount lruEntry =? 0
        then omap (fun q => (q, 0)) (afterFtrucate fileName p1)
        else Done (p1, 0)
      else
        let '(err, errno, fs) := fs_truncate0 (mediaFs_ p1) fileName in
        let p2 := set_mediaFs fs p1 in
        if negb (err =? 0) && negb (errno =? ENOENT) then Done (p2, 0)
        else
          bind (entry_of p2 fileName) (fun e2 =>
            omap (fun q => (q, size e2)) (afterFtrucate fileName p2)))
  end.

Fixpoint eviction_loop (fuel : nat) (actualEvict : Z) (p : Pool) : outcome Pool :=
  if negb (0 <? actualEvict) || (if lru_ p is [] then true else false) || exit_ p
  then Done p
  else match fuel with
       | O => OutOfFuel
       | S fuel' =>
         bind (evict_step p) (fun '(q, freed) =>
           eviction_loop fuel' (s64 (actualEvict - freed)) q)
       end.

(** *** eviction

    [DEFER(isFull_ = false)] runs on every way out. *)

Definition evictByDisk_of (p : Pool) : option Z :=
  match fs_statvfs (mediaFs_ p) with
  | None => None
  | Some stFs =>
    let fsCapacity := u64 (f_frsize stFs * f_blocks stFs) in
    let diskAvailInBytes := u64 (f_bavail stFs * f_frsize stFs) in
    if diskAvailInBytes <? diskAvailInBytes_ p
    then Some (u64 (diskAvailInBytes_ p - diskAvailInBytes))
    else if fsCapacity <=? waterMark_ p then None
    else Some 0
  end.

Definition actualEvict_of (p : Pool) (evictByDisk : Z) : Z :=
  let evictByCache :=
    if s64 (waterMark_ p) <=? totalUsed_ p then u64 (totalUsed_ p - waterMark_ p) else 0 in
  s64 (Z.max evictByCache evictByDisk).

Definition eviction (fuel : nat) (p : Pool) : outcome Pool :=
  match evictByDisk_of p with
  | None => Done (set_isFull false p)
  | Some evictByDisk =>
    let actualEvict := actualEvict_of p evictByDisk in
    if actualEvict <=? 0 then Done (set_isFull false p)
    else omap (set_isFull false) (eviction_loop fuel actualEvict (set_isFull true p))
  end.

(** *** Runs among other tasks

    While [eviction] is suspended (in [statvfs] at its start, in
    [thread_usleep] at the end of an iteration) other tasks run on the
    pool.  What they do at one suspension point is an [interference]: from
    the state they find, the states the pool passes through and the outcome
    of their calls.  A run takes the interferences for its successive
    suspension points and yields the states in which the pool is found
    there, with the outcome of the call; [nobody] stands for a suspension
    during which no other task touches the pool. *)

Definition interference : Type := Pool -> list Pool * outcome Pool.

Definition nobody : interference := fun p => ([p], Done p).

(** [while (actualEvict > 0 && !lru_.empty() && !exit_)], suspended once
    in every iteration. *)
Fixpoint eviction_loop_run (fuel : nat) (others : list interference) (actualEvict : Z)
    (p : Pool) : list Pool * outcome Pool :=
  if negb (0 <? actualEvict) || (if lru_ p is [] then true else false) || exit_ p
  then ([], Done p)
  else match fuel with
       | O => ([], OutOfFuel)
       | S fuel' =>
         match evict_step p with
         | Done (q, freed) =>
           let '(seen, r) := hd nobody others q in
           match r with
           | Done q' =>
             let '(seen', r') :=
               eviction_loop_run fuel' (tl others) (s64 (actualEvict - freed)) q' in
             (seen ++ seen', r')
           | Undefined => (seen, Undefined)
           | OutOfFuel => (seen, OutOfFuel)
           end
         | Undefined => ([], Undefined)
         | OutOfFuel => ([], OutOfFuel)
         end
       end.

(** [eviction()], suspended first in [statvfs]. *)
Definition eviction_run (fuel : nat) (others : list interference) (p : Pool)
    : list Pool * outcome Pool :=
  let '(seen, r) := hd nobody others p in
  match r with
  | Done p0 =>
    match evictByDisk_of p0 with
    | None => (seen, Done (set_isFull false p0))
    | Some evictByDisk =>
      let actualEvict := actualEvict_of p0 evictByDisk in
      if actualEvict <=? 0 then (seen, Done (set_isFull false p0))
      else
        let '(seen', r') :=
          eviction_loop_run fuel (tl others) actualEvict (set_isFull true p0) in
        (seen ++ seen', omap (set_isFull false) r')
    end
  | Undefined => (seen, Undefined)
  | OutOfFuel => (seen, OutOfFuel)
  end.

(** *** timerHandler, forceRecycle *)

(** [if (cur->running_) return 0; cur->running_ = true;
     DEFER(cur->running_ = false); cur->eviction(); return 0;] *)
Definition timerHandler_run (fuel : nat) (others : list interference) (cur : Pool)
    : list Pool * outcome Pool :=
  if running_ cur then ([], Done cur)
  else
    let '(seen, r) := eviction_run fuel others (set_running true cur) in
    (seen, omap (set_running false) r).

(** The state in which a call of the handler returns when no other task
    touches the pool meanwhile. *)
Definition timerHandler (fuel : nat) (cur : Pool) : outcome Pool :=
  (timerHandler_run fuel [] cur).2.

Definition forceRecycle (fuel : nat) (p : Pool) : outcome Pool := timerHandler fuel p.

(** *** updateSpace

    Returns the state and the value [diff] handed back to the caller. *)

Definition updateSpace (fuel : nat) (k : string) (sz : Z) (p : Pool) : outcome (Pool * Z) :=
  bind (entry_of p k) (fun lruEntry =>
    let diff := if size lruEntry <? sz then u64 (sz - size lruEntry) else 0 in
    let total := if size lruEntry <? sz then s64 (totalUsed_ p + diff) else totalUsed_ p in
    let p1 := set_totalUsed total
                (set_fileIndex (<[k := {| openCount := openCount lruEntry; size := sz |}]> (fileIndex_ p)) p) in
    if riskMark_ p1 <=? totalUsed_ p1 then
      bind (forceRecycle fuel (set_isFull true p1)) (fun p2 =>
        match fileIndex_ p2 !! k with
        | None => Undefined
        | Some e2 => Done (p2, if size e2 =? 0 then 0 else diff)
        end)
    else Done (p1, diff)).

(** *** do_open, removeOpenFile, updateLru, insertFile *)

(** [filename] is the basename of the path handed in; [creat] stands for
    [O_CREAT] in [flags].  The boolean tells whether a store is returned. *)
Definition do_open (filename : string) (creat : bool) (p : Pool) : Pool * bool :=
  if String.eqb filename "" then (p, false)
  else
    let '(ok, fs) := fs_open (mediaFs_ p) filename creat in
    let p1 := set_mediaFs fs p in
    if negb ok then (p1, false)
    else match fileIndex_ p1 !! filename with
         | None =>
           (set_fileIndex (<[filename := {| openCount := 1; size := 0 |}]> (fileIndex_ p1))
              (lru_push_front filename p1), true)
         | Some e =>
           (set_fileIndex (<[filename := {| openCount := u32 (openCount e + 1); size := size e |}]>
                             (fileIndex_ p1))
              (lru_access filename p1), true)
         end.

Definition removeOpenFile (k : string) (p : Pool) : outcome Pool :=
  bind (entry_of p k) (fun e =>
    Done (set_fileIndex (<[k := {| openCount := u32 (openCount e - 1); size := size e |}]>
                           (fileIndex_ p)) p)).

Definition updateLru (k : string) (p : Pool) : outcome Pool :=
  bind (entry_of p k) (fun _ => Done (lru_access k p)).

(** [st_blocks] is what [stat] reports for the file; [None] when [stat]
    fails.  [emplace] keeps an entry that is already there. *)
Definition insertFile (file : string) (st_blocks : option Z) (p : Pool) : Pool * Z :=
  match st_blocks with
  | None => (p, -1)
  | Some blocks =>
    let fileSize := u64 (blocks * kDiskBlockSize) in
    let p1 := lru_push_front file p in
    let index := match fileIndex_ p1 !! file with
                 | Some _ => fileIndex_ p1
                 | None => <[file := {| openCount := 0; size := fileSize |}]> (fileIndex_ p1)
                 end in
    (set_totalUsed (s64 (totalUsed_ p1 + fileSize)) (set_fileIndex index p1), 0)
  end.

(** *** Accounting

    The sum of the recorded sizes over [fileIndex_], and the operations of
    the pool gathered in one type so that runs can be quantified over. *)

Definition sum_sizes (m : gmap string LruEntry) : Z :=
  map_fold (fun _ e acc => size e + acc) 0 m.

Inductive PoolOp : Type :=
  | OpOpen (filename : string) (creat : bool)
  | OpClose (k : string)
  | OpUpdateLru (k : string)
  | OpUpdateSpace (k : string) (sz : Z)
  | OpInsertFile (file : string) (st_blocks : option Z)
  | OpTimer
  | OpForceRecycle.

Definition run_op (fuel : nat) (op : PoolOp) (p : Pool) : outcome Pool :=
  match op with
  | OpOpen filename creat => Done (do_open filename creat p).1
  | OpClose k => removeOpenFile k p
  | OpUpdateLru k => updateLru k p
  | OpUpdateSpace k sz => omap fst (updateSpace fuel k sz p)
  | OpInsertFile file st_blocks => Done (insertFile file st_blocks p).1
  | OpTimer => timerHandler fuel p
  | OpForceRecycle => forceRecycle fuel p
  end.

Fixpoint run_ops (fuel : nat) (ops : list PoolOp) (p : Pool) : outcome Pool :=
  match ops with
  | [] => Done p
  | op :: rest => bind (run_op fuel op p) (run_ops fuel rest)
  end.

(** *** Other tasks as pool operations

    What other tasks do at one suspension point of a run, given as the
    operations they perform there. *)

Fixpoint run_ops_seen (fuel : nat) (ops : list PoolOp) (p : Pool) : list Pool * outcome Pool :=
  match ops with
  | [] => ([p], Done p)
  | op :: rest =>
    match run_op fuel op p with
    | Done q => let '(seen, r) := run_ops_seen fuel rest q in (p :: seen, r)
    | Undefined => ([p], Undefined)
    | OutOfFuel => ([p], OutOfFuel)
    end
  end.


End Cache.

(** * Sample pools

    A media holding two files on a disk short of free space, and pools built
    on it through the constructor, [insertFile] and [do_open]. *)

Module CacheSamples.
Import Cache.

Definition media0 : MediaFs :=
  {| fs_files := {[ "a" := 4096; "b" := 8192 ]};
     fs_statvfs := Some {| f_frsize := 4096; f_blocks := 2621440; f_bavail := 1 |};
     fs_fail := fun _ => false |}.

(** 1 GiB of capacity, 4 GiB of disk to keep free as in [image_service.cpp]. *)
Definition pool0 : Pool := FileCachePool media0 1 10000000 (1048576 * 4096) (256 * 1024).

(** [a] found on the media at start-up and opened once. *)
Definition pool_a_open : Pool :=
  (do_open "a" false (insertFile "a" (Some 8) pool0).1).1.

(** A roomy disk (8 GiB free of 10 GiB); [a] holds 512 MiB and is closed,
    [b] is empty and open: the state of a pool while [b] is being refilled. *)
Definition media1 : MediaFs :=
  {| fs_files := {[ "a" := 536870912; "b" := 0 ]};
     fs_statvfs := Some {| f_frsize := 4096; f_blocks := 2621440; f_bavail := 2097152 |};
     fs_fail := fun _ => false |}.

Definition pool_refill : Pool :=
  (do_open "b" false
     (insertFile "b" (Some 0)
        (insertFile "a" (Some 1048576)
           (FileCachePool media1 1 10000000 (1048576 * 4096) (256 * 1024))).1).1).1.

(** The same pool at the first suspension point of a timer-driven eviction. *)
Definition pool_refill_evicting : Pool := set_running true pool_refill.

(** [a] found on the media at start-up and not opened; the disk is short of
    free space, so the next timer tick evicts it. *)
Definition pool_a_closed : Pool := (insertFile "a" (Some 8) pool0).1.


End CacheSamples.

(** * The specification's sentences about the pool, as stated *)

Module CacheClaims.
Import Cache.

(** "Whenever the LRU tail entry has [open_count > 0] it is re-touched and
    skipped: the entry stays resident, its media file is not truncated, and
    neither its recorded size nor [totalUsed] is reduced." *)
Definition eviction_skips_open_entries : Prop :=
  forall (p q : Pool) (k : string) (e : LruEntry) (freed : Z),
    lru_back p = Some k -> fileIndex_ p !! k = Some e -> 0 < openCount e ->
    evict_step p = Done (q, freed) ->
    fileIndex_ q !! k = Some e /\ k ∈ lru_ q /\
    fs_files (mediaFs_ q) !! k = fs_files (mediaFs_ p) !! k /\
    totalUsed_ q = totalUsed_ p.

(** The state [updateSpace] leaves before it looks at [riskMark_]:
    [totalUsed_] grown by [max(0, new_size - old_size)] and the size
    recorded. *)
Definition space_updated (p : Pool) (k : string) (e : LruEntry) (sz : Z) : Pool :=
  set_totalUsed (totalUsed_ p + Z.max 0 (sz - size e))
    (set_fileIndex (<[k := {| openCount := openCount e; size := sz |}]> (fileIndex_ p)) p).

(** The values for which the 64-bit arithmetic of [updateSpace] is exact. *)
Definition space_in_range (p : Pool) (e : LruEntry) (sz : Z) : Prop :=
  0 <= size e < 2 ^ 63 /\ 0 <= sz < 2 ^ 63 /\ 0 <= totalUsed_ p /\
  totalUsed_ p + Z.max 0 (sz - size e) < 2 ^ 63.

(** "[updateSpace] increases [totalUsed] by exactly [max(0, new_size -
    old_size)], sets the recorded size, and, if [totalUsed >= riskMark]
    after the update, sets [isFull] and runs eviction synchronously before
    returning; otherwise no eviction is triggered and [isFull] is
    unchanged." *)
Definition updateSpace_always_evicts : Prop :=
  forall (fuel : nat) (p : Pool) (k : string) (e : LruEntry) (sz : Z),
    fileIndex_ p !! k = Some e -> openCount e <> 0 -> space_in_range p e sz ->
    if riskMark_ p <=? totalUsed_ (space_updated p k e sz)
    then omap fst (updateSpace fuel k sz p) = eviction fuel (set_isFull true (space_updated p k e sz))
    else updateSpace fuel k sz p = Done (space_updated p k e sz, Z.max 0 (sz - size e)).

(** *** Accounting *)

(** Sizes are non-negative and [totalUsed_] covers their sum without
    leaving the positive range of [int64_t]. *)
Definition accounted (p : Pool) : Prop :=
  map_Forall (fun _ e => 0 <= size e) (fileIndex_ p) /\
  sum_sizes (fileIndex_ p) <= totalUsed_ p < 2 ^ 63.

Definition exactly_accounted (p : Pool) : Prop :=
  sum_sizes (fileIndex_ p) = totalUsed_ p.

(** Arguments for which the 64-bit additions of an operation are exact. *)
Definition op_in_range (p : Pool) (op : PoolOp) : Prop :=
  match op with
  | OpUpdateSpace _ sz => 0 <= sz /\ totalUsed_ p + sz < 2 ^ 63
  | OpInsertFile _ (Some blocks) =>
      0 <= blocks /\ totalUsed_ p + blocks * kDiskBlockSize < 2 ^ 63
  | _ => True
  end.

(** The operations that keep the sum and [totalUsed_] equal: every one but
    [updateSpace] with a size below the recorded one, and [insertFile] of a
    key that is already indexed. *)
Definition op_keeps_exact (p : Pool) (op : PoolOp) : Prop :=
  match op with
  | OpUpdateSpace k sz => forall e, fileIndex_ p !! k = Some e -> size e <= sz
  | OpInsertFile file (Some _) => fileIndex_ p !! file = None
  | _ => True
  end.

(** A property of the operation required at every step of a run. *)
Fixpoint along (fuel : nat) (P : Pool -> PoolOp -> Prop) (ops : list PoolOp) (p : Pool) : Prop :=
  match ops with
  | [] => True
  | op :: rest =>
    P p op /\ match run_op fuel op p with
              | Done q => along fuel P rest q
              | _ => True
              end
  end.

(** "[totalUsed_] equals the sum of [size] over all entries of [fileIndex_];
    every operation restores this equality before yielding control." *)
Definition totalUsed_is_sum : Prop :=
  forall (fuel : nat) (op : PoolOp) (p q : Pool),
    accounted p -> exactly_accounted p -> op_in_range p op ->
    run_op fuel op p = Done q -> exactly_accounted q.


End CacheClaims.

(** * Credential lookup ([image_service.cpp]) *)

Module ImageService.

(** ** parse_blob_url *)

(** What a call leaves behind: the returned integer with [ref.seg], or a
    read of [words] outside its bounds (undefined behaviour). *)
Inductive parse_result : Type :=
  | Parsed (ret : Z) (seg : list string)
  | OutOfBounds.

(** [url.find(prefix) == 0] *)
Definition find_at_0 (prefix url : string) : bool := String.prefix prefix url.

(** [url.substr(n)] *)
Definition substr_from (n : nat) (s : string) : string :=
  String.substring n (String.length s - n) s.

(** The [while] loop that fills [words]: every piece that is followed by a
    ["/"]; what comes after the last ["/"] is not a word.  Each round moves
    [prev] past one ["/"], so [String.length sub_url + 1] rounds are enough. *)
Fixpoint split_words (fuel : nat) (sub_url : string) (prev : nat) : list string :=
  match fuel with
  | O => []
  | S fuel' =>
    match String.index prev "/" sub_url with
    | None => []
    | Some idx =>
      String.substring prev (idx - prev) sub_url :: split_words fuel' sub_url (idx + 1)
    end
  end.

Definition words_of (sub_url : string) : list string :=
  split_words (S (String.length sub_url)) sub_url 0.

(** [for (int i = 2; i + 1 < words.size(); i++) ref.seg.push_back(words[i])] *)
Fixpoint push_words (fuel : nat) (i : nat) (words seg : list string) : option (list string) :=
  match fuel with
  | O => Some seg
  | S fuel' =>
    if (i + 1 <? List.length words)%nat then
      match nth_error words i with
      | Some w => push_words fuel' (S i) words (seg ++ [w])
      | None => None
      end
    else Some seg
  end.

(** The body of the loop over the two prefixes. *)
Definition parse_with_prefix (prefix url : string) (seg : list string) : option (list string) :=
  if find_at_0 prefix url then
    let sub_url := substr_from (String.length prefix) url in
    let words := words_of sub_url in
    match nth_error words 0 with
    | None => None
    | Some w0 => push_words (List.length words) 2 words [w0]
    end
  else Some seg.

Definition parse_blob_url (url : string) (seg : list string) : parse_result :=
  match parse_with_prefix "http://" url seg with
  | None => OutOfBounds
  | Some seg1 =>
    match parse_with_prefix "https://" url seg1 with
    | None => OutOfBounds
    | Some seg2 => Parsed 0 seg2
    end
  end.

(** ** load_cred_from_file *)

(** One member of the [auths] object: the members ["auth"], ["username"]
    and ["password"] it has. *)
Record AuthValue := {
  auth : option string;
  username : option string;
  password : option string
}.

(** The outcome of a lookup: the returned integer with the two output
    strings, or the undefined behaviour inherited from [parse_blob_url]. *)
Inductive cred_result : Type :=
  | Cred (ret : Z) (user pass : string)
  | CredUndefined.

(** The inner loop: [addr] equals one of the prefixes
    [seg0], [seg0/seg1], ... built up in [prefix]. *)
Fixpoint match_prefix (addr prefix : string) (seg : list string) : bool :=
  match seg with
  | [] => false
  | s :: rest =>
    let prefix := if String.eqb prefix "" then prefix else String.append prefix "/" in
    let prefix := String.append prefix s in
    if String.eqb addr prefix then true else match_prefix addr prefix rest
  end.

Section WithBase64.

(** [base64_decode] of [overlaybd/base64.h], which is not among the
    sources. *)
Variable base64_decode : string -> string.

(** The loop over [cfg.auths()], in the order of the file. *)
Fixpoint scan_auths (auths : list (string * AuthValue)) (seg : list string)
    (user pass : string) : cred_result :=
  match auths with
  | [] => Cred (-1) user pass
  | (addr, value) :: rest =>
    if negb (match_prefix addr "" seg) then scan_auths rest seg user pass
    else
      match auth value with
      | Some a =>
        let token := base64_decode a in
        match String.index 0 ":" token with
        | None => scan_auths rest seg user pass
        | Some p => Cred 0 (String.substring 0 p token) (substr_from (p + 1) token)
        end
      | None =>
        match username value, password value with
        | Some u, Some pw => Cred 0 u pw
        | _, _ => scan_auths rest seg user pass
        end
      end
  end.

(** [cfg] is [None] when [ParseJSON] fails. *)
Definition load_cred_from_file (cfg : option (list (string * AuthValue)))
    (remote_path : string) (user pass : string) : cred_result :=
  match cfg with
  | None => Cred (-1) user pass
  | Some auths =>
    match parse_blob_url remote_path [] with
    | OutOfBounds => CredUndefined
    | Parsed ret seg =>
      if negb (ret =? 0) then Cred (-1) user pass
      else scan_auths auths seg user pass
    end
  end.

End WithBase64.

End ImageService.

(** * The specification's sentences about the credential lookup, as stated *)

Module ImageServiceClaims.
Import ImageService.

Section WithBase64.

Variable base64_decode : string -> string.

(** The credentials an entry can yield: the decoded ["auth"] token split
    at its first [":"] when there is an ["auth"] member, the ["username"]
    and ["password"] members otherwise. *)
Definition usable (value : AuthValue) : option (string * string) :=
  match auth value with
  | Some a =>
    let token := base64_decode a in
    match String.index 0 ":" token with
    | None => None
    | Some p => Some (String.substring 0 p token, substr_from (p + 1) token)
    end
  | None =>
    match username value, password value with
    | Some u, Some pw => Some (u, pw)
    | _, _ => None
    end
  end.

(** "When several entries' addresses each equal a prefix of the path,
    [load_cred_from_file] returns the username and password of the entry
    with the longest matching prefix, independent of the order in which
    entries appear in the config file." *)
Definition returns_longest_match : Prop :=
  forall (auths : list (string * AuthValue)) (url : string) (seg : list string)
         (addr : string) (value : AuthValue) (u pw : string),
    parse_blob_url url [] = Parsed 0 seg ->
    In (addr, value) auths ->
    match_prefix addr "" seg = true ->
    usable value = Some (u, pw) ->
    (forall addr' value', In (addr', value') auths -> match_prefix addr' "" seg = true ->
                          (String.length addr' <= String.length addr)%nat) ->
    load_cred_from_file base64_decode (Some auths) url "" "" = Cred 0 u pw.

End WithBase64.

(** Two entries for one registry: the registry itself and one repository. *)
Definition cred_registry : AuthValue :=
  {| auth := None; username := Some "alice"; password := Some "pw-registry" |}.
Definition cred_repo : AuthValue :=
  {| auth := None; username := Some "bob"; password := Some "pw-repo" |}.

Definition auths_registry_first : list (string * AuthValue) :=
  [("registry.io", cred_registry); ("registry.io/ns/repo", cred_repo)].
Definition auths_repo_first : list (string * AuthValue) :=
  [("registry.io/ns/repo", cred_repo); ("registry.io", cred_registry)].

Definition blob_url : string := "https://registry.io/v2/ns/repo/blobs/sha256:abc".

End ImageServiceClaims.

(** * The switch file ([switch_file.cpp])

    A [SwitchFile] forwards every file operation to [m_file] after
    [check_switch].  Tasks are cooperative: a task gives up the processor
    only in [thread_usleep] inside [check_switch], inside [do_switch] while
    it opens the local file, and inside the forwarded operation.  Between
    two such points a task runs alone. *)

Module Switch.

(** File objects are told apart by a number. *)
Record SwitchFile := {
  state : Z;          (* 0. normal state; 1. ready to switch; 2. in processing *)
  io_count : Z;
  local_path : bool;
  m_file : nat;
  m_old : option nat;
  m_filepath : string
}.

(** [SwitchFile(source, local, filepath)] *)
Definition new_SwitchFile (source : nat) (loc : bool) (filepath : string) : SwitchFile :=
  {| state := 0; io_count := 0; local_path := loc; m_file := source; m_old := None;
     m_filepath := filepath |}.

Definition set_state (v : Z) (f : SwitchFile) : SwitchFile :=
  {| state := v; io_count := io_count f; local_path := local_path f; m_file := m_file f;
     m_old := m_old f; m_filepath := m_filepath f |}.

Definition set_io_count (v : Z) (f : SwitchFile) : SwitchFile :=
  {| state := state f; io_count := v; local_path := local_path f; m_file := m_file f;
     m_old := m_old f; m_filepath := m_filepath f |}.

(** [set_switch_file(filepath)] *)
Definition set_switch_file (filepath : string) (f : SwitchFile) : SwitchFile :=
  {| state := 1; io_count := io_count f; local_path := local_path f; m_file := m_file f;
     m_old := m_old f; m_filepath := filepath |}.

(** [do_switch()]: [opened] is the file object obtained from
    [open_localfile_adaptor] and [zfile_open_ro], [None] when either fails. *)
Definition do_switch (opened : option nat) (f : SwitchFile) : Z * SwitchFile :=
  match opened with
  | None => (-1, f)
  | Some file =>
    (0, {| state := state f; io_count := io_count f; local_path := true; m_file := file;
           m_old := Some (m_file f); m_filepath := m_filepath f |})
  end.

(** Where a task stands inside an operation of the file. *)
Inductive tstate : Type :=
  | Idle                      (* not inside an operation *)
  | Waiting0                  (* check_switch: while (state != 0) thread_usleep *)
  | Draining                  (* check_switch: while (io_count > 0) thread_usleep *)
  | InDoSwitch                (* check_switch: inside do_switch() *)
  | Forwarding (file : nat).  (* after ++io_count, inside m_file->func *)

Record Config := {
  sf : SwitchFile;
  tasks : list tstate
}.

(** What happens between two suspension points. *)
Inductive Event : Type :=
  | EvSetSwitch (filepath : string)           (* set_switch_file is called *)
  | EvCall (t : nat)                          (* task t calls a file operation *)
  | EvPoll (t : nat)                          (* task t returns from thread_usleep *)
  | EvSwitched (t : nat) (opened : option nat) (* do_switch of task t comes back *)
  | EvIoDone (t : nat).                       (* the forwarded operation of t returns *)

(** [check_switch] has returned: [++io_count] and the call on [m_file]. *)
Definition forward (t : nat) (f : SwitchFile) (ts : list tstate) : Config :=
  {| sf := set_io_count (io_count f + 1) f; tasks := <[t := Forwarding (m_file f)]> ts |}.

Definition step (ev : Event) (c : Config) : option Config :=
  match ev with
  | EvSetSwitch filepath =>
    Some {| sf := set_switch_file filepath (sf c); tasks := tasks c |}
  | EvCall t =>
    match tasks c !! t with
    | Some Idle =>
      if state (sf c) =? 0 then Some (forward t (sf c) (tasks c))
      else if state (sf c) =? 2 then
        Some {| sf := sf c; tasks := <[t := Waiting0]> (tasks c) |}
      else
        let f := set_state 2 (sf c) in
        if 0 <? io_count f
        then Some {| sf := f; tasks := <[t := Draining]> (tasks c) |}
        else Some {| sf := f; tasks := <[t := InDoSwitch]> (tasks c) |}
    | _ => None
    end
  | EvPoll t =>
    match tasks c !! t with
    | Some Waiting0 =>
      if negb (state (sf c) =? 0) then Some c
      else Some (forward t (sf c) (tasks c))
    | Some Draining =>
      if 0 <? io_count (sf c) then Some c
      else Some {| sf := sf c; tasks := <[t := InDoSwitch]> (tasks c) |}
    | _ => None
    end
  | EvSwitched t opened =>
    match tasks c !! t with
    | Some InDoSwitch =>
      let '(ret, f) := do_switch opened (sf c) in
      let f := if ret =? 0 then set_state 0 f else f in
      Some (forward t f (tasks c))
    | _ => None
    end
  | EvIoDone t =>
    match tasks c !! t with
    | Some (Forwarding _) =>
      Some {| sf := set_io_count (io_count (sf c) - 1) (sf c); tasks := <[t := Idle]> (tasks c) |}
    | _ => None
    end
  end.

Fixpoint run (evs : list Event) (c : Config) : option Config :=
  match evs with
  | [] => Some c
  | ev :: rest =>
    match step ev c with
    | Some c' => run rest c'
    | None => None
    end
  end.

(** A fresh switch file used by [n] tasks. *)
Definition init (source : nat) (loc : bool) (filepath : string) (n : nat) : Config :=
  {| sf := new_SwitchFile source loc filepath; tasks := replicate n Idle |}.


(** The number of operations in flight on the underlying files. *)
Fixpoint in_flight (ts : list tstate) : Z :=
  match ts with
  | [] => 0
  | Forwarding _ :: rest => 1 + in_flight rest
  | _ :: rest => in_flight rest
  end.

Definition is_set_switch (ev : Event) : bool :=
  match ev with
  | EvSetSwitch _ => true
  | _ => false
  end.

Definition switching (s : tstate) : bool :=
  match s with
  | Draining | InDoSwitch => true
  | _ => false
  end.

(** What a task adds to the number of operations in flight. *)
Definition weight (s : tstate) : Z :=
  match s with
  | Forwarding _ => 1
  | _ => 0
  end.

End Switch.

(** * Notions for the switch file's properties *)

Module SwitchClaims.
Import Switch.







(** [set_switch_file] is called only while no task is carrying out a
    switch (draining, or inside [do_switch]). *)
Fixpoint requests_spaced (evs : list Event) (c : Config) : Prop :=
  match evs with
  | [] => True
  | ev :: rest =>
    (is_set_switch ev = true -> forall t s, tasks c !! t = Some s -> switching s = false) /\
    match step ev c with
    | Some c' => requests_spaced rest c'
    | None => True
    end
  end.

(** At most one task is carrying out a switch, and [state] is 2 while it
    does. *)
Definition one_switcher (c : Config) : Prop :=
  (forall t t' s s', tasks c !! t = Some s -> tasks c !! t' = Some s' ->
                     switching s = true -> switching s' = true -> t = t') /\
  (forall t s, tasks c !! t = Some s -> switching s = true -> state (sf c) = 2).





End SwitchClaims.

(** * The LSMT index algebra

    The index classes live in [lsmt/index.cpp], which is not among the
    sources; [lsmt/test/test.cpp] exercises them.  The operations below are
    written from the specification and checked against the arrays that the
    tests expect. *)

Module LSMT.

Record Segment := { s_offset : Z; s_length : Z }.

(** [SegmentMapping{offset, length, moffset, tag}]; [zeroed] is false
    unless set. *)
Record SegmentMapping := {
  offset : Z;
  length : Z;
  moffset : Z;
  zeroed : bool;
  tag : Z
}.

Definition SM (o l m : Z) : SegmentMapping :=
  {| offset := o; length := l; moffset := m; zeroed := false; tag := 0 |}.

Definition SMt (o l m t : Z) : SegmentMapping :=
  {| offset := o; length := l; moffset := m; zeroed := false; tag := t |}.

Definition s_end (s : Segment) : Z := s_offset s + s_length s.
Definition m_end (m : SegmentMapping) : Z := offset m + length m.

Definition UINT64_MAX : Z := 2 ^ 64 - 1.

(** Modelled from the spec: the segment algebra of section 4.A, whose code
    is missing.  [clip m lo hi] is [m] cut down to [[lo, hi)]: the physical
    offset moves along with the start unless the extent is zeroed. *)
Definition clip (m : SegmentMapping) (lo hi : Z) : SegmentMapping :=
  let o := Z.max (offset m) lo in
  let e := Z.min (m_end m) hi in
  {| offset := o; length := e - o;
     moffset := if zeroed m then moffset m else moffset m + (o - offset m);
     zeroed := zeroed m; tag := tag m |}.

Definition with_tag (t : Z) (m : SegmentMapping) : SegmentMapping :=
  {| offset := offset m; length := length m; moffset := moffset m; zeroed := zeroed m;
     tag := t |}.

(** Modelled from the spec: [Index::lookup] of section 4.B, whose code is
    missing.  The entries before the first one that ends after the start
    are skipped; the entries from there on are emitted, clipped, until one
    begins at or after the end, or [cap] mappings are out. *)
Fixpoint walk (idx : list SegmentMapping) (lo hi : Z) : list SegmentMapping :=
  match idx with
  | [] => []
  | m :: rest => if hi <=? offset m then [] else clip m lo hi :: walk rest lo hi
  end.

(** Modelled from the spec: the search for the first entry whose end lies
    after the start, followed by the walk. *)
Fixpoint covering (idx : list SegmentMapping) (lo hi : Z) : list SegmentMapping :=
  match idx with
  | [] => []
  | m :: rest => if m_end m <=? lo then covering rest lo hi else walk idx lo hi
  end.

(** Modelled from the spec: [lookup(S, out, cap)], at most [cap] mappings. *)
Definition lookup (idx : list SegmentMapping) (s : Segment) (cap : nat) : list SegmentMapping :=
  firstn cap (covering idx (s_offset s) (s_end s)).

(** Modelled from the spec: [Index0::insert] of section 4.C, whose code is
    missing.  Of every entry the part before [m] and the part after [m]
    are kept (an entry inside [m] is dropped, an entry around [m] is split,
    an entry across one end of [m] is trimmed) and [m] goes in between. *)
Definition left_part (m e : SegmentMapping) : list SegmentMapping :=
  if offset e <? offset m then [clip e (offset e) (offset m)] else [].

(** Modelled from the spec: the part of [e] after [m], its physical offset
    moved along. *)
Definition right_part (m e : SegmentMapping) : list SegmentMapping :=
  if m_end m <? m_end e then [clip e (m_end m) (m_end e)] else [].

(** Modelled from the spec: [Index0::insert(m)]. *)
Definition insert (m : SegmentMapping) (idx : list SegmentMapping) : list SegmentMapping :=
  flat_map (left_part m) idx ++ m :: flat_map (right_part m) idx.

(** Modelled from the spec: [Index0 idx(mapping, n)], the mappings inserted
    one after the other. *)
Definition Index0 (mappings : list SegmentMapping) : list SegmentMapping :=
  fold_left (fun idx m => insert m idx) mappings [].

(** Modelled from the spec: [block_count()], the sum of
    [length * !zeroed]. *)
Definition block_count (idx : list SegmentMapping) : Z :=
  fold_right (fun m acc => (if zeroed m then 0 else length m) + acc) 0 idx.

(** Modelled from the spec: the merge of section 4.E, whose code is
    missing.  The mappings [ms] of one layer are laid over [[lo, hi)] and
    every gap is filled from the layers below. *)
Fixpoint fill (lower : Z -> Z -> list SegmentMapping) (ms : list SegmentMapping)
    (lo hi : Z) : list SegmentMapping :=
  match ms with
  | [] => if lo <? hi then lower lo hi else []
  | m :: rest =>
    (if lo <? offset m then lower lo (offset m) else []) ++ m :: fill lower rest (m_end m) hi
  end.

(** Modelled from the spec: the merged view of section 4.E.  The layers
    are given top first; a mapping drawn from the layer at depth [level] is
    tagged [level]. *)
Fixpoint merge_indexes (level : Z) (indexes : list (list SegmentMapping)) (lo hi : Z)
    : list SegmentMapping :=
  match indexes with
  | [] => []
  | idx :: rest =>
    fill (merge_indexes (level + 1) rest) (map (with_tag level) (covering idx lo hi)) lo hi
  end.

(** Modelled from the spec: [merge_memory_indexes(indexes, n)], the merged
    view over the whole block range. *)
Definition merge_memory_indexes (indexes : list (list SegmentMapping)) : list SegmentMapping :=
  merge_indexes 0 indexes 0 UINT64_MAX.

(** Modelled from the spec: [ComboIndex(index0, backing_index,
    ro_index_count)::lookup], whose code is missing: the mappings of the
    writable index on top, the gaps filled from the backing index.  The
    mappings of the writable index are tagged [ro_index_count], as the
    arrays expected by [TEST(Index, merge)] have them. *)
Definition combo_lookup (index0 backing : list SegmentMapping) (ro_index_count : Z)
    (s : Segment) (cap : nat) : list SegmentMapping :=
  firstn cap
    (fill (covering backing)
       (map (with_tag ro_index_count) (covering index0 (s_offset s) (s_end s)))
       (s_offset s) (s_end s)).

(** The layered view that [test_combo(indexes, ni, ...)] builds and
    queries: [indexes[0]] on top of the merge of the others. *)
Definition layered_lookup (indexes : list (list SegmentMapping)) (s : Segment) (cap : nat)
    : list SegmentMapping :=
  match indexes with
  | [] => []
  | top :: rest =>
    combo_lookup (Index0 top) (merge_memory_indexes rest) (Z.of_nat (List.length rest)) s cap
  end.

(** *** What an index says about one block *)

Definition covers (m : SegmentMapping) (p : Z) : bool :=
  (offset m <=? p) && (p <? m_end m).

(** Where block [p] of [m] lives: physical offset, zeroed, tag. *)
Definition at_block (m : SegmentMapping) (p : Z) : Z * bool * Z :=
  (if zeroed m then moffset m else moffset m + (p - offset m), zeroed m, tag m).

Fixpoint point_of (idx : list SegmentMapping) (p : Z) : option (Z * bool * Z) :=
  match idx with
  | [] => None
  | m :: rest => if covers m p then Some (at_block m p) else point_of rest p
  end.

(** The topmost layer that covers [p], counted from [i], and what it says. *)
Fixpoint first_cover (i : Z) (indexes : list (list SegmentMapping)) (p : Z)
    : option (Z * (Z * bool * Z)) :=
  match indexes with
  | [] => None
  | idx :: rest =>
    match point_of idx p with
    | Some v => Some (i, v)
    | None => first_cover (i + 1) rest p
    end
  end.

(** Sorted, non-overlapping, non-empty mappings inside [[lo, hi]]. *)
Fixpoint chain (lo hi : Z) (idx : list SegmentMapping) : Prop :=
  match idx with
  | [] => lo <= hi
  | m :: rest => lo <= offset m /\ 0 < length m /\ chain (m_end m) hi rest
  end.

(** "For all adjacent entries [a], [b]: [a.end() <= b.offset]." *)
Definition sorted_nonoverlap (idx : list SegmentMapping) : Prop :=
  forall (i : nat) (a b : SegmentMapping),
    idx !! i = Some a -> idx !! S i = Some b -> m_end a <= offset b.

(** *** The arrays of [test.cpp] *)

Definition lookup_mapping : list SegmentMapping := [SM 0 10 0; SM 10 10 50; SM 100 10 20].

Definition mapping0_insert : list SegmentMapping :=
  [SM 0 20 0; SM 10 15 50; SM 30 100 20; SM 5 10 3; SM 40 10 123; SM 200 10 2133; SM 150 100 21].

Definition stdrst_insert : list SegmentMapping :=
  [SM 0 5 0; SM 5 10 3; SM 15 10 55; SM 30 10 20; SM 40 10 123; SM 50 80 40; SM 150 100 21].

Definition mapping0 : list SegmentMapping := [SM 5 5 0; SM 10 10 50; SM 100 10 20].
Definition mapping1 : list SegmentMapping :=
  [SM 0 1 7; SM 2 4 5; SM 15 10 22; SM 30 15 89; SM 87 50 32; SM 150 10 84].
Definition mapping2 : list SegmentMapping :=
  [SM 1 3 134; SM 8 4 873; SM 18 72 320; SM 100 100 4893; SM 1000 1000 39823].
Definition mapping3 : list SegmentMapping :=
  [SM 23 10 0; SM 65 10 50; SM 89 10 20; SM 230 43 432; SM 1999 31 2393].

Definition stdrst_merge2 : list SegmentMapping :=
  [SMt 0 1 7 0; SMt 2 3 5 0; SMt 5 5 0 1; SMt 10 10 50 1; SMt 20 5 (22 + 5) 0;
   SMt 30 15 89 0; SMt 87 13 32 0; SMt 100 10 20 1; SMt 110 27 55 0; SMt 150 10 84 0].

Definition stdrst_merge3 : list SegmentMapping :=
  [SMt 0 1 7 0; SMt 1 1 134 1; SMt 2 3 5 0; SMt 5 5 0 2; SMt 10 10 50 2;
   SMt 20 5 (22 + 5) 0; SMt 25 5 (320 + 7) 1; SMt 30 15 89 0; SMt 45 42 (320 + 27) 1;
   SMt 87 13 32 0; SMt 100 10 20 2; SMt 110 27 55 0; SMt 137 13 (4893 + 37) 1;
   SMt 150 10 84 0; SMt 160 40 (4893 + 60) 1; SMt 1000 1000 39823 1].

Definition stdrst_merge4 : list SegmentMapping :=
  [SMt 0 1 7 0; SMt 1 1 134 1; SMt 2 3 5 0; SMt 5 5 0 3; SMt 10 10 50 3;
   SMt 20 5 (22 + 5) 0; SMt 25 5 (320 + 7) 1; SMt 30 15 89 0; SMt 45 42 (320 + 27) 1;
   SMt 87 13 32 0; SMt 100 10 20 3; SMt 110 27 55 0; SMt 137 13 (4893 + 37) 1;
   SMt 150 10 84 0; SMt 160 40 (4893 + 60) 1; SMt 230 43 432 2; SMt 1000 1000 39823 1;
   SMt 2000 30 (2393 + 1) 2].

Definition whole : Segment := {| s_offset := 0; s_length := 10000 |}.

End LSMT.

(** * The specification's sentences about the layered view, as stated *)

Module LSMTClaims.
Import LSMT.

(** A layer that fits the 64-bit block range. *)
Definition well_formed (idx : list SegmentMapping) : Prop := chain 0 UINT64_MAX idx.

(** What the layered view is expected to say about a block: what the
    topmost covering layer says, with the tag that [tag_of] gives that
    layer. *)
Definition expected_point (tag_of : Z -> Z) (indexes : list (list SegmentMapping)) (p : Z)
    : option (Z * bool * Z) :=
  match first_cover 0 indexes p with
  | Some (i, (mo, z, _)) => Some (mo, z, tag_of i)
  | None => None
  end.

(** "Lookup returns, at every point [p] of the segment, the mapping from
    the topmost layer that covers [p], and each returned mapping carries its
    source layer index in [tag] with the top layer identified as L0." *)
Definition tag_is_layer_index : Prop :=
  forall (top : list SegmentMapping) (rest : list (list SegmentMapping))
         (s : Segment) (cap : nat) (p : Z),
    well_formed top -> Forall well_formed rest ->
    s_offset s <= p < s_end s ->
    (List.length (layered_lookup (top :: rest) s cap) < cap)%nat ->
    point_of (layered_lookup (top :: rest) s cap) p
    = expected_point (fun i => i) (top :: rest) p.

(** The tags the code gives: the number of backing layers for the top
    layer, and the position among the backing layers for the others. *)
Definition combo_tag (n_layers : Z) (i : Z) : Z :=
  if i =? 0 then n_layers - 1 else i - 1.

(** What a merge says about a block: the answer of the covering layer,
    tagged with that layer's depth. *)
Definition tagged (r : option (Z * (Z * bool * Z))) : option (Z * bool * Z) :=
  match r with
  | Some (i, (mo, z, _)) => Some (mo, z, i)
  | None => None
  end.

End LSMTClaims.

(** * The pool at start-up and under eviction

    [traverseDir] and [Init] of [cache_pool.cpp], and the notions in which
    the behaviour of the pool over whole runs is stated. *)

Module CacheLifecycle.
Import Cache CacheSamples.

(** [traverseDir(root)]: [insertFile] on every file the walker finds under
    [root].  [found] lists those files in the walker's order, each with the
    block count that [stat] reports for it ([None] when [stat] fails); what
    [insertFile] returns is not looked at. *)
Definition traverseDir (found : list (string * option Z)) (p : Pool) : Pool * Z :=
  (fold_left (fun q f => (insertFile f.1 f.2 q).1) found p, 0).

(** [Init()]: [traverseDir("/")]; the timer that is started afterwards
    calls [timerHandler] every [periodInUs_]. *)
Definition Init (found : list (string * option Z)) (p : Pool) : Pool :=
  (traverseDir found p).1.

(** The bytes that [traverseDir] counts for the files it finds. *)
Definition found_bytes (found : list (string * option Z)) : Z :=
  fold_right (fun f acc => match f.2 with
                           | Some blocks => blocks * kDiskBlockSize
                           | None => 0
                           end + acc) 0 found.


(** The LRU is not empty and every slot belongs to an entry that
    somebody has open and that holds no data. *)
Definition open_and_empty (p : Pool) : Prop :=
  lru_ p <> [] /\
  forall k, k ∈ lru_ p ->
    exists e, fileIndex_ p !! k = Some e /\ openCount e <> 0 /\ size e = 0.


(** A file created through the pool on the short disk of [pool0] and
    still open, with nothing written to it. *)
Definition pool_c_open : Pool := (do_open "c" true pool0).1.

(** The ordering that the constructor's comment asks for
    ([waterMark < riskMark < capacity]) and the free space that the water
    mark leaves, for one capacity. *)
Definition thresholds_ordered (capacityInGB : Z) : bool :=
  let capacity := capacityInBytes capacityInGB in
  let waterMark := waterMark_of capacityInGB in
  let riskMark := riskMark_from capacity waterMark in
  (0 <? waterMark) && (waterMark <? riskMark) && (riskMark <? capacity) &&
  (capacity - waterMark <=? kMaxFreeSpace).

Fixpoint ordered_upto (n : nat) : bool :=
  match n with
  | O => true
  | S n' => thresholds_ordered (Z.of_nat n) && ordered_upto n'
  end.

End CacheLifecycle.

(** * Blob urls and credentials: more of [image_service.cpp] *)

Module ImageServiceAuth.
Import ImageService.

(** A path component: a string without ["/"]. *)
Definition no_slash (s : string) : Prop := String.index 0 "/" s = None.

(** The components, each followed by ["/"]. *)
Fixpoint slashed (ws : list string) : string :=
  match ws with
  | [] => ""
  | w :: rest => String.append w (String.append "/" (slashed rest))
  end.

Section ReloadAuth.
Variable base64_decode : string -> string.

(** [ImageService::reload_auth(remote_path)]: [cfg] is what parsing the
    file at [global_conf.credentialFilePath()] gives.  [None] stands for
    the undefined behaviour inherited from [parse_blob_url]. *)
Definition reload_auth (cfg : option (list (string * AuthValue))) (remote_path : string)
    : option (string * string) :=
  match load_cred_from_file base64_decode cfg remote_path "" "" with
  | Cred res username password =>
    if res =? 0 then Some (username, password) else Some ("", "")
  | CredUndefined => None
  end.
End ReloadAuth.

End ImageServiceAuth.

(** * Operations in flight on the switch file *)

Module SwitchSafety.
Import Switch.

(** Every operation in flight is on the file [m_file] points to, and
    nothing is in flight while a task is inside [do_switch]. *)
Definition on_current_file (c : Config) : Prop :=
  (forall t file, tasks c !! t = Some (Forwarding file) -> file = m_file (sf c)) /\
  (forall t, tasks c !! t = Some InDoSwitch -> in_flight (tasks c) = 0).

(** An operation by task 0, a switch that succeeds, and the operations
    that waited for it. *)
Definition sample_switch : list Event :=
  [EvCall 0%nat; EvSetSwitch "/opt/overlaybd/layer"; EvCall 1%nat; EvCall 2%nat;
   EvIoDone 0%nat; EvPoll 1%nat; EvSwitched 1%nat (Some 9%nat); EvPoll 2%nat; EvCall 0%nat].

End SwitchSafety.

(** * What the index tests check

    [do_randwrite] and [do_randread] of [lsmt/test/test.cpp] keep an array
    beside the index and compare the two. *)

Module LSMTTests.
Import LSMT.

(** [do_randwrite]: after [idx0->insert(s)] the test records, in its array
    [moffsets], where every block of [s] lives:
    [for (j = s.offset; j < s.end(); ++j) moffsets[j] = x++] with [x]
    starting at [s.moffset]. *)
Definition record_write (s : SegmentMapping) (moffsets : Z -> Z) : Z -> Z :=
  fun j => if covers s j then u32 (moffset s + (j - offset s)) else moffsets j.

(** The array after a sequence of [do_randwrite]; it starts zeroed. *)
Definition moffsets_after (writes : list SegmentMapping) : Z -> Z :=
  fold_left (fun moffsets s => record_write s moffsets) writes (fun _ => 0).

(** What [do_randread] expects of the mappings that [lookup] returns: on a
    block that a mapping covers the array holds the mapping's physical
    offset for the block, on a block in a hole it holds 0. *)
Definition randread_expects (out : list SegmentMapping) (moffsets : Z -> Z) (p : Z) : Prop :=
  match point_of out p with
  | Some (mo, _, _) => moffsets p = mo
  | None => moffsets p = 0
  end.

(** What [do_randwrite] writes: a mapping that is not empty and not
    zeroed, with physical offsets that fit the 32-bit slots of the array. *)
Definition random_write (s : SegmentMapping) : Prop :=
  0 < length s /\ zeroed s = false /\ 0 <= moffset s /\ moffset s + length s <= 2 ^ 32.

End LSMTTests.

(** * Properties of the fixed-width integers *)

Module IntProps.

Lemma u64_small x : 0 <= x < 2 ^ 64 -> u64 x = x.
Proof. intros H. unfold u64. apply Z.mod_small. exact H. Qed.

Lemma s64_small x : - 2 ^ 63 <= x < 2 ^ 63 -> s64 x = x.
Proof. intros H. unfold s64. rewrite Z.mod_small; lia. Qed.

Lemma u32_small x : 0 <= x < 2 ^ 32 -> u32 x = x.
Proof. intros H. unfold u32. apply Z.mod_small. exact H. Qed.

End IntProps.

(** * Properties of the cache pool *)

Module CacheProps.
Import Cache CacheSamples CacheClaims IntProps.

(** ** Thresholds *)

(** The thresholds at the default capacity of [config.h]
    ([registryCacheSizeGB = 4]) and at 10 GiB are strictly ordered. *)
Lemma thresholds_4GB :
  waterMark_of 4 = 3865470566 /\ riskMark_of 4 = 4080218931 /\
  capacityInBytes 4 = 4294967296.
Proof. vm_compute. auto. Qed.

Lemma thresholds_10GB :
  waterMark_of 10 < riskMark_of 10 < capacityInBytes 10.
Proof. vm_compute. split; reflexivity. Qed.

(** Whenever the water mark leaves two bytes of room below the capacity,
    the risk mark lies strictly between the two. *)
Lemma riskMark_between (capacity waterMark : Z) :
  0 <= waterMark <= capacity - 2 -> capacity < 2 ^ 62 ->
  waterMark < riskMark_from capacity waterMark < capacity.
Proof.
  intros Hw Hc. unfold riskMark_from, kEvictionMark, kGB.
  rewrite (s64_small waterMark) by lia.
  rewrite (s64_small (waterMark + capacity)) by lia.
  rewrite (s64_small (capacity - _)) by lia.
  rewrite Z.shiftr_div_pow2 by lia. change (2 ^ 1) with 2.
  pose proof (Z.div_mod (waterMark + capacity) 2 ltac:(lia)) as Hd.
  pose proof (Z.mod_pos_bound (waterMark + capacity) 2 ltac:(lia)) as Hm.
  lia.
Qed.

(** C5: the constructor is meant to keep [waterMark_ < riskMark_ < capacity]
    (its own comment says so), but for [capacityInGB = 0] all three values
    are 0 and neither strict inequality holds. *)
Theorem thresholds_capacity_zero (mediaFs : MediaFs) (periodInUs diskAvailInBytes refillUnit : Z) :
  let p := FileCachePool mediaFs 0 periodInUs diskAvailInBytes refillUnit in
  waterMark_ p = 0 /\ riskMark_ p = 0 /\ capacityInBytes (capacityInGB_ p) = 0 /\
  ~ (waterMark_ p < riskMark_ p) /\ ~ (riskMark_ p < capacityInBytes (capacityInGB_ p)).
Proof.
  cbn [FileCachePool waterMark_ riskMark_ capacityInGB_].
  assert (Hw : waterMark_of 0 = 0) by (vm_compute; reflexivity).
  assert (Hr : riskMark_of 0 = 0) by (vm_compute; reflexivity).
  assert (Hc : capacityInBytes 0 = 0) by (vm_compute; reflexivity).
  rewrite Hw, Hr, Hc. repeat split; lia.
Qed.

(** ** The single-runner guard *)

(** Without other tasks the runs return what the untraced functions
    return. *)
Lemma eviction_loop_run_alone (fuel : nat) :
  forall actualEvict p,
    (eviction_loop_run fuel [] actualEvict p).2 = eviction_loop fuel actualEvict p.
Proof.
  induction fuel as [|fuel IH]; intros a p; cbn [eviction_loop_run eviction_loop].
  - destruct (negb (0 <? a) || _ || exit_ p); reflexivity.
  - destruct (negb (0 <? a) || _ || exit_ p); [reflexivity|].
    unfold bind. destruct (evict_step p) as [[q freed]| |]; [|reflexivity|reflexivity].
    cbn [hd tl nobody]. rewrite <- IH.
    destruct (eviction_loop_run fuel [] (s64 (a - freed)) q). reflexivity.
Qed.

Lemma eviction_run_alone (fuel : nat) (p : Pool) :
  (eviction_run fuel [] p).2 = eviction fuel p.
Proof.
  unfold eviction_run, eviction. cbn [hd tl nobody].
  destruct (evictByDisk_of p) as [d|]; [|reflexivity].
  destruct (actualEvict_of p d <=? 0); [reflexivity|].
  rewrite <- eviction_loop_run_alone.
  destruct (eviction_loop_run fuel [] (actualEvict_of p d) (set_isFull true p)). reflexivity.
Qed.

(** The handler in one equation: nothing when [running_] is set, otherwise
    [eviction] between setting and clearing [running_]. *)
Lemma timerHandler_unfold (fuel : nat) (cur : Pool) :
  timerHandler fuel cur
  = if running_ cur then Done cur
    else omap (set_running false) (eviction fuel (set_running true cur)).
Proof.
  unfold timerHandler, timerHandler_run.
  destruct (running_ cur); [reflexivity|].
  rewrite <- eviction_run_alone.
  destruct (eviction_run fuel [] (set_running true cur)). reflexivity.
Qed.

Lemma afterFtrucate_running k p q :
  afterFtrucate k p = Done q -> running_ q = running_ p.
Proof.
  unfold afterFtrucate, entry_of, bind.
  destruct (fileIndex_ p !! k) as [e|]; [|discriminate].
  destruct (openCount e =? 0).
  - destruct (fs_unlink _ k) as [err fs].
    destruct (negb (err =? 0)); intros [= <-]; reflexivity.
  - intros [= <-]. reflexivity.
Qed.

Lemma evict_step_running p q freed :
  evict_step p = Done (q, freed) -> running_ q = running_ p.
Proof.
  unfold evict_step, entry_of, bind, omap, bind.
  destruct (lru_back p) as [k|]; [|discriminate].
  destruct (fileIndex_ p !! k) as [e|]; [|discriminate].
  set (p1 := if openCount e =? 0 then lru_mark_key_cleared k p else lru_access k p).
  assert (H1 : running_ p1 = running_ p) by (subst p1; destruct (openCount e =? 0); reflexivity).
  destruct (size e =? 0).
  - destruct (openCount e =? 0).
    + destruct (afterFtrucate k p1) as [q'| |] eqn:Ha; try discriminate.
      intros [= <- _]. rewrite (afterFtrucate_running _ _ _ Ha). exact H1.
    + intros [= <- _]. exact H1.
  - destruct (fs_truncate0 (mediaFs_ p1) k) as [[err errno] fs].
    destruct (negb (err =? 0) && negb (errno =? ENOENT)).
    + intros [= <- _]. exact H1.
    + destruct (fileIndex_ (set_mediaFs fs p1) !! k) as [e2|]; [|discriminate].
      destruct (afterFtrucate k (set_mediaFs fs p1)) as [q'| |] eqn:Ha; try discriminate.
      intros [= <- _]. rewrite (afterFtrucate_running _ _ _ Ha). exact H1.
Qed.

Lemma eviction_loop_running (fuel : nat) :
  forall actualEvict p q,
    eviction_loop fuel actualEvict p = Done q -> running_ q = running_ p.
Proof.
  induction fuel as [|fuel IH]; intros a p q; cbn [eviction_loop].
  - destruct (negb (0 <? a) || _ || exit_ p); [|discriminate].
    intros [= <-]. reflexivity.
  - destruct (negb (0 <? a) || _ || exit_ p).
    + intros [= <-]. reflexivity.
    + unfold bind. destruct (evict_step p) as [[q' freed]| |] eqn:Hs; try discriminate.
      intros H. rewrite (IH _ _ _ H). eapply evict_step_running, Hs.
Qed.



(** ** The handler's run among other tasks *)


(** The traced run of a list of operations returns what [run_ops] returns. *)
Lemma run_ops_seen_result (fuel : nat) (ops : list PoolOp) :
  forall p, (run_ops_seen fuel ops p).2 = run_ops fuel ops p.
Proof.
  induction ops as [|op rest IH]; intros p; cbn [run_ops_seen run_ops]; [reflexivity|].
  unfold bind. destruct (run_op fuel op p) as [q| |]; [|reflexivity|reflexivity].
  rewrite <- IH. destruct (run_ops_seen fuel rest q). reflexivity.
Qed.









(** ** Eviction and entries that are open *)

Lemma lru_back_elem (p : Pool) (k : string) : lru_back p = Some k -> k ∈ lru_ p.
Proof.
  unfold lru_back. intros H. apply last_Some in H as [l' ->].
  apply elem_of_app. right. apply elem_of_cons. left. reflexivity.
Qed.

Lemma lru_access_elem (k x : string) (l : list string) :
  k ∈ l -> (x ∈ k :: lru_remove_key k l <-> x ∈ l).
Proof.
  intros Hk. unfold lru_remove_key. rewrite elem_of_cons, list_elem_of_filter.
  destruct (decide (x = k)) as [->|Hne]; intuition.
Qed.

Lemma afterFtrucate_open (k : string) (p : Pool) (e : LruEntry) :
  fileIndex_ p !! k = Some e -> openCount e <> 0 ->
  afterFtrucate k p =
    Done (set_totalUsed (Z.max 0 (s64 (totalUsed_ p - s64 (size e))))
            (set_fileIndex (<[k := {| openCount := openCount e; size := 0 |}]> (fileIndex_ p)) p)).
Proof.
  intros He Ho. unfold afterFtrucate, entry_of, bind. rewrite He.
  destruct (openCount e =? 0) eqn:E; [apply Z.eqb_eq in E; contradiction|].
  f_equal. f_equal.
  destruct (s64 (totalUsed_ p - s64 (size e)) <? 0) eqn:E'; [apply Z.ltb_lt in E'|apply Z.ltb_ge in E']; lia.
Qed.

Lemma fs_truncate0_spec (fs : MediaFs) (k : string) :
  dom (fs_files (fs_truncate0 fs k).2) = dom (fs_files fs) /\
  (forall k', k' <> k -> fs_files (fs_truncate0 fs k).2 !! k' = fs_files fs !! k') /\
  ((fs_truncate0 fs k).1.1 = 0 -> fs_files (fs_truncate0 fs k).2 !! k = Some 0) /\
  ((fs_truncate0 fs k).1.1 <> 0 -> (fs_truncate0 fs k).2 = fs) /\
  ((fs_truncate0 fs k).1.1 <> 0 -> (fs_truncate0 fs k).1.2 = ENOENT -> fs_files fs !! k = None).
Proof.
  unfold fs_truncate0.
  destruct (fs_files fs !! k) as [z|] eqn:Hk; cbn.
  - destruct (fs_fail fs k); cbn.
    + repeat split; auto; try lia. intros _ H. discriminate H.
    + repeat split; auto; try lia.
      * apply dom_insert_lookup_L. eauto.
      * intros k' Hne. rewrite lookup_insert_ne; auto.
      * rewrite lookup_insert_eq. reflexivity.
  - repeat split; auto; try lia.
Qed.

(** C1 (as the code has it): an LRU tail entry with [openCount <> 0] is
    moved to the front of the LRU and stays in [fileIndex_] with its
    [openCount]; no media file is unlinked and no other entry changes.  It
    is not skipped, though: unless its size is 0 or [truncate] fails, its
    media file is truncated to 0, its recorded size becomes 0 and
    [totalUsed_] drops by that size (never below 0). *)
Theorem evict_step_open_tail (p : Pool) (k : string) (e : LruEntry) :
  lru_back p = Some k -> fileIndex_ p !! k = Some e -> openCount e <> 0 ->
  exists q freed e',
    evict_step p = Done (q, freed) /\
    fileIndex_ q !! k = Some e' /\ openCount e' = openCount e /\
    (forall k', k' <> k -> fileIndex_ q !! k' = fileIndex_ p !! k') /\
    head (lru_ q) = Some k /\ (forall x, x ∈ lru_ q <-> x ∈ lru_ p) /\
    dom (fs_files (mediaFs_ q)) = dom (fs_files (mediaFs_ p)) /\
    (forall k', k' <> k -> fs_files (mediaFs_ q) !! k' = fs_files (mediaFs_ p) !! k') /\
    ((size e' = size e /\ totalUsed_ q = totalUsed_ p /\ freed = 0 /\
      fs_files (mediaFs_ q) !! k = fs_files (mediaFs_ p) !! k /\
      (size e = 0 \/ ((fs_truncate0 (mediaFs_ p) k).1.1 <> 0 /\
                      (fs_truncate0 (mediaFs_ p) k).1.2 <> ENOENT)))
     \/
     (size e <> 0 /\ size e' = 0 /\ freed = size e /\
      totalUsed_ q = Z.max 0 (s64 (totalUsed_ p - s64 (size e))) /\
      (is_Some (fs_files (mediaFs_ p) !! k) -> fs_files (mediaFs_ q) !! k = Some 0))).
Proof.
  intros Hb He Ho.
  pose proof (lru_back_elem _ _ Hb) as Hin.
  unfold evict_step, entry_of, bind, omap, bind. rewrite Hb, He.
  destruct (openCount e =? 0) eqn:E; [apply Z.eqb_eq in E; contradiction|].
  destruct (size e =? 0) eqn:Es.
  - apply Z.eqb_eq in Es.
    exists (lru_access k p), 0, e. cbn.
    repeat split; auto; try (apply lru_access_elem; exact Hin).
    left. repeat split; auto.
  - apply Z.eqb_neq in Es.
    pose proof (fs_truncate0_spec (mediaFs_ (lru_access k p)) k) as (Hd & Hoth & Hok & Hfail & Hnoent).
    destruct (fs_truncate0 (mediaFs_ (lru_access k p)) k) as [[err errno] fs] eqn:Ht.
    cbn [fst snd] in *. cbn [lru_access set_lru mediaFs_] in Ht, Hd, Hoth, Hok, Hfail, Hnoent.
    rewrite Ht. cbn [fst snd].
    destruct (negb (err =? 0) && negb (errno =? ENOENT)) eqn:Ec.
    + apply andb_true_iff in Ec as [E1 E2].
      apply negb_true_iff, Z.eqb_neq in E1. apply negb_true_iff, Z.eqb_neq in E2.
      exists (set_mediaFs fs (lru_access k p)), 0, e. cbn.
      repeat split; auto; try (apply lru_access_elem; exact Hin).
      left. rewrite (Hfail E1). repeat split; auto.
    + cbn [set_mediaFs lru_access set_lru fileIndex_]. rewrite He.
      rewrite (afterFtrucate_open k _ e); [|exact He|exact Ho].
      eexists _, _, {| openCount := openCount e; size := 0 |}.
      split; [reflexivity|]. cbn.
      rewrite lookup_insert_eq.
      repeat split; auto; try (apply lru_access_elem; exact Hin).
      * intros k' Hne. rewrite lookup_insert_ne; auto.
      * right. repeat split; auto.
        intros [z Hz]. destruct (Z.eq_dec err 0) as [E0|E0]; [apply Hok, E0|].
        assert (errno = ENOENT) as Hen.
        { apply andb_false_iff in Ec as [Ec|Ec].
          - apply negb_false_iff, Z.eqb_eq in Ec. contradiction.
          - apply negb_false_iff, Z.eqb_eq in Ec. exact Ec. }
        rewrite (Hnoent E0 Hen) in Hz. discriminate Hz.
Qed.


Lemma evict_step_open_tail_witness :
  lru_back pool_a_open = Some "a" /\
  fileIndex_ pool_a_open !! "a" = Some {| openCount := 1; size := 4096 |} /\
  exists q freed e',
    evict_step pool_a_open = Done (q, freed) /\
    fileIndex_ q !! "a" = Some e' /\ openCount e' = 1 /\ head (lru_ q) = Some "a".
Proof.
  assert (Hb : lru_back pool_a_open = Some "a") by (vm_compute; reflexivity).
  assert (He : fileIndex_ pool_a_open !! "a" = Some {| openCount := 1; size := 4096 |})
    by (vm_compute; reflexivity).
  split; [exact Hb|]. split; [exact He|].
  destruct (evict_step_open_tail pool_a_open "a" _ Hb He ltac:(discriminate))
    as (q & freed & e' & Hs & Hq & Ho & _ & Hh & _).
  exists q, freed, e'. repeat split; assumption.
Defined.

(** C1, as stated, fails: with [a] open once and 4096 bytes on media, one
    iteration truncates the file and takes the 4096 bytes off [totalUsed_]. *)
Lemma evict_step_truncates_open_entry : ~ eviction_skips_open_entries.
Proof.
  intros H.
  assert (E : exists q, evict_step pool_a_open = Done (q, 4096) /\ totalUsed_ q = 0)
    by (vm_compute; eexists; split; reflexivity).
  destruct E as (q & Hs & Ht).
  destruct (H pool_a_open q "a" {| openCount := 1; size := 4096 |} 4096) as (_ & _ & _ & Htot);
    try (vm_compute; reflexivity); [exact Hs|].
  rewrite Ht in Htot. vm_compute in Htot. discriminate Htot.
Qed.

(** ** What one iteration does to the index and to [totalUsed_] *)

Lemma afterFtrucate_effect (k : string) (p q : Pool) :
  afterFtrucate k p = Done q ->
  exists e, fileIndex_ p !! k = Some e /\
    totalUsed_ q = Z.max 0 (s64 (totalUsed_ p - s64 (size e))) /\
    (fileIndex_ q = <[k := {| openCount := openCount e; size := 0 |}]> (fileIndex_ p) \/
     (openCount e = 0 /\ fileIndex_ q = delete k (fileIndex_ p))).
Proof.
  unfold afterFtrucate, entry_of, bind.
  destruct (fileIndex_ p !! k) as [e|] eqn:He; [|discriminate].
  intros H. exists e. split; [reflexivity|].
  assert (Hc : (if s64 (totalUsed_ p - s64 (size e)) <? 0 then 0
                else s64 (totalUsed_ p - s64 (size e)))
               = Z.max 0 (s64 (totalUsed_ p - s64 (size e)))).
  { destruct (Z.ltb_spec (s64 (totalUsed_ p - s64 (size e))) 0); lia. }
  rewrite Hc in H. clear Hc.
  destruct (openCount e =? 0) eqn:Eo.
  - apply Z.eqb_eq in Eo.
    destruct (fs_unlink _ k) as [err fs].
    destruct (negb (err =? 0)); injection H as <-; cbn.
    + split; [reflexivity|]. left. reflexivity.
    + split; [reflexivity|]. right. split; [exact Eo|]. apply delete_insert_eq.
  - injection H as <-. cbn. split; [reflexivity|]. left. reflexivity.
Qed.

(** Either the iteration leaves index and total alone, or it reclaims the
    tail entry: the total drops by the entry's size (never below 0) and the
    entry is left with size 0 or, when nobody has it open, erased. *)
Lemma evict_step_effect (p q : Pool) (freed : Z) :
  evict_step p = Done (q, freed) ->
  exists k e, lru_back p = Some k /\ fileIndex_ p !! k = Some e /\
    ((fileIndex_ q = fileIndex_ p /\ totalUsed_ q = totalUsed_ p /\ freed = 0) \/
     (totalUsed_ q = Z.max 0 (s64 (totalUsed_ p - s64 (size e))) /\
      (freed = size e \/ (freed = 0 /\ size e = 0)) /\
      (fileIndex_ q = <[k := {| openCount := openCount e; size := 0 |}]> (fileIndex_ p) \/
       (openCount e = 0 /\ fileIndex_ q = delete k (fileIndex_ p))))).
Proof.
  unfold evict_step, entry_of, bind, omap, bind.
  destruct (lru_back p) as [k|]; [|discriminate].
  destruct (fileIndex_ p !! k) as [e|] eqn:He; [|discriminate].
  intros H. exists k, e. split; [reflexivity|]. split; [exact He|].
  set (p1 := if openCount e =? 0 then lru_mark_key_cleared k p else lru_access k p) in H.
  assert (Hi : fileIndex_ p1 = fileIndex_ p) by (subst p1; destruct (openCount e =? 0); reflexivity).
  assert (Ht : totalUsed_ p1 = totalUsed_ p) by (subst p1; destruct (openCount e =? 0); reflexivity).
  destruct (Z.eqb_spec (size e) 0) as [Es|Es].
  - destruct (openCount e =? 0).
    + destruct (afterFtrucate k p1) as [q'| |] eqn:Ha; try discriminate.
      injection H as <- <-.
      apply afterFtrucate_effect in Ha as (e1 & He1 & Htot & Hidx).
      rewrite Hi, He in He1. injection He1 as <-. rewrite Hi, Ht in *.
      right. split; [exact Htot|]. split; [right; auto|exact Hidx].
    + injection H as <- <-. left. auto.
  - destruct (fs_truncate0 (mediaFs_ p1) k) as [[err errno] fs].
    destruct (negb (err =? 0) && negb (errno =? ENOENT)).
    + injection H as <- <-. left. auto.
    + cbn [set_mediaFs fileIndex_] in H. rewrite Hi, He in H.
      destruct (afterFtrucate k (set_mediaFs fs p1)) as [q'| |] eqn:Ha; try discriminate.
      injection H as <- <-.
      apply afterFtrucate_effect in Ha as (e1 & He1 & Htot & Hidx).
      cbn [set_mediaFs fileIndex_ totalUsed_] in He1, Htot, Hidx.
      rewrite Hi, He in He1. injection He1 as <-. rewrite ?Hi, ?Ht in *.
      right. split; [exact Htot|]. split; [left; reflexivity|exact Hidx].
Qed.

(** An entry somebody has open is never erased by an iteration, and keeps
    its [openCount]. *)
Lemma evict_step_keeps_open (p q : Pool) (freed : Z) (k : string) (e : LruEntry) :
  evict_step p = Done (q, freed) ->
  fileIndex_ p !! k = Some e -> openCount e <> 0 ->
  exists e', fileIndex_ q !! k = Some e' /\ openCount e' = openCount e.
Proof.
  intros Hs He Ho.
  apply evict_step_effect in Hs as (k0 & e0 & _ & He0 & [(Hi & _)|(_ & _ & [Hi|(Ho0 & Hi)])]);
    rewrite Hi.
  - exists e. auto.
  - destruct (decide (k0 = k)) as [->|Hne].
    + rewrite He in He0. injection He0 as <-.
      rewrite lookup_insert_eq. eexists. split; reflexivity.
    + rewrite lookup_insert_ne by exact Hne. exists e. auto.
  - destruct (decide (k0 = k)) as [->|Hne].
    + rewrite He in He0. injection He0 as <-. contradiction.
    + rewrite lookup_delete_ne by exact Hne. exists e. auto.
Qed.

Lemma eviction_loop_keeps_open (fuel : nat) (k : string) :
  forall (actualEvict : Z) (p q : Pool) (e : LruEntry),
    eviction_loop fuel actualEvict p = Done q ->
    fileIndex_ p !! k = Some e -> openCount e <> 0 ->
    exists e', fileIndex_ q !! k = Some e' /\ openCount e' = openCount e.
Proof.
  induction fuel as [|fuel IH]; intros a p q e; cbn [eviction_loop].
  - destruct (negb (0 <? a) || _ || exit_ p); [|discriminate].
    intros [= <-] He Ho. exists e. auto.
  - destruct (negb (0 <? a) || _ || exit_ p).
    + intros [= <-] He Ho. exists e. auto.
    + unfold bind. destruct (evict_step p) as [[p' freed]| |] eqn:Hs; try discriminate.
      intros Hl He Ho.
      destruct (evict_step_keeps_open _ _ _ _ _ Hs He Ho) as (e1 & He1 & Ho1).
      destruct (IH _ _ _ _ Hl He1) as (e2 & He2 & Ho2); [congruence|].
      exists e2. split; [exact He2|congruence].
Qed.

Lemma eviction_keeps_open (fuel : nat) (k : string) (p q : Pool) (e : LruEntry) :
  eviction fuel p = Done q ->
  fileIndex_ p !! k = Some e -> openCount e <> 0 ->
  exists e', fileIndex_ q !! k = Some e' /\ openCount e' = openCount e.
Proof.
  unfold eviction, omap, bind.
  destruct (evictByDisk_of p) as [d|].
  - destruct (actualEvict_of p d <=? 0).
    + intros [= <-] He Ho. exists e. auto.
    + destruct (eviction_loop fuel _ _) as [q'| |] eqn:Hl; try discriminate.
      intros [= <-] He Ho. cbn.
      eapply eviction_loop_keeps_open in Hl; eauto.
  - intros [= <-] He Ho. exists e. auto.
Qed.

(** ** [updateSpace] *)

(** [eviction] neither reads nor writes [running_]. *)
Lemma afterFtrucate_set_running (b : bool) (k : string) (p : Pool) :
  afterFtrucate k (set_running b p) = omap (set_running b) (afterFtrucate k p).
Proof.
  unfold afterFtrucate, entry_of, omap, bind. cbn.
  destruct (fileIndex_ p !! k) as [e|]; [|reflexivity].
  destruct (openCount e =? 0); [|reflexivity].
  destruct (fs_unlink (mediaFs_ p) k) as [err fs].
  destruct (negb (err =? 0)); reflexivity.
Qed.

Lemma evict_step_set_running (b : bool) (p : Pool) :
  evict_step (set_running b p) = omap (fun '(q, f) => (set_running b q, f)) (evict_step p).
Proof.
  unfold evict_step, entry_of, omap, bind, lru_back. cbn.
  destruct (last (lru_ p)) as [k|]; [|reflexivity].
  destruct (fileIndex_ p !! k) as [e|] eqn:He; [|reflexivity].
  destruct (openCount e =? 0) eqn:Eo; destruct (size e =? 0).
  - change (lru_mark_key_cleared k (set_running b p))
      with (set_running b (lru_mark_key_cleared k p)).
    rewrite afterFtrucate_set_running. unfold omap, bind.
    destruct (afterFtrucate k (lru_mark_key_cleared k p)); reflexivity.
  - cbn. destruct (fs_truncate0 (mediaFs_ p) k) as [[err errno] fs].
    destruct (negb (err =? 0) && negb (errno =? ENOENT)); [reflexivity|].
    cbn. rewrite He.
    change (set_mediaFs fs (lru_mark_key_cleared k (set_running b p)))
      with (set_running b (set_mediaFs fs (lru_mark_key_cleared k p))).
    rewrite afterFtrucate_set_running. unfold omap, bind.
    destruct (afterFtrucate k _); reflexivity.
  - reflexivity.
  - cbn. destruct (fs_truncate0 (mediaFs_ p) k) as [[err errno] fs].
    destruct (negb (err =? 0) && negb (errno =? ENOENT)); [reflexivity|].
    cbn. rewrite He.
    change (set_mediaFs fs (lru_access k (set_running b p)))
      with (set_running b (set_mediaFs fs (lru_access k p))).
    rewrite afterFtrucate_set_running. unfold omap, bind.
    destruct (afterFtrucate k _); reflexivity.
Qed.

Lemma eviction_loop_set_running (b : bool) (fuel : nat) :
  forall (actualEvict : Z) (p : Pool),
    eviction_loop fuel actualEvict (set_running b p)
    = omap (set_running b) (eviction_loop fuel actualEvict p).
Proof.
  induction fuel as [|fuel IH]; intros a p; cbn [eviction_loop].
  - change (lru_ (set_running b p)) with (lru_ p).
    change (exit_ (set_running b p)) with (exit_ p).
    destruct (negb (0 <? a) || _ || exit_ p); reflexivity.
  - change (lru_ (set_running b p)) with (lru_ p).
    change (exit_ (set_running b p)) with (exit_ p).
    destruct (negb (0 <? a) || _ || exit_ p); [reflexivity|].
    rewrite evict_step_set_running. unfold omap, bind.
    destruct (evict_step p) as [[q f]| |]; try reflexivity.
    apply IH.
Qed.

Lemma eviction_set_running (b : bool) (fuel : nat) (p : Pool) :
  eviction fuel (set_running b p) = omap (set_running b) (eviction fuel p).
Proof.
  unfold eviction.
  change (evictByDisk_of (set_running b p)) with (evictByDisk_of p).
  destruct (evictByDisk_of p) as [d|]; [|reflexivity].
  change (actualEvict_of (set_running b p) d) with (actualEvict_of p d).
  destruct (actualEvict_of p d <=? 0); [reflexivity|].
  change (set_isFull true (set_running b p)) with (set_running b (set_isFull true p)).
  rewrite eviction_loop_set_running. unfold omap, bind.
  destruct (eviction_loop fuel _ _); reflexivity.
Qed.

Lemma eviction_running (fuel : nat) (p q : Pool) :
  eviction fuel p = Done q -> running_ q = running_ p.
Proof.
  unfold eviction, omap, bind.
  destruct (evictByDisk_of p) as [d|]; [|intros [= <-]; reflexivity].
  destruct (actualEvict_of p d <=? 0); [intros [= <-]; reflexivity|].
  destruct (eviction_loop fuel _ _) as [q'| |] eqn:Hl; try discriminate.
  intros [= <-]. apply eviction_loop_running in Hl. exact Hl.
Qed.

Lemma set_running_same (p : Pool) : set_running (running_ p) p = p.
Proof. destruct p. reflexivity. Qed.

(** An idle pool's handler is an eviction run. *)
Lemma timerHandler_idle (fuel : nat) (p : Pool) :
  running_ p = false -> timerHandler fuel p = eviction fuel p.
Proof.
  intros Hr. rewrite timerHandler_unfold. rewrite Hr, eviction_set_running.
  unfold omap, bind. destruct (eviction fuel p) as [q| |] eqn:He; try reflexivity.
  apply eviction_running in He. rewrite Hr in He.
  destruct q. cbn in He. subst. reflexivity.
Qed.

Lemma updateSpace_exact (p : Pool) (e : LruEntry) (sz : Z) :
  space_in_range p e sz ->
  (if size e <? sz then u64 (sz - size e) else 0) = Z.max 0 (sz - size e) /\
  (if size e <? sz then s64 (totalUsed_ p + Z.max 0 (sz - size e)) else totalUsed_ p)
  = totalUsed_ p + Z.max 0 (sz - size e).
Proof.
  intros (Hs & Hz & Ht & Hsum).
  destruct (Z.ltb_spec (size e) sz) as [Hlt|Hge].
  - rewrite u64_small by lia. rewrite s64_small by lia. lia.
  - lia.
Qed.

(** C6 (as the code has it): [updateSpace] adds [max(0, new_size -
    old_size)] to [totalUsed_] and records the size.  Below [riskMark_] it
    returns with [isFull_] untouched and nothing evicted.  At or above
    [riskMark_] it sets [isFull_] and calls [forceRecycle]: on an idle pool
    that is an eviction run, finished before [updateSpace] returns; while an
    eviction is already running the call returns at once, with [isFull_]
    set and nothing evicted. *)
Theorem updateSpace_effect (fuel : nat) (p : Pool) (k : string) (e : LruEntry) (sz : Z) :
  fileIndex_ p !! k = Some e -> openCount e <> 0 -> space_in_range p e sz ->
  if riskMark_ p <=? totalUsed_ (space_updated p k e sz)
  then if running_ p
       then omap fst (updateSpace fuel k sz p) = Done (set_isFull true (space_updated p k e sz))
       else omap fst (updateSpace fuel k sz p)
            = eviction fuel (set_isFull true (space_updated p k e sz))
  else updateSpace fuel k sz p = Done (space_updated p k e sz, Z.max 0 (sz - size e)).
Proof.
  intros He Ho Hrange.
  destruct (updateSpace_exact p e sz Hrange) as [Hdiff Htot].
  unfold updateSpace, entry_of, bind. rewrite He. cbv zeta. rewrite Hdiff, Htot.
  fold (space_updated p k e sz).
  change (riskMark_ (space_updated p k e sz)) with (riskMark_ p).
  destruct (riskMark_ p <=? totalUsed_ (space_updated p k e sz)); [|reflexivity].
  destruct (running_ p) eqn:Hr.
  - unfold forceRecycle. rewrite timerHandler_unfold. cbn [running_ set_isFull space_updated set_totalUsed set_fileIndex].
    rewrite Hr. cbn. rewrite lookup_insert_eq. reflexivity.
  - unfold forceRecycle. rewrite timerHandler_idle by exact Hr.
    destruct (eviction fuel (set_isFull true (space_updated p k e sz))) as [q| |] eqn:Hev;
      try reflexivity.
    destruct (eviction_keeps_open fuel k _ q {| openCount := openCount e; size := sz |} Hev)
      as (e' & He' & _).
    + cbn. apply lookup_insert_eq.
    + exact Ho.
    + cbn. rewrite He'. reflexivity.
Qed.

Lemma updateSpace_effect_witness :
  fileIndex_ pool_refill !! "b" = Some {| openCount := 1; size := 0 |} /\
  space_in_range pool_refill {| openCount := 1; size := 0 |} 629145600 /\
  omap fst (updateSpace 5 "b" 629145600 pool_refill)
  = eviction 5 (set_isFull true
                  (space_updated pool_refill "b" {| openCount := 1; size := 0 |} 629145600)) /\
  exists q, omap fst (updateSpace 5 "b" 629145600 pool_refill) = Done q /\
            isFull_ q = false /\ fileIndex_ q !! "a" = None /\ totalUsed_ q = 629145600.
Proof.
  assert (Hq : exists q, omap fst (updateSpace 5 "b" 629145600 pool_refill) = Done q /\
                         isFull_ q = false /\ fileIndex_ q !! "a" = None /\
                         totalUsed_ q = 629145600)
    by (vm_compute; eexists; repeat split; reflexivity).
  refine ((fun H => conj (proj1 H) (conj (proj1 (proj2 H)) (conj (proj2 (proj2 H)) Hq))) _).
  assert (He : fileIndex_ pool_refill !! "b" = Some {| openCount := 1; size := 0 |})
    by (vm_compute; reflexivity).
  assert (Hr : space_in_range pool_refill {| openCount := 1; size := 0 |} 629145600)
    by (repeat split; vm_compute; (reflexivity || discriminate)).
  split; [exact He|]. split; [exact Hr|].
  pose proof (updateSpace_effect 5 pool_refill "b" _ 629145600 He ltac:(discriminate) Hr) as H.
  assert (Hc : (riskMark_ pool_refill
                <=? totalUsed_ (space_updated pool_refill "b"
                                  {| openCount := 1; size := 0 |} 629145600)) = true)
    by (vm_compute; reflexivity).
  rewrite Hc in H.
  assert (Hn : running_ pool_refill = false) by reflexivity.
  rewrite Hn in H. exact H.
Defined.

(** C6, as stated, fails while an eviction is already running: the update
    takes [totalUsed_] above [riskMark_], [isFull_] is set, and the call
    returns without evicting; an eviction run would have reclaimed [a] and
    cleared [isFull_]. *)
Lemma updateSpace_no_eviction_while_running : ~ updateSpace_always_evicts.
Proof.
  intros H.
  specialize (H 5%nat pool_refill_evicting "b" {| openCount := 1; size := 0 |} 629145600).
  assert (Hc : (riskMark_ pool_refill_evicting
                <=? totalUsed_ (space_updated pool_refill_evicting "b"
                                  {| openCount := 1; size := 0 |} 629145600)) = true)
    by (vm_compute; reflexivity).
  rewrite Hc in H.
  assert (E : omap fst (updateSpace 5 "b" 629145600 pool_refill_evicting)
              = eviction 5 (set_isFull true
                  (space_updated pool_refill_evicting "b"
                     {| openCount := 1; size := 0 |} 629145600))).
  { apply H.
    - vm_compute. reflexivity.
    - discriminate.
    - repeat split; vm_compute; (reflexivity || discriminate). }
  apply (f_equal (fun o => match o with
                           | Done q => (isFull_ q, fileIndex_ q !! "a")
                           | _ => (false, None)
                           end)) in E.
  vm_compute in E. discriminate E.
Qed.

(** ** Accounting *)

Lemma sum_sizes_empty : sum_sizes ∅ = 0.
Proof. unfold sum_sizes. apply map_fold_empty. Qed.

Lemma sum_sizes_insert_None (m : gmap string LruEntry) (k : string) (e : LruEntry) :
  m !! k = None -> sum_sizes (<[k := e]> m) = size e + sum_sizes m.
Proof.
  intros Hk. unfold sum_sizes.
  apply (map_fold_insert_L (fun _ e acc => size e + acc)); [|exact Hk].
  intros. lia.
Qed.

Lemma sum_sizes_delete (m : gmap string LruEntry) (k : string) (e : LruEntry) :
  m !! k = Some e -> sum_sizes m = size e + sum_sizes (delete k m).
Proof.
  intros Hk. unfold sum_sizes.
  apply (map_fold_delete_L (fun _ e acc => size e + acc)); [|exact Hk].
  intros. lia.
Qed.

Lemma sum_sizes_insert_Some (m : gmap string LruEntry) (k : string) (e e' : LruEntry) :
  m !! k = Some e -> sum_sizes (<[k := e']> m) = sum_sizes m - size e + size e'.
Proof.
  intros Hk. rewrite <- insert_delete_eq.
  rewrite sum_sizes_insert_None by apply lookup_delete_eq.
  rewrite (sum_sizes_delete m k e Hk). lia.
Qed.

Lemma sum_sizes_nonneg (m : gmap string LruEntry) :
  map_Forall (fun _ e => 0 <= size e) m -> 0 <= sum_sizes m.
Proof.
  induction m as [|k e m Hk IH] using map_ind; intros Hall.
  - rewrite sum_sizes_empty. lia.
  - rewrite sum_sizes_insert_None by exact Hk.
    apply map_Forall_insert in Hall as [He Hm]; [|exact Hk].
    specialize (IH Hm). lia.
Qed.

Lemma sum_sizes_lower (m : gmap string LruEntry) (k : string) (e : LruEntry) :
  map_Forall (fun _ e => 0 <= size e) m -> m !! k = Some e ->
  0 <= size e <= sum_sizes m.
Proof.
  intros Hall Hk. rewrite (sum_sizes_delete m k e Hk).
  pose proof (Hall k e Hk) as He. cbn in He.
  assert (0 <= sum_sizes (delete k m)).
  { apply sum_sizes_nonneg. eapply map_Forall_delete. exact Hall. }
  lia.
Qed.

(** Reclaiming an entry: its size leaves the sum and the total alike. *)
Lemma reclaim_accounted (p q : Pool) (k : string) (e : LruEntry) :
  accounted p -> fileIndex_ p !! k = Some e ->
  totalUsed_ q = Z.max 0 (s64 (totalUsed_ p - s64 (size e))) ->
  (fileIndex_ q = <[k := {| openCount := openCount e; size := 0 |}]> (fileIndex_ p) \/
   (openCount e = 0 /\ fileIndex_ q = delete k (fileIndex_ p))) ->
  accounted q /\ (exactly_accounted p -> exactly_accounted q).
Proof.
  intros [Hall Hsum] He Htot Hidx.
  pose proof (sum_sizes_lower _ _ _ Hall He) as Hsz.
  assert (Ht : totalUsed_ q = totalUsed_ p - size e).
  { rewrite Htot. rewrite (s64_small (size e)) by lia. rewrite s64_small by lia. lia. }
  assert (Hs : sum_sizes (fileIndex_ q) = sum_sizes (fileIndex_ p) - size e).
  { destruct Hidx as [->|[_ ->]].
    - rewrite (sum_sizes_insert_Some _ _ _ _ He). cbn. lia.
    - rewrite (sum_sizes_delete _ _ _ He). lia. }
  unfold accounted, exactly_accounted. rewrite Ht, Hs. split; [split|]; try lia.
  destruct Hidx as [->|[_ ->]].
  - apply map_Forall_insert_2; [cbn; lia|exact Hall].
  - apply map_Forall_delete. exact Hall.
Qed.

Lemma evict_step_accounted (p q : Pool) (freed : Z) :
  accounted p -> evict_step p = Done (q, freed) ->
  accounted q /\ (exactly_accounted p -> exactly_accounted q).
Proof.
  intros Hacc Hs.
  apply evict_step_effect in Hs as (k & e & _ & He & [(Hi & Ht & _)|(Ht & _ & Hidx)]).
  - unfold accounted, exactly_accounted in *. rewrite Hi, Ht. auto.
  - eapply reclaim_accounted; eauto.
Qed.

Lemma eviction_loop_accounted (fuel : nat) :
  forall (actualEvict : Z) (p q : Pool),
    accounted p -> eviction_loop fuel actualEvict p = Done q ->
    accounted q /\ (exactly_accounted p -> exactly_accounted q).
Proof.
  induction fuel as [|fuel IH]; intros a p q Hacc; cbn [eviction_loop].
  - destruct (negb (0 <? a) || _ || exit_ p); [|discriminate].
    intros [= <-]. auto.
  - destruct (negb (0 <? a) || _ || exit_ p); [intros [= <-]; auto|].
    unfold bind. destruct (evict_step p) as [[p' freed]| |] eqn:Hs; try discriminate.
    intros Hl. destruct (evict_step_accounted _ _ _ Hacc Hs) as [Hacc' Hex'].
    destruct (IH _ _ _ Hacc' Hl) as [Hacc'' Hex'']. auto.
Qed.

Lemma eviction_accounted (fuel : nat) (p q : Pool) :
  accounted p -> eviction fuel p = Done q ->
  accounted q /\ (exactly_accounted p -> exactly_accounted q).
Proof.
  intros Hacc. unfold eviction, omap, bind.
  destruct (evictByDisk_of p) as [d|]; [|intros [= <-]; auto].
  destruct (actualEvict_of p d <=? 0); [intros [= <-]; auto|].
  destruct (eviction_loop fuel _ _) as [q'| |] eqn:Hl; try discriminate.
  intros [= <-]. apply (eviction_loop_accounted _ _ (set_isFull true p) _ Hacc) in Hl. exact Hl.
Qed.

Lemma timerHandler_accounted (fuel : nat) (p q : Pool) :
  accounted p -> timerHandler fuel p = Done q ->
  accounted q /\ (exactly_accounted p -> exactly_accounted q).
Proof.
  intros Hacc. rewrite timerHandler_unfold.
  destruct (running_ p); [intros [= <-]; auto|].
  unfold omap, bind.
  destruct (eviction fuel (set_running true p)) as [q'| |] eqn:Hev; try discriminate.
  intros [= <-]. apply (eviction_accounted _ (set_running true p) _ Hacc) in Hev. exact Hev.
Qed.

Lemma space_updated_accounted (p : Pool) (k : string) (e : LruEntry) (sz : Z) :
  accounted p -> fileIndex_ p !! k = Some e -> 0 <= sz -> totalUsed_ p + sz < 2 ^ 63 ->
  space_in_range p e sz /\ accounted (space_updated p k e sz) /\
  (exactly_accounted p -> size e <= sz -> exactly_accounted (space_updated p k e sz)).
Proof.
  intros [Hall Hsum] He Hsz Hfit.
  pose proof (sum_sizes_lower _ _ _ Hall He) as Hlow.
  assert (Hs : sum_sizes (fileIndex_ (space_updated p k e sz))
               = sum_sizes (fileIndex_ p) - size e + sz).
  { cbn. rewrite (sum_sizes_insert_Some _ _ _ _ He). reflexivity. }
  split; [unfold space_in_range; lia|].
  unfold accounted, exactly_accounted. rewrite Hs. cbn [space_updated totalUsed_ set_totalUsed].
  split; [split|].
  - cbn. apply map_Forall_insert_2; [cbn; lia|exact Hall].
  - lia.
  - intros Hex Hle. unfold exactly_accounted in Hex. lia.
Qed.

Lemma updateSpace_accounted (fuel : nat) (k : string) (sz : Z) (p q : Pool) (d : Z) :
  accounted p -> 0 <= sz -> totalUsed_ p + sz < 2 ^ 63 ->
  updateSpace fuel k sz p = Done (q, d) ->
  accounted q /\
  (exactly_accounted p -> (forall e, fileIndex_ p !! k = Some e -> size e <= sz) ->
   exactly_accounted q).
Proof.
  intros Hacc Hsz Hfit. unfold updateSpace, entry_of, bind.
  destruct (fileIndex_ p !! k) as [e|] eqn:He; [|discriminate].
  destruct (space_updated_accounted p k e sz Hacc He Hsz Hfit) as (Hrange & Hacc1 & Hex1).
  destruct (updateSpace_exact p e sz Hrange) as [Hdiff Htot].
  cbv zeta. rewrite Hdiff, Htot. fold (space_updated p k e sz).
  destruct (riskMark_ _ <=? totalUsed_ _).
  - unfold forceRecycle.
    destruct (timerHandler fuel (set_isFull true (space_updated p k e sz))) as [p2| |] eqn:Ht;
      try discriminate.
    destruct (fileIndex_ p2 !! k); [|discriminate].
    intros [= <- _].
    destruct (timerHandler_accounted fuel (set_isFull true (space_updated p k e sz)) p2 Hacc1 Ht)
      as [Hacc2 Hex2].
    split; [exact Hacc2|]. intros Hex Hle. apply Hex2. apply Hex1; auto.
  - intros [= <- _]. split; [exact Hacc1|]. intros Hex Hle. apply Hex1; auto.
Qed.

Lemma do_open_accounted (filename : string) (creat : bool) (p : Pool) :
  accounted p ->
  accounted (do_open filename creat p).1 /\
  (exactly_accounted p -> exactly_accounted (do_open filename creat p).1).
Proof.
  intros [Hall Hsum]. unfold do_open.
  destruct (String.eqb filename ""); [cbn; split; [split|]; auto|].
  destruct (fs_open (mediaFs_ p) filename creat) as [ok fs].
  destruct ok; cbn [negb]; [|cbn; split; [split|]; auto].
  cbn [set_mediaFs fileIndex_].
  destruct (fileIndex_ p !! filename) as [e|] eqn:He;
    unfold accounted, exactly_accounted; cbn.
  - rewrite (sum_sizes_insert_Some _ _ _ _ He). cbn.
    pose proof (Hall _ _ He) as Hpos. cbn in Hpos.
    split; [split|]; try lia.
    apply map_Forall_insert_2; [cbn; lia|exact Hall].
  - rewrite (sum_sizes_insert_None _ _ _ He). cbn.
    split; [split|]; try lia.
    apply map_Forall_insert_2; [cbn; lia|exact Hall].
Qed.

Lemma removeOpenFile_accounted (k : string) (p q : Pool) :
  accounted p -> removeOpenFile k p = Done q ->
  accounted q /\ (exactly_accounted p -> exactly_accounted q).
Proof.
  intros [Hall Hsum]. unfold removeOpenFile, entry_of, bind.
  destruct (fileIndex_ p !! k) as [e|] eqn:He; [|discriminate].
  intros [= <-]. unfold accounted, exactly_accounted. cbn.
  rewrite (sum_sizes_insert_Some _ _ _ _ He). cbn.
  pose proof (Hall _ _ He) as Hpos. cbn in Hpos.
  split; [split|]; try lia.
  apply map_Forall_insert_2; [cbn; lia|exact Hall].
Qed.

Lemma updateLru_accounted (k : string) (p q : Pool) :
  accounted p -> updateLru k p = Done q ->
  accounted q /\ (exactly_accounted p -> exactly_accounted q).
Proof.
  intros Hacc. unfold updateLru, entry_of, bind.
  destruct (fileIndex_ p !! k); [|discriminate].
  intros [= <-]. auto.
Qed.

Lemma insertFile_accounted (file : string) (st_blocks : option Z) (p : Pool) :
  accounted p -> op_in_range p (OpInsertFile file st_blocks) ->
  accounted (insertFile file st_blocks p).1 /\
  (exactly_accounted p -> op_keeps_exact p (OpInsertFile file st_blocks) ->
   exactly_accounted (insertFile file st_blocks p).1).
Proof.
  intros [Hall Hsum] Hr. unfold insertFile.
  destruct st_blocks as [blocks|]; [|cbn; split; [split|]; auto].
  cbn in Hr. destruct Hr as [Hb Hfit].
  pose proof (sum_sizes_nonneg _ Hall) as Hnn.
  assert (Hk : 0 < kDiskBlockSize) by (unfold kDiskBlockSize; lia).
  assert (Hu : u64 (blocks * kDiskBlockSize) = blocks * kDiskBlockSize)
    by (apply u64_small; nia).
  unfold accounted, exactly_accounted.
  cbn [fst set_totalUsed set_fileIndex lru_push_front set_lru fileIndex_ totalUsed_ op_keeps_exact].
  rewrite Hu. rewrite s64_small by nia.
  destruct (fileIndex_ p !! file) as [e|] eqn:He.
  - split; [split; [exact Hall|nia]|]. intros _ Hf. discriminate Hf.
  - rewrite (sum_sizes_insert_None _ _ _ He). cbn [size].
    split; [split|].
    + apply map_Forall_insert_2; [cbn; nia|exact Hall].
    + nia.
    + intros Hex _. unfold exactly_accounted in Hex. lia.
Qed.

Lemma run_op_accounted (fuel : nat) (op : PoolOp) (p q : Pool) :
  accounted p -> op_in_range p op -> run_op fuel op p = Done q ->
  accounted q /\ (exactly_accounted p -> op_keeps_exact p op -> exactly_accounted q).
Proof.
  intros Hacc Hr. destruct op as [f c|k|k|k sz|f b| |]; cbn [run_op].
  - intros [= <-]. destruct (do_open_accounted f c p Hacc). auto.
  - intros H. destruct (removeOpenFile_accounted k p q Hacc H). auto.
  - intros H. destruct (updateLru_accounted k p q Hacc H). auto.
  - unfold omap, bind.
    destruct (updateSpace fuel k sz p) as [[q' d]| |] eqn:Hu; try discriminate.
    intros [= <-]. cbn in Hr. destruct Hr as [Hsz Hfit].
    destruct (updateSpace_accounted fuel k sz p q' d Hacc Hsz Hfit Hu). auto.
  - intros [= <-]. apply insertFile_accounted; assumption.
  - intros H. destruct (timerHandler_accounted fuel p q Hacc H). auto.
  - intros H. destruct (timerHandler_accounted fuel p q Hacc H). auto.
Qed.

(** C2 (as the code has it): along any run of pool operations whose
    additions fit 64 bits, [totalUsed_] is never below the sum of the
    recorded sizes, at every point between operations; it equals the sum as
    long as no [updateSpace] records a size below the previous one and no
    [insertFile] meets a key that is already indexed. *)
Theorem pool_accounting (fuel : nat) (ops : list PoolOp) :
  forall (p q : Pool),
    accounted p -> along fuel op_in_range ops p -> run_ops fuel ops p = Done q ->
    accounted q /\
    (exactly_accounted p -> along fuel op_keeps_exact ops p -> exactly_accounted q).
Proof.
  induction ops as [|op rest IH]; intros p q Hacc Hr; cbn [run_ops].
  - intros [= <-]. auto.
  - unfold bind. destruct (run_op fuel op p) as [p'| |] eqn:Hop; try discriminate.
    intros Hrest. cbn [along] in Hr. rewrite Hop in Hr. destruct Hr as [Hr1 Hr2].
    destruct (run_op_accounted fuel op p p' Hacc Hr1 Hop) as [Hacc' Hex'].
    destruct (IH p' q Hacc' Hr2 Hrest) as [Hacc'' Hex''].
    split; [exact Hacc''|].
    intros Hex Hk. cbn [along] in Hk. rewrite Hop in Hk. destruct Hk as [Hk1 Hk2].
    auto.
Qed.

Lemma pool0_accounted : accounted pool0 /\ exactly_accounted pool0.
Proof.
  unfold accounted, exactly_accounted. cbn.
  rewrite sum_sizes_empty. split; [split|]; try lia.
  apply map_Forall_empty.
Qed.

Lemma pool_a_open_accounted : accounted pool_a_open /\ exactly_accounted pool_a_open.
Proof.
  destruct pool0_accounted as [H0 E0].
  destruct (insertFile_accounted "a" (Some 8) pool0 H0) as [H1 E1].
  { vm_compute. split; [discriminate|reflexivity]. }
  destruct (do_open_accounted "a" false _ H1) as [H2 E2].
  split; [exact H2|]. apply E2, E1; [exact E0|]. vm_compute. reflexivity.
Qed.

Lemma pool_accounting_witness :
  accounted pool0 /\
  along 5 op_in_range [OpInsertFile "a" (Some 8); OpOpen "a" false; OpUpdateSpace "a" 8192] pool0 /\
  exists q,
    run_ops 5 [OpInsertFile "a" (Some 8); OpOpen "a" false; OpUpdateSpace "a" 8192] pool0 = Done q /\
    accounted q /\ exactly_accounted q.
Proof.
  assert (Hr : along 5 op_in_range
                 [OpInsertFile "a" (Some 8); OpOpen "a" false; OpUpdateSpace "a" 8192] pool0)
    by (vm_compute; repeat split; try discriminate; reflexivity).
  assert (Hk : along 5 op_keeps_exact
                 [OpInsertFile "a" (Some 8); OpOpen "a" false; OpUpdateSpace "a" 8192] pool0).
  { vm_compute. repeat split. intros e [= <-]. vm_compute. discriminate. }
  split; [exact (proj1 pool0_accounted)|]. split; [exact Hr|].
  destruct (run_ops 5 [OpInsertFile "a" (Some 8); OpOpen "a" false; OpUpdateSpace "a" 8192] pool0)
    as [q| |] eqn:Hq; try (vm_compute in Hq; discriminate Hq).
  exists q. split; [reflexivity|].
  destruct (pool_accounting 5 _ pool0 q (proj1 pool0_accounted) Hr Hq) as [Ha He].
  split; [exact Ha|]. apply He; [exact (proj2 pool0_accounted)|exact Hk].
Defined.

(** C2, as stated, fails: [updateSpace] with a size below the recorded one
    lowers the entry's size and leaves [totalUsed_] where it was. *)
Lemma updateSpace_shrink_breaks_sum : ~ totalUsed_is_sum.
Proof.
  intros H.
  assert (E : exists q, run_op 0 (OpUpdateSpace "a" 512) pool_a_open = Done q /\
                        sum_sizes (fileIndex_ q) = 512 /\ totalUsed_ q = 4096)
    by (vm_compute; eexists; repeat split; reflexivity).
  destruct E as (q & Hq & Hs & Ht).
  destruct pool_a_open_accounted as [Ha He].
  specialize (H 0%nat (OpUpdateSpace "a" 512) pool_a_open q Ha He).
  unfold exactly_accounted in H. rewrite Hs, Ht in H.
  assert (512 = 4096) by (apply H; [vm_compute; split; [discriminate|reflexivity]|exact Hq]).
  discriminate.
Qed.


End CacheProps.

(** * Properties of the credential lookup *)

Module ImageServiceProps.
Import ImageService ImageServiceClaims.

(** ** parse_blob_url *)

(** *** The two loops end within their budgets *)

Lemma index_slash_bounds (s : string) :
  forall n m, String.index n "/" s = Some m -> (n <= m < String.length s)%nat.
Proof.
  induction s as [|c s IH]; intros n m; cbn [String.index String.length].
  - destruct n; discriminate.
  - destruct n as [|n].
    + destruct (String.prefix "/" (String c s)).
      * intros [= <-]. lia.
      * destruct (String.index 0 "/" s) as [k|] eqn:Hk; [|discriminate].
        intros [= <-]. apply IH in Hk. lia.
    + destruct (String.index n "/" s) as [k|] eqn:Hk; [|discriminate].
      intros [= <-]. apply IH in Hk. lia.
Qed.

(** More rounds than [String.length sub_url + 1 - prev] change nothing. *)
Lemma split_words_fuel (sub_url : string) (fuel1 : nat) :
  forall fuel2 prev,
    (String.length sub_url + 1 - prev <= fuel1)%nat ->
    (String.length sub_url + 1 - prev <= fuel2)%nat ->
    split_words fuel1 sub_url prev = split_words fuel2 sub_url prev.
Proof.
  induction fuel1 as [|fuel1 IH]; intros fuel2 prev H1 H2.
  - cbn [split_words]. destruct fuel2 as [|fuel2]; [reflexivity|]. cbn [split_words].
    destruct (String.index prev "/" sub_url) as [idx|] eqn:Hi; [|reflexivity].
    apply index_slash_bounds in Hi. lia.
  - cbn [split_words].
    destruct (String.index prev "/" sub_url) as [idx|] eqn:Hi.
    + pose proof (index_slash_bounds _ _ _ Hi) as Hb.
      destruct fuel2 as [|fuel2]; [lia|]. cbn [split_words]. rewrite Hi.
      f_equal. apply IH; lia.
    + destruct fuel2 as [|fuel2]; [reflexivity|]. cbn [split_words]. rewrite Hi. reflexivity.
Qed.

Lemma words_of_fuel (sub_url : string) (fuel : nat) :
  (S (String.length sub_url) <= fuel)%nat -> split_words fuel sub_url 0 = words_of sub_url.
Proof. intros H. unfold words_of. apply split_words_fuel; lia. Qed.

(** More rounds than [words.size() - i] change nothing, and inside the
    loop [words[i]] is always in bounds. *)
Lemma push_words_fuel (words : list string) (fuel1 : nat) :
  forall fuel2 i seg,
    (List.length words - i <= fuel1)%nat -> (List.length words - i <= fuel2)%nat ->
    push_words fuel1 i words seg = push_words fuel2 i words seg /\
    push_words fuel1 i words seg <> None.
Proof.
  induction fuel1 as [|fuel1 IH]; intros fuel2 i seg H1 H2.
  - cbn [push_words]. destruct fuel2 as [|fuel2]; [split; [reflexivity|discriminate]|].
    cbn [push_words]. destruct (Nat.ltb_spec (i + 1) (List.length words)); [lia|].
    split; [reflexivity|discriminate].
  - cbn [push_words]. destruct (Nat.ltb_spec (i + 1) (List.length words)) as [Hlt|Hge].
    + destruct (nth_error words i) as [w|] eqn:Hw.
      * destruct fuel2 as [|fuel2]; [lia|]. cbn [push_words].
        destruct (Nat.ltb_spec (i + 1) (List.length words)); [|lia]. rewrite Hw.
        apply IH; lia.
      * apply nth_error_None in Hw. lia.
    + destruct fuel2 as [|fuel2]; cbn [push_words].
      * split; [reflexivity|discriminate].
      * destruct (Nat.ltb_spec (i + 1) (List.length words)); [lia|].
        split; [reflexivity|discriminate].
Qed.

(** A url with neither prefix leaves [ref.seg] as it was and returns 0. *)
Lemma parse_blob_url_other_scheme (url : string) (seg : list string) :
  find_at_0 "http://" url = false -> find_at_0 "https://" url = false ->
  parse_blob_url url seg = Parsed 0 seg.
Proof.
  intros H1 H2. unfold parse_blob_url, parse_with_prefix. rewrite H1, H2. reflexivity.
Qed.

Lemma substring_all (s : string) : String.substring 0 (String.length s) s = s.
Proof. induction s as [|c s IH]; cbn; [reflexivity|]. rewrite IH. reflexivity. Qed.

Lemma substr_from_append (p s : string) :
  substr_from (String.length p) (String.append p s) = s.
Proof.
  unfold substr_from. induction p as [|c p IH].
  - change (String.append "" s) with s. cbn [String.length].
    rewrite Nat.sub_0_r. apply substring_all.
  - change (String.append (String c p) s) with (String c (String.append p s)).
    cbn [String.length Nat.sub String.substring]. exact IH.
Qed.

(** Whenever nothing but a host follows ["http://"], [words] is empty and
    [words[0]] is read all the same. *)
Lemma parse_blob_url_without_slash (host : string) (seg : list string) :
  String.index 0 "/" host = None ->
  parse_blob_url (String.append "http://" host) seg = OutOfBounds.
Proof.
  intros Hn. unfold parse_blob_url, parse_with_prefix.
  assert (Hp : find_at_0 "http://" (String.append "http://" host) = true)
    by (destruct host; vm_compute; reflexivity).
  rewrite Hp.
  assert (Hs : substr_from (String.length "http://") (String.append "http://" host) = host).
  { apply substr_from_append. }
  rewrite Hs. unfold words_of. cbn [split_words]. rewrite Hn. reflexivity.
Qed.

(** The read of [words[0]] on an empty [words] is the only read out of
    bounds: it happens exactly when the prefix is there and no ["/"]
    follows it. *)
Lemma parse_with_prefix_out_of_bounds (prefix url : string) (seg : list string) :
  parse_with_prefix prefix url seg = None <->
  find_at_0 prefix url = true /\ words_of (substr_from (String.length prefix) url) = [].
Proof.
  unfold parse_with_prefix. destruct (find_at_0 prefix url).
  - destruct (words_of (substr_from (String.length prefix) url)) as [|w0 ws] eqn:Hw.
    + cbn. split; auto.
    + cbn [nth_error]. split.
      * intros H. exfalso. revert H.
        apply (push_words_fuel (w0 :: ws) (List.length (w0 :: ws))
                 (List.length (w0 :: ws)) 2 [w0]); lia.
      * intros [_ H]. discriminate H.
  - split; [discriminate|]. intros [H _]. discriminate H.
Qed.

(** C8: for ["http://registry.io"] the sub-url holds no ["/"], [words]
    stays empty, and [parse_blob_url] reads [words[0]] out of bounds instead
    of returning 0. *)
Theorem parse_blob_url_reads_empty_words (seg : list string) :
  words_of "registry.io" = [] /\
  parse_blob_url "http://registry.io" seg = OutOfBounds.
Proof. split; reflexivity. Qed.

(** ** load_cred_from_file *)

Section WithBase64.

Variable base64_decode : string -> string.

Lemma scan_auths_skip (pre rest : list (string * AuthValue)) (seg : list string)
    (user pass : string) :
  Forall (fun '(a, w) => match_prefix a "" seg = false \/ usable base64_decode w = None) pre ->
  scan_auths base64_decode (pre ++ rest) seg user pass
  = scan_auths base64_decode rest seg user pass.
Proof.
  induction pre as [|[a w] pre IH]; intros Hall; [reflexivity|].
  apply Forall_cons in Hall as [Hhd Htl].
  cbn [app scan_auths]. destruct Hhd as [Hm|Hu].
  - rewrite Hm. cbn. apply IH, Htl.
  - destruct (match_prefix a "" seg); cbn [negb]; [|apply IH, Htl].
    unfold usable in Hu. destruct (auth w) as [t|].
    + destruct (String.index 0 ":" (base64_decode t)); [discriminate|apply IH, Htl].
    + destruct (username w), (password w); try discriminate; apply IH, Htl.
Qed.

(** C7 (as the code has it): the credentials returned are those of the
    first entry, in the order of the config file, whose address equals a
    prefix of the path and which yields credentials. *)
Theorem load_cred_first_match (pre post : list (string * AuthValue)) (url : string)
    (seg : list string) (addr : string) (value : AuthValue) (u pw user pass : string) :
  parse_blob_url url [] = Parsed 0 seg ->
  Forall (fun '(a, w) => match_prefix a "" seg = false \/ usable base64_decode w = None) pre ->
  match_prefix addr "" seg = true ->
  usable base64_decode value = Some (u, pw) ->
  load_cred_from_file base64_decode (Some (pre ++ (addr, value) :: post)) url user pass
  = Cred 0 u pw.
Proof.
  intros Hp Hpre Hm Hu. unfold load_cred_from_file. rewrite Hp. cbn [Z.eqb negb].
  rewrite scan_auths_skip by exact Hpre.
  cbn [scan_auths]. rewrite Hm. cbn [negb].
  unfold usable in Hu. destruct (auth value) as [t|].
  - destruct (String.index 0 ":" (base64_decode t)); [|discriminate].
    injection Hu as <- <-. reflexivity.
  - destruct (username value), (password value); try discriminate.
    injection Hu as <- <-. reflexivity.
Qed.

(** When no entry matches and yields credentials the call returns -1 and
    leaves the output strings alone. *)
Lemma load_cred_no_match (auths : list (string * AuthValue)) (url : string)
    (seg : list string) (user pass : string) :
  parse_blob_url url [] = Parsed 0 seg ->
  Forall (fun '(a, w) => match_prefix a "" seg = false \/ usable base64_decode w = None) auths ->
  load_cred_from_file base64_decode (Some auths) url user pass = Cred (-1) user pass.
Proof.
  intros Hp Hall. unfold load_cred_from_file. rewrite Hp. cbn [Z.eqb negb].
  rewrite <- (app_nil_r auths). rewrite scan_auths_skip by exact Hall. reflexivity.
Qed.

End WithBase64.

Lemma load_cred_first_match_witness :
  parse_blob_url blob_url [] = Parsed 0 ["registry.io"; "ns"; "repo"] /\
  match_prefix "registry.io" "" ["registry.io"; "ns"; "repo"] = true /\
  load_cred_from_file (fun s => s) (Some auths_registry_first) blob_url "" ""
  = Cred 0 "alice" "pw-registry".
Proof.
  split; [reflexivity|]. split; [reflexivity|].
  apply (load_cred_first_match (fun s => s) [] [("registry.io/ns/repo", cred_repo)]
           blob_url ["registry.io"; "ns"; "repo"] "registry.io" cred_registry).
  - reflexivity.
  - constructor.
  - reflexivity.
  - reflexivity.
Defined.

(** C7, as stated, fails: with the registry's entry ahead of the
    repository's, the registry's credentials are returned although the
    repository's address is the longer matching prefix; with the two entries
    swapped the answer changes. *)
Lemma load_cred_depends_on_order :
  ~ returns_longest_match (fun s => s) /\
  load_cred_from_file (fun s => s) (Some auths_registry_first) blob_url "" ""
  <> load_cred_from_file (fun s => s) (Some auths_repo_first) blob_url "" "".
Proof.
  split.
  - intros H.
    specialize (H auths_registry_first blob_url ["registry.io"; "ns"; "repo"]
                  "registry.io/ns/repo" cred_repo "bob" "pw-repo").
    assert (E : load_cred_from_file (fun s => s) (Some auths_registry_first) blob_url "" ""
                = Cred 0 "bob" "pw-repo").
    { apply H; try reflexivity.
      - right. left. reflexivity.
      - intros addr' value' [Hin|[Hin|[]]] _; injection Hin as <- _; cbn; lia. }
    vm_compute in E. discriminate E.
  - vm_compute. discriminate.
Qed.

End ImageServiceProps.

(** * Properties of the switch file *)

Module SwitchProps.
Import Switch SwitchClaims.

Lemma in_flight_nonneg (ts : list tstate) : 0 <= in_flight ts.
Proof. induction ts as [|s ts IH]; cbn; [lia|]. destruct s; lia. Qed.

Lemma in_flight_insert (ts : list tstate) (t : nat) (old new : tstate) :
  ts !! t = Some old ->
  in_flight (<[t := new]> ts) = in_flight ts - weight old + weight new.
Proof.
  revert t. induction ts as [|s ts IH]; intros [|t] H; try discriminate.
  - cbn in H. injection H as ->. cbn. destruct old, new; cbn; lia.
  - cbn in H. specialize (IH t H).
    change (<[S t := new]> (s :: ts)) with (s :: <[t := new]> ts).
    destruct s; cbn [in_flight]; rewrite IH; lia.
Qed.

Lemma in_flight_zero (ts : list tstate) (t : nat) (file : nat) :
  in_flight ts <= 0 -> ts !! t <> Some (Forwarding file).
Proof.
  revert t. induction ts as [|s ts IH]; intros [|t] Hz H; try discriminate.
  - cbn in H. injection H as ->. cbn in Hz. pose proof (in_flight_nonneg ts). lia.
  - cbn in H. apply (IH t); [|exact H].
    cbn in Hz. pose proof (in_flight_nonneg ts). destruct s; lia.
Qed.

Lemma in_flight_replicate (n : nat) : in_flight (replicate n Idle) = 0.
Proof. induction n as [|n IH]; cbn; [reflexivity|exact IH]. Qed.

(** [io_count] counts the operations in flight. *)
Lemma step_io_count (ev : Event) (c c' : Config) :
  io_count (sf c) = in_flight (tasks c) -> step ev c = Some c' ->
  io_count (sf c') = in_flight (tasks c').
Proof.
  intros Hinv. destruct ev as [path|t|t|t opened|t]; cbn [step].
  - intros [= <-]. exact Hinv.
  - destruct (tasks c !! t) as [[| | | |file]|] eqn:Ht; try discriminate.
    destruct (state (sf c) =? 0); [|destruct (state (sf c) =? 2);
      [|cbn; destruct (0 <? io_count (sf c))]];
      intros [= <-]; cbn; rewrite (in_flight_insert _ _ _ _ Ht); cbn; lia.
  - destruct (tasks c !! t) as [[| | | |file]|] eqn:Ht; try discriminate.
    + destruct (negb (state (sf c) =? 0)); intros [= <-]; [exact Hinv|].
      cbn. rewrite (in_flight_insert _ _ _ _ Ht). cbn. lia.
    + destruct (0 <? io_count (sf c)); intros [= <-]; [exact Hinv|].
      cbn. rewrite (in_flight_insert _ _ _ _ Ht). cbn. lia.
  - destruct (tasks c !! t) as [[| | | |file]|] eqn:Ht; try discriminate.
    destruct opened as [file|]; cbn; intros [= <-]; cbn;
      rewrite (in_flight_insert _ _ _ _ Ht); cbn; lia.
  - destruct (tasks c !! t) as [[| | | |file]|] eqn:Ht; try discriminate.
    intros [= <-]. cbn. rewrite (in_flight_insert _ _ _ _ Ht). cbn. lia.
Qed.

Lemma run_io_count (evs : list Event) :
  forall c c', io_count (sf c) = in_flight (tasks c) -> run evs c = Some c' ->
               io_count (sf c') = in_flight (tasks c').
Proof.
  induction evs as [|ev evs IH]; intros c c' Hinv; cbn [run].
  - intros [= <-]. exact Hinv.
  - destruct (step ev c) as [c1|] eqn:Hs; [|discriminate].
    apply IH. eapply step_io_count; eauto.
Qed.







(** ** One switch at a time *)

Lemma step_one_switcher (ev : Event) (c c' : Config) :
  one_switcher c ->
  (is_set_switch ev = true -> forall t s, tasks c !! t = Some s -> switching s = false) ->
  step ev c = Some c' -> one_switcher c'.
Proof.
  intros [Huniq Hst] Hsp. destruct ev as [path|t|t|t opened|t]; cbn [step].
  - intros [= <-]. cbn. specialize (Hsp eq_refl). split.
    + exact Huniq.
    + intros t s Hl Hsw. rewrite (Hsp _ _ Hl) in Hsw. discriminate.
  - destruct (tasks c !! t) as [[| | | |file]|] eqn:Ht; try discriminate.
    destruct (Z.eqb_spec (state (sf c)) 0) as [E0|E0].
    + intros [= <-]. cbn. split.
      * intros t1 t2 s1 s2 H1 H2 S1 S2.
        apply list_lookup_insert_Some in H1 as [(_ & <- & _)|(_ & H1)]; [discriminate|].
        apply list_lookup_insert_Some in H2 as [(_ & <- & _)|(_ & H2)]; [discriminate|].
        eauto.
      * intros t1 s1 H1 S1.
        apply list_lookup_insert_Some in H1 as [(_ & <- & _)|(_ & H1)]; [discriminate|].
        eauto.
    + destruct (Z.eqb_spec (state (sf c)) 2) as [E2|E2].
      * intros [= <-]. cbn. split.
        -- intros t1 t2 s1 s2 H1 H2 S1 S2.
           apply list_lookup_insert_Some in H1 as [(_ & <- & _)|(_ & H1)]; [discriminate|].
           apply list_lookup_insert_Some in H2 as [(_ & <- & _)|(_ & H2)]; [discriminate|].
           eauto.
        -- intros t1 s1 H1 S1.
           apply list_lookup_insert_Some in H1 as [(_ & <- & _)|(_ & H1)]; [discriminate|].
           eauto.
      * assert (Hnone : forall t1 s1, tasks c !! t1 = Some s1 -> switching s1 = false).
        { intros t1 s1 H1. destruct (switching s1) eqn:S1; [|reflexivity].
          exfalso. apply E2. eauto. }
        cbn [set_state io_count].
        destruct (0 <? io_count (sf c)); intros [= <-]; cbn; (split;
          [ intros t1 t2 s1 s2 H1 H2 S1 S2;
            apply list_lookup_insert_Some in H1 as [(-> & _ & _)|(_ & H1)];
            [|rewrite (Hnone _ _ H1) in S1; discriminate];
            apply list_lookup_insert_Some in H2 as [(-> & _ & _)|(_ & H2)];
            [reflexivity|rewrite (Hnone _ _ H2) in S2; discriminate]
          | reflexivity ]).
  - destruct (tasks c !! t) as [[| | | |file]|] eqn:Ht; try discriminate.
    + destruct (negb (state (sf c) =? 0)); intros [= <-]; [split; assumption|].
      cbn. split.
      * intros t1 t2 s1 s2 H1 H2 S1 S2.
        apply list_lookup_insert_Some in H1 as [(_ & <- & _)|(_ & H1)]; [discriminate|].
        apply list_lookup_insert_Some in H2 as [(_ & <- & _)|(_ & H2)]; [discriminate|].
        eauto.
      * intros t1 s1 H1 S1.
        apply list_lookup_insert_Some in H1 as [(_ & <- & _)|(_ & H1)]; [discriminate|].
        eauto.
    + destruct (0 <? io_count (sf c)); intros [= <-]; [split; assumption|].
      cbn. split.
      * intros t1 t2 s1 s2 H1 H2 S1 S2.
        apply list_lookup_insert_Some in H1 as [(-> & _ & _)|(Hn1 & H1)];
          apply list_lookup_insert_Some in H2 as [(-> & _ & _)|(Hn2 & H2)]; eauto.
      * intros t1 s1 H1 S1. eapply (Hst t); eauto.
  - destruct (tasks c !! t) as [[| | | |file]|] eqn:Ht; try discriminate.
    assert (Hnone : forall t1 s1, t1 <> t -> tasks c !! t1 = Some s1 -> switching s1 = false).
    { intros t1 s1 Hne H1. destruct (switching s1) eqn:S1; [|reflexivity].
      exfalso. apply Hne. eapply Huniq; eauto. }
    destruct (do_switch opened (sf c)) as [ret f].
    intros [= <-]. cbn. split.
    + intros t1 t2 s1 s2 H1 H2 S1 S2.
      apply list_lookup_insert_Some in H1 as [(_ & <- & _)|(Hn1 & H1)]; [discriminate|].
      rewrite (Hnone _ _ (not_eq_sym Hn1) H1) in S1. discriminate.
    + intros t1 s1 H1 S1.
      apply list_lookup_insert_Some in H1 as [(_ & <- & _)|(Hn1 & H1)]; [discriminate|].
      rewrite (Hnone _ _ (not_eq_sym Hn1) H1) in S1. discriminate.
  - destruct (tasks c !! t) as [[| | | |file]|] eqn:Ht; try discriminate.
    intros [= <-]. cbn. split.
    + intros t1 t2 s1 s2 H1 H2 S1 S2.
      apply list_lookup_insert_Some in H1 as [(_ & <- & _)|(_ & H1)]; [discriminate|].
      apply list_lookup_insert_Some in H2 as [(_ & <- & _)|(_ & H2)]; [discriminate|].
      eauto.
    + intros t1 s1 H1 S1.
      apply list_lookup_insert_Some in H1 as [(_ & <- & _)|(_ & H1)]; [discriminate|].
      eauto.
Qed.


Lemma init_one_switcher (source : nat) (loc : bool) (filepath : string) (n : nat) :
  one_switcher (init source loc filepath n).
Proof.
  assert (H : forall t s, replicate n Idle !! t = Some s -> switching s = false).
  { intros t s Hl. apply lookup_replicate in Hl as [-> _]. reflexivity. }
  split; cbn.
  - intros t t' s s' Hl _ Hsw. rewrite (H _ _ Hl) in Hsw. discriminate.
  - intros t s Hl Hsw. rewrite (H _ _ Hl) in Hsw. discriminate.
Qed.





End SwitchProps.

(** * Properties of the index algebra *)

Module LSMTProps.
Import LSMT LSMTClaims.

Ltac zbool :=
  repeat match goal with
         | |- context [?a <=? ?b] => destruct (Z.leb_spec a b)
         | |- context [?a <? ?b] => destruct (Z.ltb_spec a b)
         | H : context [?a <=? ?b] |- _ => destruct (Z.leb_spec a b)
         | H : context [?a <? ?b] |- _ => destruct (Z.ltb_spec a b)
         end.

(** ** The arrays the tests expect *)

Example Index_lookup_test :
  lookup lookup_mapping {| s_offset := 5; s_length := 10 |} 10 = [SM 5 5 5; SM 10 5 50] /\
  lookup lookup_mapping {| s_offset := 16; s_length := 10 |} 10 = [SM 16 4 56] /\
  lookup lookup_mapping {| s_offset := 26; s_length := 10 |} 10 = [] /\
  lookup lookup_mapping {| s_offset := 6; s_length := 100 |} 10
  = [SM 6 4 6; SM 10 10 50; SM 100 6 20].
Proof. repeat split; reflexivity. Qed.

Example Index0_insert_test :
  Index0 mapping0_insert = stdrst_insert /\ block_count (Index0 mapping0_insert) = 225.
Proof. split; reflexivity. Qed.

Example Index_merge_test :
  layered_lookup [mapping0; mapping1] whole 20 = stdrst_merge2 /\
  layered_lookup [mapping0; mapping1; mapping2] whole 20 = stdrst_merge3 /\
  layered_lookup [mapping0; mapping1; mapping2; mapping3] whole 20 = stdrst_merge4.
Proof. repeat split; vm_compute; reflexivity. Qed.

(** ** Clipping *)

Lemma clip_covers (m : SegmentMapping) (lo hi p : Z) :
  covers (clip m lo hi) p = covers m p && (lo <=? p) && (p <? hi).
Proof. unfold covers, clip, m_end. cbn. zbool; try reflexivity; lia. Qed.

Lemma clip_at_block (m : SegmentMapping) (lo hi p : Z) :
  covers m p = true -> lo <= p -> at_block (clip m lo hi) p = at_block m p.
Proof.
  unfold covers, at_block, clip, m_end. cbn. intros Hc Hlo.
  apply andb_true_iff in Hc as [H1 H2]. apply Z.leb_le in H1.
  destruct (zeroed m); [reflexivity|].
  f_equal. f_equal. lia.
Qed.

Lemma clip_id (m : SegmentMapping) (lo hi : Z) :
  lo <= offset m -> m_end m <= hi -> clip m lo hi = m.
Proof.
  intros Hlo Hhi. destruct m as [o l mo z t]. unfold clip, m_end in *. cbn in *.
  rewrite Z.max_l by lia. rewrite Z.min_l by lia.
  f_equal; [lia|]. destruct z; [reflexivity|lia].
Qed.

(** ** What a list of mappings says about one block *)

Lemma point_of_app (a b : list SegmentMapping) (p : Z) :
  point_of (a ++ b) p = match point_of a p with
                        | Some v => Some v
                        | None => point_of b p
                        end.
Proof.
  induction a as [|m a IH]; [reflexivity|]. cbn. destruct (covers m p); [reflexivity|exact IH].
Qed.

Lemma chain_le (lo hi : Z) (idx : list SegmentMapping) : chain lo hi idx -> lo <= hi.
Proof.
  revert lo. induction idx as [|m idx IH]; intros lo; cbn; [auto|].
  intros (H1 & H2 & H3). apply IH in H3. unfold m_end in H3. lia.
Qed.

Lemma chain_weaken (lo lo' hi hi' : Z) (idx : list SegmentMapping) :
  lo' <= lo -> hi <= hi' -> chain lo hi idx -> chain lo' hi' idx.
Proof.
  revert lo lo'. induction idx as [|m idx IH]; intros lo lo' Hlo Hhi; cbn; [lia|].
  intros (H1 & H2 & H3). repeat split; try lia. eapply IH; [reflexivity|exact Hhi|exact H3].
Qed.

Lemma chain_app (lo mid hi : Z) (a b : list SegmentMapping) :
  chain lo mid a -> chain mid hi b -> chain lo hi (a ++ b).
Proof.
  revert lo. induction a as [|m a IH]; intros lo; cbn.
  - intros Hle Hb. eapply chain_weaken; [exact Hle|reflexivity|exact Hb].
  - intros (H1 & H2 & H3) Hb. repeat split; auto.
Qed.

Lemma chain_point_out (lo hi : Z) (idx : list SegmentMapping) (p : Z) :
  chain lo hi idx -> p < lo \/ hi <= p -> point_of idx p = None.
Proof.
  revert lo. induction idx as [|m idx IH]; intros lo; cbn; [reflexivity|].
  intros (H1 & H2 & H3) Hp. pose proof (chain_le _ _ _ H3) as Hle.
  unfold covers. unfold m_end in *. destruct Hp as [Hp|Hp].
  - destruct (Z.leb_spec (offset m) p); [lia|]. cbn. apply (IH _ H3). lia.
  - destruct (Z.ltb_spec p (offset m + length m)); [lia|]. rewrite andb_false_r.
    apply (IH _ H3). lia.
Qed.

Lemma chain_sorted_nonoverlap (lo hi : Z) (idx : list SegmentMapping) :
  chain lo hi idx -> sorted_nonoverlap idx.
Proof.
  revert lo. induction idx as [|m idx IH]; intros lo Hc i a b Ha Hb.
  - discriminate Ha.
  - cbn in Hc. destruct Hc as (H1 & H2 & H3). destruct i as [|i].
    + cbn in Ha, Hb. injection Ha as <-.
      destruct idx as [|m' idx]; [discriminate|]. cbn in Hb. injection Hb as <-.
      cbn in H3. lia.
    + cbn in Ha, Hb. eapply IH; eauto.
Qed.

Lemma point_of_with_tag (t : Z) (idx : list SegmentMapping) (p : Z) :
  point_of (map (with_tag t) idx) p
  = match point_of idx p with
    | Some (mo, z, _) => Some (mo, z, t)
    | None => None
    end.
Proof.
  induction idx as [|m idx IH]; [reflexivity|]. cbn.
  change (covers (with_tag t m) p) with (covers m p).
  destruct (covers m p); [reflexivity|exact IH].
Qed.

Lemma chain_with_tag (t : Z) (lo hi : Z) (idx : list SegmentMapping) :
  chain lo hi idx -> chain lo hi (map (with_tag t) idx).
Proof.
  revert lo. induction idx as [|m idx IH]; intros lo; cbn; [auto|].
  intros (H1 & H2 & H3). split; [exact H1|]. split; [exact H2|]. apply IH. exact H3.
Qed.

(** ** Lookup in one index *)

Lemma walk_chain (lo hi b : Z) (idx : list SegmentMapping) :
  lo < hi ->
  forall a c, chain a b idx -> c <= hi -> c <= Z.max a lo ->
              (forall m, head idx = Some m -> lo < m_end m) ->
              chain c hi (walk idx lo hi).
Proof.
  intros Hlh. induction idx as [|m idx IH]; intros a c Hc Hch Hca Hhd; cbn; [exact Hch|].
  cbn in Hc. destruct Hc as (H1 & H2 & H3).
  specialize (Hhd m eq_refl). unfold m_end in *.
  destruct (Z.leb_spec hi (offset m)); cbn; [exact Hch|].
  unfold m_end. cbn.
  split; [lia|]. split; [lia|].
  apply (IH (offset m + length m)); try (unfold m_end; lia); try exact H3.
  intros m' Hm'. destruct idx as [|m0 idx]; [discriminate|].
  cbn in Hm'. injection Hm' as <-. cbn in H3. lia.
Qed.

Lemma walk_point (lo hi b p : Z) (idx : list SegmentMapping) :
  lo <= p < hi ->
  forall a, chain a b idx -> point_of (walk idx lo hi) p = point_of idx p.
Proof.
  intros Hp. induction idx as [|m idx IH]; intros a Hc; cbn; [reflexivity|].
  cbn in Hc. destruct Hc as (H1 & H2 & H3).
  destruct (Z.leb_spec hi (offset m)).
  - cbn. symmetry.
    assert (Hm : covers m p = false).
    { unfold covers. destruct (Z.leb_spec (offset m) p); [lia|reflexivity]. }
    rewrite Hm. eapply chain_point_out; [exact H3|]. unfold m_end. lia.
  - cbn. rewrite clip_covers.
    assert (Hin : (lo <=? p) && (p <? hi) = true).
    { apply andb_true_iff. split; [apply Z.leb_le|apply Z.ltb_lt]; lia. }
    rewrite <- andb_assoc, Hin, andb_true_r.
    destruct (covers m p) eqn:Hm.
    + rewrite clip_at_block; [reflexivity|exact Hm|lia].
    + eapply IH. exact H3.
Qed.

Lemma covering_chain (lo hi a b : Z) (idx : list SegmentMapping) :
  lo < hi -> chain a b idx -> chain lo hi (covering idx lo hi).
Proof.
  intros Hlh. revert a. induction idx as [|m idx IH]; intros a Hc; cbn [covering].
  - cbn. lia.
  - destruct (Z.leb_spec (m_end m) lo).
    + cbn in Hc. destruct Hc as (_ & _ & H3). eapply IH. exact H3.
    + eapply (walk_chain lo hi b (m :: idx) Hlh a lo); eauto; try lia.
      intros m' [= <-]. lia.
Qed.

Lemma covering_point (lo hi a b p : Z) (idx : list SegmentMapping) :
  lo <= p < hi -> chain a b idx -> point_of (covering idx lo hi) p = point_of idx p.
Proof.
  intros Hp. revert a. induction idx as [|m idx IH]; intros a Hc; cbn [covering]; [reflexivity|].
  destruct (Z.leb_spec (m_end m) lo).
  - cbn in Hc. destruct Hc as (_ & _ & H3).
    cbn [point_of].
    assert (Hm : covers m p = false).
    { unfold covers. destruct (Z.ltb_spec p (m_end m)); [lia|apply andb_false_r]. }
    rewrite Hm. eapply IH. exact H3.
  - eapply walk_point; eauto.
Qed.

(** ** Filling the gaps of a layer from the layers below *)

Section Fill.

Variable lower : Z -> Z -> list SegmentMapping.
Hypothesis lower_chain : forall lo hi, lo < hi -> chain lo hi (lower lo hi).

Lemma fill_chain (hi : Z) (ms : list SegmentMapping) :
  forall lo, chain lo hi ms -> chain lo hi (fill lower ms lo hi).
Proof.
  induction ms as [|m ms IH]; intros lo Hc; cbn [fill].
  - cbn in Hc. destruct (Z.ltb_spec lo hi); [apply lower_chain; assumption|exact Hc].
  - cbn in Hc. destruct Hc as (H1 & H2 & H3).
    apply (chain_app lo (offset m)).
    + destruct (Z.ltb_spec lo (offset m)); [apply lower_chain; assumption|cbn; lia].
    + cbn. split; [lia|]. split; [exact H2|]. apply IH. exact H3.
Qed.

Variable p : Z.
Variable below : option (Z * bool * Z).
Hypothesis lower_point : forall lo hi, lo <= p < hi -> point_of (lower lo hi) p = below.

Lemma fill_point (hi : Z) (ms : list SegmentMapping) :
  forall lo, chain lo hi ms -> lo <= p < hi ->
    point_of (fill lower ms lo hi) p
    = match point_of ms p with
      | Some v => Some v
      | None => below
      end.
Proof.
  induction ms as [|m ms IH]; intros lo Hc Hp; cbn [fill].
  - destruct (Z.ltb_spec lo hi); [|lia]. cbn. apply lower_point. exact Hp.
  - cbn in Hc. destruct Hc as (H1 & H2 & H3).
    pose proof (fill_chain hi ms _ H3) as Hrest.
    rewrite point_of_app. cbn [point_of].
    destruct (Z.lt_ge_cases p (offset m)) as [Hlt|Hge].
    + assert (Hm : covers m p = false).
      { unfold covers. destruct (Z.leb_spec (offset m) p); [lia|reflexivity]. }
      rewrite Hm.
      assert (Hr : point_of ms p = None).
      { eapply chain_point_out; [exact H3|]. unfold m_end. lia. }
      assert (Hf : point_of (fill lower ms (m_end m) hi) p = None).
      { eapply chain_point_out; [exact Hrest|]. unfold m_end. lia. }
      rewrite Hr, Hf.
      destruct (Z.ltb_spec lo (offset m)); [|lia].
      rewrite lower_point by lia. destruct below; reflexivity.
    + assert (Hg : point_of (if lo <? offset m then lower lo (offset m) else []) p = None).
      { destruct (Z.ltb_spec lo (offset m)); [|reflexivity].
        eapply chain_point_out; [apply lower_chain; assumption|]. lia. }
      rewrite Hg. destruct (covers m p) eqn:Hm; [reflexivity|].
      apply IH; [exact H3|].
      unfold covers in Hm. apply andb_false_iff in Hm as [Hm|Hm].
      * apply Z.leb_gt in Hm. lia.
      * apply Z.ltb_ge in Hm. lia.
Qed.

End Fill.

(** ** The merge of several layers *)

Lemma merge_indexes_chain (indexes : list (list SegmentMapping)) :
  Forall well_formed indexes ->
  forall level lo hi, lo < hi -> chain lo hi (merge_indexes level indexes lo hi).
Proof.
  induction indexes as [|idx rest IH]; intros Hall level lo hi Hlh; cbn [merge_indexes].
  - cbn. lia.
  - apply Forall_cons in Hall as [Hidx Hrest].
    apply fill_chain; [intros; apply IH; assumption|].
    apply chain_with_tag. eapply covering_chain; [exact Hlh|exact Hidx].
Qed.

Lemma merge_indexes_point (indexes : list (list SegmentMapping)) (p : Z) :
  Forall well_formed indexes ->
  forall level lo hi, lo <= p < hi ->
    point_of (merge_indexes level indexes lo hi) p = tagged (first_cover level indexes p).
Proof.
  induction indexes as [|idx rest IH]; intros Hall level lo hi Hp; cbn [merge_indexes first_cover].
  - reflexivity.
  - apply Forall_cons in Hall as [Hidx Hrest].
    rewrite (fill_point _ (fun lo hi => merge_indexes_chain rest Hrest (level + 1) lo hi)
               p (tagged (first_cover (level + 1) rest p))).
    + rewrite point_of_with_tag.
      rewrite (covering_point lo hi 0 UINT64_MAX p idx Hp Hidx).
      destruct (point_of idx p) as [[[mo z] t]|]; reflexivity.
    + intros lo' hi' Hp'. apply IH; assumption.
    + apply chain_with_tag. eapply covering_chain; [lia|exact Hidx].
    + exact Hp.
Qed.

Lemma first_cover_shift (indexes : list (list SegmentMapping)) (p : Z) :
  forall i, first_cover (i + 1) indexes p
            = match first_cover i indexes p with
              | Some (j, v) => Some (j + 1, v)
              | None => None
              end.
Proof.
  induction indexes as [|idx rest IH]; intros i; cbn; [reflexivity|].
  destruct (point_of idx p); [reflexivity|apply IH].
Qed.

Lemma first_cover_from (indexes : list (list SegmentMapping)) (p : Z) :
  forall i j v, first_cover i indexes p = Some (j, v) -> i <= j.
Proof.
  induction indexes as [|idx rest IH]; intros i j v; cbn; [discriminate|].
  destruct (point_of idx p).
  - intros [= <- _]. lia.
  - intros H. apply IH in H. lia.
Qed.

Lemma well_formed_point_out (idx : list SegmentMapping) (p : Z) :
  well_formed idx -> p < 0 \/ UINT64_MAX <= p -> point_of idx p = None.
Proof. intros Hw Hp. eapply chain_point_out; eauto. Qed.

Lemma first_cover_out (indexes : list (list SegmentMapping)) (p : Z) :
  Forall well_formed indexes -> p < 0 \/ UINT64_MAX <= p ->
  forall i, first_cover i indexes p = None.
Proof.
  induction indexes as [|idx rest IH]; intros Hall Hp i; cbn; [reflexivity|].
  apply Forall_cons in Hall as [Hidx Hrest].
  rewrite (well_formed_point_out idx p Hidx Hp). apply IH; assumption.
Qed.

(** ** The writable index *)

Lemma insert_after (m : SegmentMapping) (lo : Z) (idx : list SegmentMapping) :
  chain lo (offset m) idx -> 0 < length m -> insert m idx = idx ++ [m].
Proof.
  intros Hc Hm. unfold insert.
  assert (Hl : forall lo, chain lo (offset m) idx -> flat_map (left_part m) idx = idx).
  { clear Hc lo. induction idx as [|e idx IH]; intros lo Hc; [reflexivity|].
    cbn in Hc. destruct Hc as (H1 & H2 & H3). pose proof (chain_le _ _ _ H3) as Hle.
    cbn [flat_map]. unfold left_part at 1. unfold m_end in *.
    destruct (Z.ltb_spec (offset e) (offset m)); [|lia].
    rewrite clip_id by (unfold m_end; lia). cbn. f_equal. eapply IH. exact H3. }
  assert (Hr : forall lo, chain lo (offset m) idx -> flat_map (right_part m) idx = []).
  { clear Hc Hl lo. induction idx as [|e idx IH]; intros lo Hc; [reflexivity|].
    cbn in Hc. destruct Hc as (H1 & H2 & H3). pose proof (chain_le _ _ _ H3) as Hle.
    cbn [flat_map]. unfold right_part at 1. unfold m_end in *.
    destruct (Z.ltb_spec (offset m + length m) (offset e + length e)); [lia|].
    cbn. eapply IH. exact H3. }
  rewrite (Hl lo Hc), (Hr lo Hc). reflexivity.
Qed.

(** Built from a sorted array, [Index0] holds the array. *)
Lemma Index0_of_chain (lo hi : Z) (idx : list SegmentMapping) :
  chain lo hi idx -> Index0 idx = idx.
Proof.
  intros Hc. unfold Index0.
  assert (H : forall acc a b, chain a b acc -> chain b hi idx ->
                              fold_left (fun i m => insert m i) idx acc = acc ++ idx).
  { clear Hc lo. induction idx as [|m idx IH]; intros acc a b Hacc Hidx; cbn [fold_left].
    - rewrite app_nil_r. reflexivity.
    - cbn in Hidx. destruct Hidx as (H1 & H2 & H3).
      rewrite (insert_after m a acc); [|eapply chain_weaken; [reflexivity|exact H1|exact Hacc]|exact H2].
      rewrite (IH (acc ++ [m]) a (m_end m)); [rewrite <- app_assoc; reflexivity| |exact H3].
      apply (chain_app a (offset m)).
      + eapply chain_weaken; [reflexivity|exact H1|exact Hacc].
      + cbn. unfold m_end. lia. }
  apply (H [] lo lo); [cbn; lia|exact Hc].
Qed.

(** ** The layered view *)

(** C3 (as the tests have it): when the output is not cut short by [cap],
    at every block of the segment the layered view gives what the topmost
    covering layer says, tagged with the number of backing layers when that
    is the top layer and with the layer's position among the backing layers
    otherwise; a block no layer covers is absent. *)
Theorem layered_lookup_priority (top : list SegmentMapping)
    (rest : list (list SegmentMapping)) (s : Segment) (cap : nat) (p : Z) :
  well_formed top -> Forall well_formed rest ->
  s_offset s <= p < s_end s ->
  (List.length (layered_lookup (top :: rest) s cap) < cap)%nat ->
  point_of (layered_lookup (top :: rest) s cap) p
  = expected_point (combo_tag (Z.of_nat (List.length (top :: rest)))) (top :: rest) p.
Proof.
  intros Htop Hrest Hp Hcap.
  assert (Hlh : s_offset s < s_end s) by lia.
  unfold layered_lookup, combo_lookup in *.
  rewrite (Index0_of_chain _ _ _ Htop) in *.
  set (full := fill _ _ _ _) in *.
  assert (Hfull : firstn cap full = full).
  { apply firstn_all2. rewrite length_firstn in Hcap. lia. }
  rewrite Hfull. subst full.
  assert (Hback : chain 0 UINT64_MAX (merge_memory_indexes rest)).
  { apply merge_indexes_chain; [exact Hrest|]. unfold UINT64_MAX. lia. }
  assert (Hbelow : forall lo hi, lo <= p < hi ->
            point_of (covering (merge_memory_indexes rest) lo hi) p
            = tagged (first_cover 0 rest p)).
  { intros lo hi Hp'. rewrite (covering_point lo hi 0 UINT64_MAX p _ Hp' Hback).
    destruct (Z.lt_ge_cases p 0) as [Hneg|Hpos];
      [|destruct (Z.lt_ge_cases p UINT64_MAX) as [Hin|Hout]].
    - rewrite (chain_point_out _ _ _ _ Hback) by lia.
      rewrite first_cover_out by (auto; lia). reflexivity.
    - apply merge_indexes_point; [exact Hrest|lia].
    - rewrite (chain_point_out _ _ _ _ Hback) by lia.
      rewrite first_cover_out by (auto; lia). reflexivity. }
  rewrite (fill_point (covering (merge_memory_indexes rest))
             (fun lo hi Hlt => covering_chain lo hi 0 UINT64_MAX _ Hlt Hback)
             p (tagged (first_cover 0 rest p)) Hbelow).
  - rewrite point_of_with_tag.
    rewrite (covering_point _ _ 0 UINT64_MAX p top Hp Htop).
    unfold expected_point. cbn [first_cover].
    destruct (point_of top p) as [[[mo z] t]|].
    + unfold combo_tag. cbn [Z.eqb]. f_equal. f_equal. cbn [List.length]. lia.
    + change 1 with (0 + 1). rewrite first_cover_shift. cbn [Z.add].
      destruct (first_cover 0 rest p) as [[j [[mo z] t]]|] eqn:Hf; [|reflexivity].
      cbn. apply first_cover_from in Hf. unfold combo_tag.
      destruct (Z.eqb_spec (j + 1) 0); [lia|]. f_equal. f_equal. lia.
  - apply chain_with_tag. eapply covering_chain; [exact Hlh|exact Htop].
  - exact Hp.
Qed.

Ltac chain_solve := cbn; unfold m_end, UINT64_MAX; cbn; repeat split; lia.

Lemma test_layers_well_formed :
  well_formed mapping0 /\ well_formed mapping1 /\ well_formed mapping2 /\ well_formed mapping3.
Proof. unfold well_formed. repeat split; chain_solve. Qed.

Lemma layered_lookup_priority_witness :
  well_formed mapping0 /\ Forall well_formed [mapping1] /\
  point_of (layered_lookup [mapping0; mapping1] whole 20) 5 = Some (0, false, 1) /\
  point_of (layered_lookup [mapping0; mapping1] whole 20) 20 = Some (27, false, 0).
Proof.
  assert (H0 : well_formed mapping0) by (unfold well_formed; chain_solve).
  assert (H1 : Forall well_formed [mapping1])
    by (constructor; [unfold well_formed; chain_solve|constructor]).
  split; [exact H0|]. split; [exact H1|]. split.
  - rewrite (layered_lookup_priority mapping0 [mapping1] whole 20 5 H0 H1).
    + reflexivity.
    + unfold s_end, whole. cbn. lia.
    + vm_compute. lia.
  - rewrite (layered_lookup_priority mapping0 [mapping1] whole 20 20 H0 H1).
    + reflexivity.
    + unfold s_end, whole. cbn. lia.
    + vm_compute. lia.
Defined.

(** C3, as stated, fails on the first array of [TEST(Index, merge)]: block
    5 comes from the top layer and carries tag 1, not 0. *)
Lemma top_layer_tag_is_not_L0 : ~ tag_is_layer_index.
Proof.
  intros H.
  destruct test_layers_well_formed as (H0 & H1 & _).
  specialize (H mapping0 [mapping1] whole 20%nat 5 H0
                ltac:(constructor; [exact H1|constructor])).
  assert (E : point_of (layered_lookup [mapping0; mapping1] whole 20) 5
              = expected_point (fun i => i) [mapping0; mapping1] 5).
  { apply H; [unfold s_end, whole; cbn; lia|vm_compute; lia]. }
  vm_compute in E. discriminate E.
Qed.

(** ** Index0::insert *)

Section Insert.

Variable m : SegmentMapping.
Hypothesis m_valid : 0 < length m.

Lemma left_parts_chain (hi : Z) (idx : list SegmentMapping) :
  forall lo a, chain lo hi idx -> a <= lo -> a <= offset m ->
               chain a (offset m) (flat_map (left_part m) idx).
Proof.
  induction idx as [|e idx IH]; intros lo a Hc Ha Hm; cbn [flat_map]; [cbn; lia|].
  cbn in Hc. destruct Hc as (H1 & H2 & H3). unfold left_part at 1.
  destruct (Z.ltb_spec (offset e) (offset m)).
  - cbn [app chain]. unfold m_end, clip. cbn.
    split; [lia|]. split; [unfold m_end; lia|].
    eapply (IH (m_end e)); [exact H3| |]; unfold m_end; lia.
  - cbn [app]. eapply (IH (m_end e)); [exact H3| |]; unfold m_end; lia.
Qed.

Lemma right_parts_chain (hi top : Z) (idx : list SegmentMapping) :
  forall lo b, chain lo hi idx -> b <= Z.max lo (m_end m) -> hi <= top -> b <= top ->
               chain b top (flat_map (right_part m) idx).
Proof.
  induction idx as [|e idx IH]; intros lo b Hc Hb Hhi Hbt; cbn [flat_map]; [cbn; lia|].
  cbn in Hc. destruct Hc as (H1 & H2 & H3). pose proof (chain_le _ _ _ H3) as Hle.
  unfold right_part at 1.
  destruct (Z.ltb_spec (m_end m) (m_end e)).
  - cbn [app chain]. unfold clip. cbn. unfold m_end in *. cbn.
    split; [lia|]. split; [lia|].
    eapply (IH (offset e + length e)); [exact H3| | |]; lia.
  - cbn [app]. eapply (IH (m_end e)); [exact H3| | |]; unfold m_end in *; lia.
Qed.

Lemma insert_chain (lo hi : Z) (idx : list SegmentMapping) :
  chain lo hi idx ->
  chain (Z.min lo (offset m)) (Z.max hi (m_end m)) (insert m idx).
Proof.
  intros Hc. unfold insert. apply (chain_app _ (offset m)).
  - eapply left_parts_chain; [exact Hc| |]; lia.
  - cbn. split; [lia|]. split; [exact m_valid|].
    eapply right_parts_chain; [exact Hc| | |]; unfold m_end; lia.
Qed.

Lemma left_parts_point (p : Z) (idx : list SegmentMapping) :
  point_of (flat_map (left_part m) idx) p
  = if p <? offset m then point_of idx p else None.
Proof.
  induction idx as [|e idx IH]; cbn [flat_map point_of]; [destruct (p <? offset m); reflexivity|].
  rewrite point_of_app, IH. unfold left_part.
  destruct (Z.ltb_spec (offset e) (offset m)); cbn [point_of].
  - rewrite clip_covers.
    destruct (covers e p) eqn:He; cbn [andb].
    + unfold covers in He. apply andb_true_iff in He as [He1 He2]. rewrite He1. cbn [andb].
      apply Z.leb_le in He1.
      destruct (Z.ltb_spec p (offset m)); [|reflexivity].
      rewrite clip_at_block; [reflexivity| |lia].
      unfold covers. rewrite He2. apply Z.leb_le in He1. rewrite He1. reflexivity.
    + reflexivity.
  - destruct (covers e p) eqn:He; [|reflexivity].
    unfold covers in He. apply andb_true_iff in He as [He1 _]. apply Z.leb_le in He1.
    destruct (Z.ltb_spec p (offset m)); [lia|reflexivity].
Qed.

Lemma right_parts_point (p : Z) (idx : list SegmentMapping) :
  point_of (flat_map (right_part m) idx) p
  = if m_end m <=? p then point_of idx p else None.
Proof.
  induction idx as [|e idx IH]; cbn [flat_map point_of]; [destruct (m_end m <=? p); reflexivity|].
  rewrite point_of_app, IH. unfold right_part.
  destruct (Z.ltb_spec (m_end m) (m_end e)); cbn [point_of].
  - rewrite clip_covers.
    destruct (covers e p) eqn:He; cbn [andb].
    + pose proof He as He'. unfold covers in He'. apply andb_true_iff in He' as [_ He2].
      rewrite He2, andb_true_r.
      destruct (Z.leb_spec (m_end m) p); [|reflexivity].
      rewrite clip_at_block; [reflexivity|exact He|lia].
    + reflexivity.
  - destruct (covers e p) eqn:He; [|reflexivity].
    unfold covers in He. apply andb_true_iff in He as [_ He2]. apply Z.ltb_lt in He2.
    destruct (Z.leb_spec (m_end m) p); [lia|reflexivity].
Qed.

Lemma insert_point (p : Z) (idx : list SegmentMapping) :
  point_of (insert m idx) p
  = if covers m p then Some (at_block m p) else point_of idx p.
Proof.
  unfold insert. rewrite point_of_app, left_parts_point. cbn [point_of].
  rewrite right_parts_point. unfold covers, m_end.
  destruct (Z.ltb_spec p (offset m)).
  - destruct (Z.leb_spec (offset m) p); [lia|]. cbn [andb].
    destruct (point_of idx p) eqn:Hp; [reflexivity|].
    destruct (Z.leb_spec (offset m + length m) p); [lia|reflexivity].
  - destruct (Z.leb_spec (offset m) p); [|lia]. cbn [andb].
    destruct (Z.ltb_spec p (offset m + length m)).
    + reflexivity.
    + destruct (Z.leb_spec (offset m + length m) p); [reflexivity|lia].
Qed.

Lemma insert_pieces (idx : list SegmentMapping) (e' : SegmentMapping) :
  In e' (insert m idx) ->
  e' = m \/
  exists e lo hi, In e idx /\ e' = clip e lo hi /\
                  (m_end e' <= offset m \/ m_end m <= offset e').
Proof.
  unfold insert. rewrite in_app_iff. cbn [In].
  intros [Hl|[Hm|Hr]]; [|left; symmetry; exact Hm|].
  - right. apply in_flat_map in Hl as (e & He & Hin). unfold left_part in Hin.
    destruct (Z.ltb_spec (offset e) (offset m)); [|contradiction].
    destruct Hin as [<-|[]]. exists e, (offset e), (offset m).
    split; [exact He|]. split; [reflexivity|]. left. unfold m_end, clip. cbn. lia.
  - right. apply in_flat_map in Hr as (e & He & Hin). unfold right_part in Hin.
    destruct (Z.ltb_spec (m_end m) (m_end e)); [|contradiction].
    destruct Hin as [<-|[]]. exists e, (m_end m), (m_end e).
    split; [exact He|]. split; [reflexivity|]. right. unfold m_end, clip. cbn. lia.
Qed.

End Insert.

Lemma Index0_chain (ms : list SegmentMapping) :
  Forall (fun x => 0 < length x) ms -> exists lo hi, chain lo hi (Index0 ms).
Proof.
  unfold Index0.
  assert (H : forall acc lo hi, chain lo hi acc -> Forall (fun x => 0 < length x) ms ->
                exists lo' hi', chain lo' hi' (fold_left (fun i x => insert x i) ms acc)).
  { induction ms as [|x ms IH]; intros acc lo hi Hacc Hall; cbn [fold_left].
    - eauto.
    - apply Forall_cons in Hall as [Hx Hms].
      eapply IH; [|exact Hms]. apply insert_chain; [exact Hx|exact Hacc]. }
  intros Hall. apply (H [] 0 0); [cbn; lia|exact Hall].
Qed.

(** C4: whatever valid mappings were inserted before, inserting [m] leaves
    the entries sorted and non-overlapping, [m] itself is among them, every
    block of [m] reads as [m] says and every other block as before, and
    every other entry is a piece of an earlier entry cut off at one end of
    [m]. *)
Theorem Index0_insert_invariant (ms : list SegmentMapping) (m : SegmentMapping) :
  Forall (fun x => 0 < length x) ms -> 0 < length m ->
  Index0 (ms ++ [m]) = insert m (Index0 ms) /\
  sorted_nonoverlap (Index0 ms) /\
  sorted_nonoverlap (insert m (Index0 ms)) /\
  In m (insert m (Index0 ms)) /\
  (forall p, point_of (insert m (Index0 ms)) p
             = if covers m p then Some (at_block m p) else point_of (Index0 ms) p) /\
  (forall e', In e' (insert m (Index0 ms)) ->
     e' = m \/
     exists e lo hi, In e (Index0 ms) /\ e' = clip e lo hi /\
                     (m_end e' <= offset m \/ m_end m <= offset e')).
Proof.
  intros Hms Hm. destruct (Index0_chain ms Hms) as (lo & hi & Hc).
  split; [|split; [|split; [|split; [|split]]]].
  - unfold Index0. rewrite fold_left_app. reflexivity.
  - eapply chain_sorted_nonoverlap. exact Hc.
  - eapply chain_sorted_nonoverlap. apply insert_chain; [exact Hm|exact Hc].
  - unfold insert. apply in_elt.
  - intros p. apply insert_point; assumption.
  - intros e'. apply insert_pieces.
Qed.

Lemma Index0_insert_invariant_witness :
  Forall (fun x => 0 < length x) [SM 0 20 0; SM 10 15 50; SM 30 100 20] /\
  0 < length (SM 5 10 3) /\
  sorted_nonoverlap (Index0 [SM 0 20 0; SM 10 15 50; SM 30 100 20; SM 5 10 3]) /\
  In (SM 5 10 3) (Index0 [SM 0 20 0; SM 10 15 50; SM 30 100 20; SM 5 10 3]).
Proof.
  assert (H1 : Forall (fun x => 0 < length x) [SM 0 20 0; SM 10 15 50; SM 30 100 20])
    by (repeat constructor).
  assert (H2 : 0 < length (SM 5 10 3)) by reflexivity.
  split; [exact H1|]. split; [exact H2|].
  destruct (Index0_insert_invariant [SM 0 20 0; SM 10 15 50; SM 30 100 20] (SM 5 10 3) H1 H2)
    as (Heq & _ & Hs & Hin & _).
  change (Index0 [SM 0 20 0; SM 10 15 50; SM 30 100 20; SM 5 10 3])
    with (Index0 ([SM 0 20 0; SM 10 15 50; SM 30 100 20] ++ [SM 5 10 3])).
  rewrite Heq. split; [exact Hs|exact Hin].
Defined.

End LSMTProps.

(** * The pool at start-up and under eviction: properties *)

Module CacheLifecycleProps.
Import Cache CacheSamples CacheClaims CacheLifecycle IntProps CacheProps.

Ltac pool_cbn :=
  cbn [lru_mark_key_cleared lru_access lru_remove lru_push_front
       set_lru set_totalUsed set_fileIndex set_mediaFs set_isFull set_running
       mediaFs_ capacityInGB_ periodInUs_ diskAvailInBytes_ refillUnit_ totalUsed_
       riskMark_ waterMark_ running_ exit_ isFull_ fileIndex_ lru_ lru_cleared].


Lemma s64_range (x : Z) : - 2 ^ 63 <= s64 x < 2 ^ 63.
Proof. unfold s64. pose proof (Z.mod_pos_bound (x + 2 ^ 63) (2 ^ 64)). lia. Qed.



Lemma lru_nonempty_back (p : Pool) :
  lru_ p <> [] -> exists l k, lru_ p = l ++ [k] /\ lru_back p = Some k.
Proof.
  intros Hne. unfold lru_back.
  destruct (lru_ p) as [|a l] using rev_ind; [contradiction|].
  exists l, a. split; [reflexivity|]. apply last_snoc.
Qed.






Lemma evict_step_open_empty (p : Pool) (k : string) (e : LruEntry) :
  lru_back p = Some k -> fileIndex_ p !! k = Some e -> openCount e <> 0 -> size e = 0 ->
  evict_step p = Done (lru_access k p, 0).
Proof.
  intros Hb He Ho Hs. unfold evict_step, entry_of, bind. rewrite Hb, He.
  apply Z.eqb_neq in Ho. rewrite Ho, Hs. reflexivity.
Qed.

Lemma eviction_loop_spins (fuel : nat) :
  forall (actualEvict : Z) (p : Pool),
    0 < actualEvict < 2 ^ 63 -> exit_ p = false -> open_and_empty p ->
    eviction_loop fuel actualEvict p = OutOfFuel.
Proof.
  induction fuel as [|fuel IH]; intros a p Ha Hex [Hne Hall]; cbn [eviction_loop];
    rewrite Hex, orb_false_r;
    (destruct (lru_ p) as [|x l] eqn:El; [contradiction|]);
    (destruct (Z.ltb_spec 0 a); [|lia]); cbn [negb orb]; [reflexivity|].
  destruct (lru_nonempty_back p) as (l' & k & Hl & Hb); [rewrite El; discriminate|].
  assert (Hk : k ∈ lru_ p) by (rewrite Hl; apply elem_of_app; right; apply elem_of_cons; auto).
  destruct (Hall k) as (e & He & Ho & Hs); [rewrite <- El; exact Hk|].
  unfold bind. rewrite (evict_step_open_empty p k e Hb He Ho Hs).
  rewrite Z.sub_0_r, s64_small by lia.
  apply IH; [exact Ha|exact Hex|]. split; [discriminate|].
  intros k' Hk'. cbn in Hk'. apply (lru_access_elem k k' (lru_ p) Hk) in Hk'.
  cbn. apply Hall. rewrite <- El. exact Hk'.
Qed.

(** X2: while the LRU holds nothing but entries that are open and empty,
    an eviction that has something to release makes no progress: every
    iteration moves the tail slot to the front and nothing else, so that on
    its own the loop never ends, whatever the number of iterations. *)
Theorem eviction_spins_on_open_empty (fuel : nat) (p : Pool) (evictByDisk : Z) :
  open_and_empty p -> exit_ p = false ->
  evictByDisk_of p = Some evictByDisk -> 0 < actualEvict_of p evictByDisk ->
  eviction fuel p = OutOfFuel /\
  timerHandler fuel p = (if running_ p then Done p else OutOfFuel).
Proof.
  intros Hoe Hex Hd Ha.
  assert (E : eviction fuel p = OutOfFuel).
  { unfold eviction. rewrite Hd. destruct (Z.leb_spec (actualEvict_of p evictByDisk) 0); [lia|].
    rewrite (eviction_loop_spins fuel _ (set_isFull true p)); [reflexivity| |exact Hex|exact Hoe].
    split; [exact Ha|]. unfold actualEvict_of. apply s64_range. }
  split; [exact E|]. rewrite timerHandler_unfold.
  destruct (running_ p) eqn:Hr; [reflexivity|].
  rewrite eviction_set_running, E. reflexivity.
Qed.



Lemma eviction_spins_on_open_empty_witness :
  open_and_empty pool_c_open /\ exit_ pool_c_open = false /\
  evictByDisk_of pool_c_open = Some 4294963200 /\
  eviction 1000 pool_c_open = OutOfFuel /\ timerHandler 1000 pool_c_open = OutOfFuel.
Proof.
  assert (Hoe : open_and_empty pool_c_open).
  { split; [discriminate|]. intros k Hk.
    apply elem_of_cons in Hk as [->|Hk]; [|apply elem_of_nil in Hk; contradiction].
    exists {| openCount := 1; size := 0 |}.
    split; [reflexivity|]. split; [discriminate|reflexivity]. }
  assert (Hd : evictByDisk_of pool_c_open = Some 4294963200) by (vm_compute; reflexivity).
  split; [exact Hoe|]. split; [reflexivity|]. split; [exact Hd|].
  apply (eviction_spins_on_open_empty 1000 pool_c_open 4294963200 Hoe eq_refl Hd).
  vm_compute. reflexivity.
Defined.

(** ** Opening and closing *)

Lemma set_mediaFs_same (p : Pool) : set_mediaFs (mediaFs_ p) p = p.
Proof. destruct p. reflexivity. Qed.

Lemma fs_open_spec (fs : MediaFs) (path : string) (creat : bool) :
  ((fs_open fs path creat).1 = false -> (fs_open fs path creat).2 = fs) /\
  ((fs_open fs path creat).1 = true -> is_Some (fs_files (fs_open fs path creat).2 !! path)).
Proof.
  unfold fs_open. destruct (fs_fail fs path); [split; [reflexivity|discriminate]|].
  destruct (fs_files fs !! path) as [z|] eqn:Hz.
  - split; [discriminate|]. intros _. cbn. rewrite Hz. eauto.
  - destruct creat; cbn; [|split; [reflexivity|discriminate]].
    split; [discriminate|]. intros _. rewrite lookup_insert_eq. eauto.
Qed.

(** X6: a [do_open] that returns no store leaves the pool as it was; the
    empty name never yields a store. *)
Theorem do_open_failure_keeps_pool (filename : string) (creat : bool) (p : Pool) :
  ((do_open filename creat p).2 = false -> (do_open filename creat p).1 = p) /\
  do_open "" creat p = (p, false).
Proof.
  split; [|reflexivity].
  unfold do_open. destruct (String.eqb filename ""); [reflexivity|].
  pose proof (fs_open_spec (mediaFs_ p) filename creat) as [Hfail _].
  destruct (fs_open (mediaFs_ p) filename creat) as [ok fs]. cbn [fst snd] in Hfail.
  destruct ok; cbn [negb].
  - destruct (fileIndex_ (set_mediaFs fs p) !! filename); discriminate.
  - intros _. cbn [fst]. rewrite (Hfail eq_refl). apply set_mediaFs_same.
Qed.

(** X5: opening a file and closing it again leaves its entry as it was
    (for a file that was not indexed: an entry with [openCount] 0 and size
    0, which is not removed), at the front of the LRU, with the file on the
    media; no other entry and not [totalUsed_] is changed. *)
Theorem open_close_round_trip (filename : string) (creat : bool) (p : Pool) :
  (do_open filename creat p).2 = true ->
  (forall e, fileIndex_ p !! filename = Some e -> 0 <= openCount e < 2 ^ 32 - 1) ->
  exists q,
    removeOpenFile filename (do_open filename creat p).1 = Done q /\
    fileIndex_ q !! filename
    = Some (default {| openCount := 0; size := 0 |} (fileIndex_ p !! filename)) /\
    (forall k, k <> filename -> fileIndex_ q !! k = fileIndex_ p !! k) /\
    head (lru_ q) = Some filename /\ totalUsed_ q = totalUsed_ p /\
    is_Some (fs_files (mediaFs_ q) !! filename).
Proof.
  unfold do_open. destruct (String.eqb filename ""); [discriminate|].
  pose proof (fs_open_spec (mediaFs_ p) filename creat) as [_ Hok].
  destruct (fs_open (mediaFs_ p) filename creat) as [ok fs]. cbn [fst snd] in Hok.
  destruct ok; cbn [negb]; [|discriminate].
  pool_cbn. intros _ Hrange. specialize (Hok eq_refl).
  unfold removeOpenFile, entry_of, bind.
  destruct (fileIndex_ p !! filename) as [e|] eqn:He; cbn [fst snd]; pool_cbn;
    rewrite lookup_insert_eq; eexists; (split; [reflexivity|]); pool_cbn;
    rewrite insert_insert_eq, lookup_insert_eq.
  - split.
    + cbn. destruct e as [oc sz]. specialize (Hrange _ eq_refl). cbn in Hrange |- *.
      rewrite (u32_small (oc + 1)) by lia. rewrite u32_small by lia.
      do 2 f_equal. lia.
    + split; [intros k Hk; apply lookup_insert_ne; auto|]. repeat split; auto.
  - split; [reflexivity|].
    split; [intros k Hk; apply lookup_insert_ne; auto|]. repeat split; auto.
Qed.

Lemma found_bytes_nonneg (found : list (string * option Z)) :
  Forall (fun f => forall b, f.2 = Some b -> 0 <= b) found -> 0 <= found_bytes found.
Proof.
  induction found as [|[file st] rest IH]; intros Hpos; [cbn; lia|].
  apply Forall_cons in Hpos as [Hb Hpos]. specialize (IH Hpos).
  cbn [found_bytes fold_right snd]. fold (found_bytes rest).
  destruct st as [b|]; [|lia].
  specialize (Hb b eq_refl). unfold kDiskBlockSize. lia.
Qed.

Lemma traverseDir_accounts (found : list (string * option Z)) :
  forall p,
    accounted p -> exactly_accounted p ->
    NoDup found.*1 -> (forall file, file ∈ found.*1 -> fileIndex_ p !! file = None) ->
    Forall (fun f => forall b, f.2 = Some b -> 0 <= b) found ->
    totalUsed_ p + found_bytes found < 2 ^ 63 ->
    totalUsed_ (traverseDir found p).1 = totalUsed_ p + found_bytes found /\
    accounted (traverseDir found p).1 /\ exactly_accounted (traverseDir found p).1 /\
    (forall file b, (file, Some b) ∈ found ->
       fileIndex_ (traverseDir found p).1 !! file
       = Some {| openCount := 0; size := b * kDiskBlockSize |}) /\
    (forall file, (forall b, (file, Some b) ∉ found) ->
       fileIndex_ (traverseDir found p).1 !! file = fileIndex_ p !! file).
Proof.
  induction found as [|[file st] rest IH]; intros p Hacc Hex Hnd Hnew Hpos Hlt.
  - cbn. split; [lia|]. split; [exact Hacc|]. split; [exact Hex|].
    split; [|reflexivity]. intros file b Hin. apply elem_of_nil in Hin. contradiction.
  - cbn [fmap list_fmap fst] in Hnd, Hnew. apply NoDup_cons in Hnd as [Hnin Hnd].
    apply Forall_cons in Hpos as [Hb Hpos]. cbn [snd] in Hb.
    pose proof (found_bytes_nonneg rest Hpos) as Hrest.
    change (traverseDir ((file, st) :: rest) p)
      with (traverseDir rest (insertFile file st p).1).
    assert (Hnone : fileIndex_ p !! file = None) by (apply Hnew, elem_of_cons; auto).
    destruct st as [b|];
      cbn [found_bytes fold_right snd] in Hlt |- *; fold (found_bytes rest) in Hlt |- *.
    + specialize (Hb b eq_refl).
      assert (Hr : op_in_range p (OpInsertFile file (Some b))).
      { cbn [op_in_range]. unfold kDiskBlockSize in *. lia. }
      destruct (insertFile_accounted file (Some b) p Hacc Hr) as [Hacc1 Hex1].
      specialize (Hex1 Hex Hnone).
      assert (Htot1 : totalUsed_ (insertFile file (Some b) p).1
                      = totalUsed_ p + b * kDiskBlockSize).
      { cbn. destruct Hacc as [Hp [Hs Ht]]. pose proof (sum_sizes_nonneg _ Hp).
        unfold kDiskBlockSize in *. rewrite u64_small by lia. apply s64_small. lia. }
      assert (Hidx1 : fileIndex_ (insertFile file (Some b) p).1
                      = <[file := {| openCount := 0; size := b * kDiskBlockSize |}]> (fileIndex_ p)).
      { cbn. rewrite Hnone. destruct Hacc as [Hp [Hs Ht]]. pose proof (sum_sizes_nonneg _ Hp).
        unfold kDiskBlockSize in *. rewrite u64_small by lia. reflexivity. }
      destruct (IH (insertFile file (Some b) p).1 Hacc1 Hex1 Hnd) as (T & A & E & Hin & Hout).
      { intros f Hf. rewrite Hidx1, lookup_insert_ne; [apply Hnew, elem_of_cons; auto|].
        intros <-. contradiction. }
      { exact Hpos. }
      { rewrite Htot1. lia. }
      split; [rewrite T, Htot1; lia|]. split; [exact A|]. split; [exact E|]. split.
      * intros f b' Hf. apply elem_of_cons in Hf as [[= -> ->]|Hf]; [|apply Hin, Hf].
        rewrite Hout, Hidx1; [apply lookup_insert_eq|].
        intros b'' Hb''. apply Hnin. apply list_elem_of_fmap. exists (file, Some b''). auto.
      * intros f Hf. rewrite Hout, Hidx1.
        -- apply lookup_insert_ne. intros <-. apply (Hf b). apply elem_of_cons. auto.
        -- intros b' Hb'. apply (Hf b'). apply elem_of_cons. auto.
    + change (insertFile file None p).1 with p.
      destruct (IH p Hacc Hex Hnd) as (T & A & E & Hin & Hout).
      { intros f Hf. apply Hnew, elem_of_cons; auto. }
      { exact Hpos. }
      { lia. }
      split; [rewrite T; lia|]. split; [exact A|]. split; [exact E|]. split.
      * intros f b' Hf. apply elem_of_cons in Hf as [[=]|Hf]. apply Hin, Hf.
      * intros f Hf. apply Hout. intros b' Hb'. apply (Hf b'). apply elem_of_cons. auto.
Qed.

(** X7: after [Init] on a fresh pool, with the walker yielding every file
    once, every file whose [stat] succeeded is indexed, closed, with its
    size in 512-byte blocks; files whose [stat] failed are not indexed; and
    [totalUsed_] is the sum of the recorded sizes. *)
Theorem Init_accounts (found : list (string * option Z)) (mediaFs : MediaFs)
    (capacityInGB periodInUs diskAvailInBytes refillUnit : Z) :
  NoDup found.*1 ->
  Forall (fun f => forall b, f.2 = Some b -> 0 <= b) found ->
  found_bytes found < 2 ^ 63 ->
  let q := Init found (FileCachePool mediaFs capacityInGB periodInUs diskAvailInBytes refillUnit) in
  totalUsed_ q = found_bytes found /\ exactly_accounted q /\
  (forall file b, (file, Some b) ∈ found ->
     fileIndex_ q !! file = Some {| openCount := 0; size := b * kDiskBlockSize |}) /\
  (forall file, (forall b, (file, Some b) ∉ found) -> fileIndex_ q !! file = None).
Proof.
  intros Hnd Hpos Hlt q. subst q. unfold Init.
  set (p := FileCachePool mediaFs capacityInGB periodInUs diskAvailInBytes refillUnit).
  assert (Hacc : accounted p /\ exactly_accounted p).
  { unfold accounted, exactly_accounted. cbn. rewrite sum_sizes_empty.
    split; [split|]; try lia. apply map_Forall_empty. }
  destruct (traverseDir_accounts found p (proj1 Hacc) (proj2 Hacc) Hnd) as (T & _ & E & Hin & Hout).
  { intros file _. apply lookup_empty. }
  { exact Hpos. }
  { cbn. lia. }
  split; [rewrite T; cbn; lia|]. split; [exact E|]. split; [exact Hin|].
  intros file Hf. rewrite (Hout file Hf). apply lookup_empty.
Qed.

Lemma Init_accounts_witness :
  NoDup [("a", Some 8); ("b", Some 16); ("c", @None Z)].*1 /\
  let q := Init [("a", Some 8); ("b", Some 16); ("c", None)] pool0 in
  totalUsed_ q = 12288 /\ exactly_accounted q /\
  fileIndex_ q !! "b" = Some {| openCount := 0; size := 8192 |} /\
  fileIndex_ q !! "c" = None.
Proof.
  assert (Hnd : NoDup [("a", Some 8); ("b", Some 16); ("c", @None Z)].*1).
  { cbn. repeat (apply NoDup_cons; split; [intros H; repeat (apply elem_of_cons in H as [H|H]; [discriminate H|]); apply elem_of_nil in H; exact H|]). apply NoDup_nil. exact I. }
  split; [exact Hnd|].
  destruct (Init_accounts [("a", Some 8); ("b", Some 16); ("c", None)] media0 1 10000000
              (1048576 * 4096) (256 * 1024) Hnd) as (T & E & Hin & Hout).
  { repeat constructor; cbn; intros b [= <-]; lia. }
  { vm_compute. reflexivity. }
  split; [exact T|]. split; [exact E|]. split.
  - apply (Hin "b" 16). apply elem_of_cons. right. apply elem_of_cons. left. reflexivity.
  - apply Hout. intros b H.
    repeat (apply elem_of_cons in H as [H|H]; [discriminate H|]). apply elem_of_nil in H. exact H.
Defined.
















(** ** [updateSpace] on an entry that is open *)






Lemma open_close_round_trip_witness :
  (do_open "a" false pool_a_closed).2 = true /\
  exists q, removeOpenFile "a" (do_open "a" false pool_a_closed).1 = Done q /\
            fileIndex_ q !! "a" = Some {| openCount := 0; size := 4096 |} /\
            head (lru_ q) = Some "a".
Proof.
  assert (Hok : (do_open "a" false pool_a_closed).2 = true) by reflexivity.
  split; [exact Hok|].
  destruct (open_close_round_trip "a" false pool_a_closed Hok) as (q & Hq & He & _ & Hh & _).
  { intros e He. vm_compute in He. injection He as <-. cbn [openCount]. lia. }
  exists q. split; [exact Hq|]. split; [|exact Hh].
  rewrite He. reflexivity.
Defined.

Lemma do_open_failure_keeps_pool_witness :
  (do_open "zz" false pool0).2 = false /\ (do_open "zz" false pool0).1 = pool0.
Proof.
  assert (Hf : (do_open "zz" false pool0).2 = false) by reflexivity.
  split; [exact Hf|].
  exact (proj1 (do_open_failure_keeps_pool "zz" false pool0) Hf).
Defined.

(** ** The thresholds of the constructor *)

Lemma ordered_upto_spec (n : nat) :
  ordered_upto n = true -> forall g, 1 <= g <= Z.of_nat n -> thresholds_ordered g = true.
Proof.
  induction n as [|n IH]; intros H g Hg; [lia|].
  cbn [ordered_upto] in H. apply andb_true_iff in H as [H1 H2].
  destruct (Z.eq_dec g (Z.of_nat (S n))) as [->|Hne]; [exact H1|].
  apply IH; [exact H2|lia].
Qed.

Lemma ordered_upto_1024 : ordered_upto 1024 = true.
Proof. vm_compute. reflexivity. Qed.

(** X8: for every capacity from 1 GB to 1024 GB the constructor keeps the
    relation of its comment, [0 < waterMark_ < riskMark_ < capacity], and
    the water mark leaves at most [kMaxFreeSpace] free. *)
Theorem thresholds_ordered_from_1_to_1024 (mediaFs : MediaFs)
    (capacityInGB periodInUs diskAvailInBytes refillUnit : Z) :
  1 <= capacityInGB <= 1024 ->
  let p := FileCachePool mediaFs capacityInGB periodInUs diskAvailInBytes refillUnit in
  0 < waterMark_ p < riskMark_ p /\ riskMark_ p < capacityInBytes (capacityInGB_ p) /\
  capacityInBytes (capacityInGB_ p) - waterMark_ p <= kMaxFreeSpace.
Proof.
  intros Hg p. subst p. cbn [waterMark_ riskMark_ capacityInGB_ FileCachePool].
  pose proof (ordered_upto_spec 1024 ordered_upto_1024 capacityInGB Hg) as H.
  unfold thresholds_ordered in H. cbv zeta in H.
  apply andb_true_iff in H as [H H4]. apply andb_true_iff in H as [H H3].
  apply andb_true_iff in H as [H1 H2].
  apply Z.ltb_lt in H1, H2, H3. apply Z.leb_le in H4.
  unfold riskMark_of. lia.
Qed.

Lemma thresholds_ordered_from_1_to_1024_witness :
  0 < waterMark_ pool0 < riskMark_ pool0 /\ riskMark_ pool0 < capacityInBytes 1 /\
  capacityInBytes 1 - waterMark_ pool0 <= kMaxFreeSpace.
Proof.
  apply (thresholds_ordered_from_1_to_1024 media0 1 10000000 (1048576 * 4096) (256 * 1024)).
  lia.
Defined.

End CacheLifecycleProps.

(** * Blob urls and credentials: properties *)

Module ImageServiceAuthProps.
Import ImageService ImageServiceClaims ImageServiceAuth ImageServiceProps.

Lemma append_cons (c : Ascii.ascii) (a b : string) :
  String.append (String c a) b = String c (String.append a b).
Proof. reflexivity. Qed.

Lemma append_nil (b : string) : String.append "" b = b.
Proof. reflexivity. Qed.

Lemma append_assoc (a b c : string) :
  String.append (String.append a b) c = String.append a (String.append b c).
Proof.
  induction a as [|x a IH]; [reflexivity|].
  rewrite !append_cons, IH. reflexivity.
Qed.

Lemma length_append (a b : string) :
  String.length (String.append a b) = (String.length a + String.length b)%nat.
Proof.
  induction a as [|x a IH]; [reflexivity|].
  rewrite append_cons. cbn [String.length]. rewrite IH. reflexivity.
Qed.

Lemma index_slash_cons (c : Ascii.ascii) (s : string) :
  String.index 0 "/" (String c s)
  = if Ascii.eqb c "/"%char then Some 0%nat else S <$> String.index 0 "/" s.
Proof.
  cbn [String.index String.prefix].
  destruct (Ascii.ascii_dec "/"%char c) as [<-|Hne].
  - destruct s; reflexivity.
  - destruct (Ascii.eqb_spec c "/"%char) as [->|_]; [contradiction|].
    destruct (String.index 0 "/" s); reflexivity.
Qed.

Lemma no_slash_cons (c : Ascii.ascii) (s : string) :
  no_slash (String c s) <-> c <> "/"%char /\ no_slash s.
Proof.
  unfold no_slash. rewrite index_slash_cons.
  destruct (Ascii.eqb_spec c "/"%char) as [->|Hne].
  - split; [discriminate|]. intros [H _]. contradiction.
  - destruct (String.index 0 "/" s); cbn; split; try discriminate; auto.
    intros [_ H]. discriminate.
Qed.

(** In [w/rest] the first ["/"] stands right after [w]. *)
Lemma index_after_component (w rest : string) :
  no_slash w ->
  String.index 0 "/" (String.append w (String "/" rest)) = Some (String.length w).
Proof.
  induction w as [|c w IH]; intros Hw.
  - rewrite append_nil, index_slash_cons. reflexivity.
  - apply no_slash_cons in Hw as [Hc Hw].
    rewrite append_cons, index_slash_cons.
    destruct (Ascii.eqb_spec c "/"%char) as [->|_]; [contradiction|].
    rewrite (IH Hw). reflexivity.
Qed.

Lemma index_shift (pre x s : string) (n : nat) :
  String.index (String.length pre + n) x (String.append pre s)
  = (fun m => (String.length pre + m)%nat) <$> String.index n x s.
Proof.
  induction pre as [|c pre IH].
  - rewrite append_nil. cbn [String.length Nat.add]. destruct (String.index n x s); reflexivity.
  - rewrite append_cons. cbn [String.length Nat.add String.index]. rewrite IH.
    destruct (String.index n x s); reflexivity.
Qed.

Lemma no_slash_index (s : string) (n : nat) : no_slash s -> String.index n "/" s = None.
Proof.
  revert n. induction s as [|c s IH]; intros n Hs.
  - destruct n; reflexivity.
  - destruct n as [|n]; [exact Hs|].
    apply no_slash_cons in Hs as [_ Hs]. cbn [String.index]. rewrite (IH n Hs). reflexivity.
Qed.

Lemma substring_component (pre w rest : string) :
  String.substring (String.length pre) (String.length w)
    (String.append pre (String.append w rest)) = w.
Proof.
  induction pre as [|c pre IH].
  - rewrite append_nil. cbn [String.length].
    induction w as [|x w IHw].
    + rewrite append_nil. destruct rest; reflexivity.
    + rewrite append_cons. cbn [String.length String.substring]. rewrite IHw. reflexivity.
  - rewrite append_cons. cbn [String.length String.substring]. exact IH.
Qed.

(** The loop that fills [words] finds the components, in order, and
    leaves out what follows the last ["/"]. *)
Lemma split_words_slashed (ws : list string) :
  forall (fuel : nat) (pre tail : string),
    Forall no_slash ws -> no_slash tail -> (List.length ws < fuel)%nat ->
    split_words fuel (String.append pre (String.append (slashed ws) tail)) (String.length pre)
    = ws.
Proof.
  induction ws as [|w ws IH]; intros fuel pre tail Hws Htail Hfuel.
  - destruct fuel as [|fuel]; [reflexivity|]. cbn [split_words slashed]. rewrite append_nil.
    rewrite <- (Nat.add_0_r (String.length pre)), index_shift.
    rewrite (no_slash_index tail 0 Htail). reflexivity.
  - apply Forall_cons in Hws as [Hw Hws].
    destruct fuel as [|fuel]; [cbn in Hfuel; lia|]. cbn [split_words slashed].
    rewrite !append_assoc.
    rewrite <- (Nat.add_0_r (String.length pre)) at 1. rewrite index_shift.
    change (String.append "/" (String.append (slashed ws) tail))
      with (String "/" (String.append (slashed ws) tail)).
    rewrite (index_after_component w _ Hw). cbn [fmap option_fmap option_map].
    f_equal.
    + replace (String.length pre + String.length w - String.length pre)%nat
        with (String.length w) by lia.
      apply substring_component.
    + specialize (IH fuel (String.append pre (String.append w "/")) tail Hws Htail).
      rewrite !append_assoc in IH. rewrite !length_append in IH. cbn [String.length] in IH.
      change (String.append "/" (String.append (slashed ws) tail))
        with (String "/" (String.append (slashed ws) tail)) in IH.
      replace (String.length pre + String.length w + 1)%nat
        with (String.length pre + (String.length w + 1))%nat by lia.
      apply IH. cbn in Hfuel. lia.
Qed.

Lemma length_slashed (ws : list string) : (List.length ws <= String.length (slashed ws))%nat.
Proof.
  induction ws as [|w ws IH]; [cbn; lia|].
  cbn [slashed List.length]. rewrite !length_append. cbn [String.length]. lia.
Qed.

Lemma words_of_slashed (ws : list string) (tail : string) :
  Forall no_slash ws -> no_slash tail ->
  words_of (String.append (slashed ws) tail) = ws.
Proof.
  intros Hws Htail. unfold words_of.
  apply (split_words_slashed ws _ "" tail Hws Htail).
  rewrite length_append. pose proof (length_slashed ws). lia.
Qed.

Lemma nth_error_is_lookup {A : Type} (l : list A) (i : nat) : nth_error l i = l !! i.
Proof.
  revert i. induction l as [|a l IH]; intros [|i]; try reflexivity. apply IH.
Qed.

(** The second loop appends [words[i]], [words[i+1]], ... up to the last
    word but one. *)
Lemma push_words_spec (words : list string) (fuel : nat) :
  forall i seg, (List.length words - i <= fuel)%nat ->
    push_words fuel i words seg = Some (seg ++ drop i (removelast words)).
Proof.
  assert (Hrl : forall l : list string, List.length (removelast l) = (List.length l - 1)%nat).
  { induction l as [|a [|b l] IH]; [reflexivity|reflexivity|].
    change (removelast (a :: b :: l)) with (a :: removelast (b :: l)).
    cbn [List.length] in *. rewrite IH. lia. }
  assert (Hnth : forall (l : list string) i, (i + 1 < List.length l)%nat ->
                   nth_error (removelast l) i = nth_error l i).
  { induction l as [|a [|b l] IH]; intros i Hi; [cbn in Hi; lia|cbn in Hi; lia|].
    change (removelast (a :: b :: l)) with (a :: removelast (b :: l)).
    destruct i as [|i]; [reflexivity|]. cbn [nth_error]. apply IH. cbn [List.length] in *. lia. }
  induction fuel as [|fuel IH]; intros i seg Hf; cbn [push_words].
  - rewrite drop_ge; [rewrite app_nil_r; reflexivity|]. rewrite Hrl. lia.
  - destruct (Nat.ltb_spec (i + 1) (List.length words)) as [Hlt|Hge].
    + rewrite <- (Hnth words i Hlt).
      destruct (nth_error (removelast words) i) as [w|] eqn:Hw.
      * rewrite IH by lia. rewrite <- app_assoc. do 2 f_equal. cbn [app].
        symmetry. apply drop_S. rewrite <- nth_error_is_lookup. exact Hw.
      * apply nth_error_None in Hw. rewrite Hrl in Hw. lia.
    + rewrite drop_ge; [rewrite app_nil_r; reflexivity|]. rewrite Hrl. lia.
Qed.

Lemma find_at_0_append (prefix rest : string) :
  find_at_0 prefix (String.append prefix rest) = true.
Proof.
  unfold find_at_0. induction prefix as [|c prefix IH].
  - destruct (String.append "" rest); reflexivity.
  - rewrite append_cons. cbn [String.prefix].
    destruct (Ascii.ascii_dec c c) as [_|Hne]; [exact IH|contradiction].
Qed.

Lemma parse_with_prefix_components (prefix w0 : string) (ws : list string) (tail : string)
    (seg : list string) :
  Forall no_slash (w0 :: ws) -> no_slash tail ->
  parse_with_prefix prefix (String.append prefix (String.append (slashed (w0 :: ws)) tail)) seg
  = Some (w0 :: drop 1 (removelast ws)).
Proof.
  intros Hws Htail. unfold parse_with_prefix.
  rewrite find_at_0_append, substr_from_append, (words_of_slashed _ _ Hws Htail).
  cbn [nth_error]. rewrite push_words_spec by lia.
  destruct ws as [|w1 ws]; [reflexivity|].
  change (removelast (w0 :: w1 :: ws)) with (w0 :: removelast (w1 :: ws)). reflexivity.
Qed.

(** X9: a blob url [scheme host/c1/c2/.../cn/tail] is parsed into the host
    followed by [c2 ... c(n-1)]: the component after the host and the last
    component before [tail] are left out, and [ref.seg] as it was is
    overwritten. *)
Theorem parse_blob_url_components (scheme w0 : string) (ws : list string) (tail : string)
    (seg : list string) :
  scheme = "http://" \/ scheme = "https://" ->
  Forall no_slash (w0 :: ws) -> no_slash tail ->
  parse_blob_url (String.append scheme (String.append (slashed (w0 :: ws)) tail)) seg
  = Parsed 0 (w0 :: drop 1 (removelast ws)).
Proof.
  intros Hscheme Hws Htail. unfold parse_blob_url.
  set (rest := String.append (slashed (w0 :: ws)) tail).
  destruct Hscheme as [-> | ->].
  - subst rest. rewrite (parse_with_prefix_components "http://" w0 ws tail seg Hws Htail).
    unfold parse_with_prefix at 1.
    assert (Hno : find_at_0 "https://"
                    (String.append "http://" (String.append (slashed (w0 :: ws)) tail)) = false).
    { rewrite !append_cons, append_nil. reflexivity. }
    rewrite Hno. reflexivity.
  - assert (Hno : find_at_0 "http://" (String.append "https://" rest) = false).
    { rewrite !append_cons, append_nil. reflexivity. }
    unfold parse_with_prefix at 1. rewrite Hno. subst rest.
    rewrite (parse_with_prefix_components "https://" w0 ws tail seg Hws Htail). reflexivity.
Qed.

Lemma parse_blob_url_components_witness :
  Forall no_slash ["registry.io"; "v2"; "ns"; "repo"; "blobs"] /\ no_slash "sha256:abc" /\
  parse_blob_url blob_url ["stale"] = Parsed 0 ["registry.io"; "ns"; "repo"].
Proof.
  assert (Hws : Forall no_slash ["registry.io"; "v2"; "ns"; "repo"; "blobs"])
    by (repeat constructor).
  assert (Ht : no_slash "sha256:abc") by reflexivity.
  split; [exact Hws|]. split; [exact Ht|].
  exact (parse_blob_url_components "https://" "registry.io" ["v2"; "ns"; "repo"; "blobs"]
           "sha256:abc" ["stale"] (or_intror eq_refl) Hws Ht).
Defined.

(** ** Which addresses match *)

Lemma append_nonempty (a b : string) : a <> "" -> String.append a b <> "".
Proof. destruct a; [contradiction|]. intros _. rewrite append_cons. discriminate. Qed.

Lemma concat_cons2 (s x : string) (xs : list string) :
  String.concat "/" (s :: x :: xs)
  = String.append s (String.append "/" (String.concat "/" (x :: xs))).
Proof. reflexivity. Qed.

Lemma match_prefix_from (addr : string) (seg : list string) :
  forall prefix, prefix <> "" ->
    match_prefix addr prefix seg = true <->
    exists n, (0 < n <= List.length seg)%nat /\
              addr = String.append prefix (String.append "/" (String.concat "/" (take n seg))).
Proof.
  induction seg as [|s rest IH]; intros prefix Hp; cbn [match_prefix].
  - split; [discriminate|]. intros (n & Hn & _). cbn in Hn. lia.
  - destruct (String.eqb_spec prefix "") as [->|_]; [contradiction|].
    set (prefix' := String.append (String.append prefix "/") s).
    assert (Hp' : prefix' <> "") by (apply append_nonempty, append_nonempty, Hp).
    assert (E1 : prefix' = String.append prefix (String.append "/" (String.concat "/" [s]))).
    { subst prefix'. cbn [String.concat]. apply append_assoc. }
    destruct (String.eqb_spec addr prefix') as [Ha|Ha].
    + split; [|reflexivity]. intros _. exists 1%nat. split; [cbn; lia|].
      rewrite Ha. exact E1.
    + rewrite (IH prefix' Hp'). split.
      * intros (n & Hn & Hadd). exists (S n). split; [cbn; lia|].
        rewrite Hadd. subst prefix'.
        destruct n as [|n]; [lia|]. destruct rest as [|x rest]; [cbn in Hn; lia|].
        cbn [take]. rewrite concat_cons2. rewrite !append_assoc. reflexivity.
      * intros (n & Hn & Hadd). destruct n as [|[|n]]; [lia| |].
        -- exfalso. apply Ha. rewrite Hadd. symmetry. exact E1.
        -- exists (S n). split; [cbn in Hn |- *; lia|].
           rewrite Hadd. subst prefix'.
           destruct rest as [|x rest]; [cbn in Hn; lia|].
           cbn [take]. rewrite concat_cons2. rewrite !append_assoc. reflexivity.
Qed.

(** X10: an address matches exactly when it is the host, or the host and the
    first components joined by ["/"]: a match always ends at the end of a
    component. *)
Theorem match_prefix_segments (addr s0 : string) (rest : list string) :
  s0 <> "" ->
  match_prefix addr "" (s0 :: rest) = true <->
  exists n, (0 < n <= List.length (s0 :: rest))%nat /\
            addr = String.concat "/" (take n (s0 :: rest)).
Proof.
  intros Hs. cbn [match_prefix String.eqb]. rewrite append_nil.
  destruct (String.eqb_spec addr s0) as [Ha|Ha].
  - split; [|reflexivity]. intros _. exists 1%nat. split; [cbn; lia|]. exact Ha.
  - rewrite (match_prefix_from addr rest s0 Hs). split.
    + intros (n & Hn & Hadd). exists (S n). split; [cbn; lia|].
      destruct n as [|n]; [lia|]. destruct rest as [|x rest]; [cbn in Hn; lia|].
      cbn [take]. rewrite concat_cons2. exact Hadd.
    + intros (n & Hn & Hadd). destruct n as [|[|n]]; [lia| |].
      * exfalso. apply Ha. exact Hadd.
      * exists (S n). split; [cbn in Hn |- *; lia|].
        destruct rest as [|x rest]; [cbn in Hn; lia|].
        cbn [take] in Hadd. rewrite concat_cons2 in Hadd. exact Hadd.
Qed.

Lemma match_prefix_segments_witness :
  "registry.io" <> "" /\
  match_prefix "registry.io/ns" "" ["registry.io"; "ns"; "repo"] = true /\
  match_prefix "registry.io/n" "" ["registry.io"; "ns"; "repo"] = false.
Proof.
  assert (Hs : "registry.io" <> "") by discriminate.
  split; [exact Hs|]. split.
  - apply (proj2 (match_prefix_segments "registry.io/ns" "registry.io" ["ns"; "repo"] Hs)).
    exists 2%nat. split; [cbn; lia|reflexivity].
  - reflexivity.
Defined.

Section WithBase64.
Variable base64_decode : string -> string.

Lemma usable_cases (value : AuthValue) :
  usable base64_decode value
  = match auth value with
    | Some a =>
      match String.index 0 ":" (base64_decode a) with
      | None => None
      | Some p => Some (String.substring 0 p (base64_decode a),
                        substr_from (p + 1) (base64_decode a))
      end
    | None =>
      match username value, password value with
      | Some u, Some pw => Some (u, pw)
      | _, _ => None
      end
    end.
Proof. reflexivity. Qed.

Lemma scan_auths_result (auths : list (string * AuthValue)) (seg : list string)
    (user pass : string) (ret : Z) (u pw : string) :
  scan_auths base64_decode auths seg user pass = Cred ret u pw ->
  (ret = 0 /\ exists pre addr value post,
     auths = pre ++ (addr, value) :: post /\
     Forall (fun '(a, w) => match_prefix a "" seg = false \/ usable base64_decode w = None) pre /\
     match_prefix addr "" seg = true /\ usable base64_decode value = Some (u, pw))
  \/ (ret = -1 /\ u = user /\ pw = pass /\
      Forall (fun '(a, w) => match_prefix a "" seg = false \/ usable base64_decode w = None)
        auths).
Proof.
  induction auths as [|[addr value] rest IH]; cbn [scan_auths].
  - intros [= <- <- <-]. right. repeat split; auto.
  - assert (Hskip :
      (match_prefix addr "" seg = false \/ usable base64_decode value = None) ->
      scan_auths base64_decode rest seg user pass = Cred ret u pw ->
      (ret = 0 /\ exists pre addr0 value0 post,
         (addr, value) :: rest = pre ++ (addr0, value0) :: post /\
         Forall (fun '(a, w) => match_prefix a "" seg = false \/ usable base64_decode w = None)
           pre /\
         match_prefix addr0 "" seg = true /\ usable base64_decode value0 = Some (u, pw))
      \/ (ret = -1 /\ u = user /\ pw = pass /\
          Forall (fun '(a, w) => match_prefix a "" seg = false \/ usable base64_decode w = None)
            ((addr, value) :: rest))).
    { intros Hno Hrest. destruct (IH Hrest) as [(-> & pre & a0 & v0 & post & -> & Hpre & Hm & Hu)
                                               |(-> & -> & -> & Hall)].
      - left. split; [reflexivity|]. exists ((addr, value) :: pre), a0, v0, post.
        split; [reflexivity|]. split; [constructor; assumption|]. auto.
      - right. repeat split; auto. }
    assert (Hhit : forall u0 pw0,
      match_prefix addr "" seg = true -> usable base64_decode value = Some (u0, pw0) ->
      Cred 0 u0 pw0 = Cred ret u pw ->
      (ret = 0 /\ exists pre addr0 value0 post,
         (addr, value) :: rest = pre ++ (addr0, value0) :: post /\
         Forall (fun '(a, w) => match_prefix a "" seg = false \/ usable base64_decode w = None)
           pre /\
         match_prefix addr0 "" seg = true /\ usable base64_decode value0 = Some (u, pw))
      \/ (ret = -1 /\ u = user /\ pw = pass /\
          Forall (fun '(a, w) => match_prefix a "" seg = false \/ usable base64_decode w = None)
            ((addr, value) :: rest))).
    { intros u0 pw0 Hm Hu [= <- <- <-]. left. split; [reflexivity|].
      exists [], addr, value, rest. repeat split; auto. }
    pose proof (usable_cases value) as Hu.
    destruct (match_prefix addr "" seg) eqn:Hm; cbn [negb]; [|apply Hskip; auto].
    destruct (auth value) as [a|].
    + destruct (String.index 0 ":" (base64_decode a)) as [p|].
      * apply (Hhit _ _ eq_refl Hu).
      * apply Hskip. auto.
    + destruct (username value) as [u0|]; [|apply Hskip; auto].
      destruct (password value) as [pw0|]; [|apply Hskip; auto].
      apply (Hhit _ _ eq_refl Hu).
Qed.

Lemma load_cred_cases (cfg : option (list (string * AuthValue)))
    (url user pass : string) (ret : Z) (u pw : string) :
  load_cred_from_file base64_decode cfg url user pass = Cred ret u pw ->
  (ret = 0 /\ exists auths seg pre addr value post,
     cfg = Some auths /\ parse_blob_url url [] = Parsed 0 seg /\
     auths = pre ++ (addr, value) :: post /\
     Forall (fun '(a, w) => match_prefix a "" seg = false \/ usable base64_decode w = None) pre /\
     match_prefix addr "" seg = true /\ usable base64_decode value = Some (u, pw))
  \/ (ret = -1 /\ u = user /\ pw = pass).
Proof.
  unfold load_cred_from_file. destruct cfg as [auths|]; [|intros [= <- <- <-]; right; auto].
  destruct (parse_blob_url url []) as [r seg|] eqn:Hparse; [|discriminate].
  destruct (Z.eqb_spec r 0) as [->|Hr]; cbn [negb]; [|intros [= <- <- <-]; right; auto].
  intros H. apply scan_auths_result in H
    as [(-> & pre & addr & value & post & -> & Hpre & Hm & Hu)|(-> & -> & -> & _)].
  - left. split; [reflexivity|]. exists (pre ++ (addr, value) :: post), seg, pre, addr, value, post.
    repeat split; auto.
  - right. auto.
Qed.

(** X11: whatever the config file and the url: credentials that are returned
    are those of an entry whose address matches the url, the first such
    entry that yields credentials; and when [-1] is returned the two output
    strings are as they were. *)
Theorem load_cred_from_file_result (cfg : option (list (string * AuthValue)))
    (url user pass : string) (ret : Z) (u pw : string) :
  load_cred_from_file base64_decode cfg url user pass = Cred ret u pw ->
  (ret = 0 /\ exists auths seg pre addr value post,
     cfg = Some auths /\ parse_blob_url url [] = Parsed 0 seg /\
     auths = pre ++ (addr, value) :: post /\
     Forall (fun '(a, w) => match_prefix a "" seg = false \/ usable base64_decode w = None) pre /\
     match_prefix addr "" seg = true /\ usable base64_decode value = Some (u, pw))
  \/ (ret = -1 /\ u = user /\ pw = pass).
Proof. apply load_cred_cases. Qed.

(** X12: [reload_auth] hands out the empty pair or the credentials of an entry
    whose address matches the url; a url without ["http://"] or
    ["https://"] in front never gets credentials. *)
Theorem reload_auth_result (cfg : option (list (string * AuthValue))) (url : string) :
  (find_at_0 "http://" url = false -> find_at_0 "https://" url = false ->
   reload_auth base64_decode cfg url = Some ("", "")) /\
  (forall u pw, reload_auth base64_decode cfg url = Some (u, pw) ->
     (u = "" /\ pw = "") \/
     exists auths seg addr value,
       cfg = Some auths /\ parse_blob_url url [] = Parsed 0 seg /\ In (addr, value) auths /\
       match_prefix addr "" seg = true /\ usable base64_decode value = Some (u, pw)).
Proof.
  split.
  - intros H1 H2. unfold reload_auth, load_cred_from_file.
    destruct cfg as [auths|]; [|reflexivity].
    rewrite (parse_blob_url_other_scheme url [] H1 H2). cbn [Z.eqb negb].
    induction auths as [|[addr value] rest IH]; [reflexivity|].
    cbn [scan_auths match_prefix negb]. exact IH.
  - intros u pw. unfold reload_auth.
    destruct (load_cred_from_file base64_decode cfg url "" "") as [ret u0 pw0|] eqn:Hl;
      [|discriminate].
    apply load_cred_cases in Hl
      as [(-> & auths & seg & pre & addr & value & post & -> & Hp & -> & _ & Hm & Hu)
         |(-> & -> & ->)].
    + cbn [Z.eqb]. intros [= <- <-]. right. exists (pre ++ (addr, value) :: post), seg, addr, value.
      repeat split; auto. apply in_or_app. right. left. reflexivity.
    + cbn [Z.eqb]. intros [= <- <-]. left. auto.
Qed.
End WithBase64.

Lemma load_cred_from_file_result_witness :
  load_cred_from_file (fun s => s) (Some auths_repo_first) blob_url "" "" = Cred 0 "bob" "pw-repo" /\
  exists seg addr value,
    parse_blob_url blob_url [] = Parsed 0 seg /\ In (addr, value) auths_repo_first /\
    match_prefix addr "" seg = true /\ usable (fun s => s) value = Some ("bob", "pw-repo").
Proof.
  assert (H : load_cred_from_file (fun s => s) (Some auths_repo_first) blob_url "" ""
              = Cred 0 "bob" "pw-repo") by reflexivity.
  split; [exact H|].
  destruct (load_cred_from_file_result (fun s => s) _ _ _ _ _ _ _ H)
    as [(_ & auths & seg & pre & addr & value & post & [= <-] & Hp & E & _ & Hm & Hu)
       |(Hr & _)]; [|discriminate Hr].
  exists seg, addr, value. repeat split; auto.
  rewrite E. apply in_or_app. right. left. reflexivity.
Defined.

Lemma reload_auth_result_witness :
  reload_auth (fun s => s) (Some auths_registry_first) "registry.io/v2/ns/repo/blobs/sha256:abc"
  = Some ("", "") /\
  reload_auth (fun s => s) (Some auths_registry_first) blob_url = Some ("alice", "pw-registry").
Proof.
  split; [|reflexivity].
  apply (proj1 (reload_auth_result (fun s => s) (Some auths_registry_first)
                  "registry.io/v2/ns/repo/blobs/sha256:abc")); reflexivity.
Defined.

End ImageServiceAuthProps.

(** * Operations in flight on the switch file: properties *)

Module SwitchSafetyProps.
Import Switch SwitchClaims SwitchSafety SwitchProps.

Lemma in_flight_bound (ts : list tstate) : in_flight ts <= Z.of_nat (List.length ts).
Proof. induction ts as [|s ts IH]; cbn [in_flight List.length]; [lia|]. destruct s; lia. Qed.

Lemma step_length (ev : Event) (c c' : Config) :
  step ev c = Some c' -> List.length (tasks c') = List.length (tasks c).
Proof.
  destruct ev as [path|t|t|t opened|t]; cbn [step].
  - intros [= <-]. reflexivity.
  - destruct (tasks c !! t) as [[| | | |file]|]; try discriminate.
    destruct (state (sf c) =? 0); [|destruct (state (sf c) =? 2);
      [|cbn; destruct (0 <? io_count (sf c))]];
      intros [= <-]; cbn; apply length_insert.
  - destruct (tasks c !! t) as [[| | | |file]|]; try discriminate.
    + destruct (negb (state (sf c) =? 0)); intros [= <-]; [reflexivity|]. cbn. apply length_insert.
    + destruct (0 <? io_count (sf c)); intros [= <-]; [reflexivity|]. cbn. apply length_insert.
  - destruct (tasks c !! t) as [[| | | |file]|]; try discriminate.
    destruct (do_switch opened (sf c)) as [ret f]. intros [= <-]. cbn. apply length_insert.
  - destruct (tasks c !! t) as [[| | | |file]|]; try discriminate.
    intros [= <-]. cbn. apply length_insert.
Qed.

Lemma run_length (evs : list Event) :
  forall c c', run evs c = Some c' -> List.length (tasks c') = List.length (tasks c).
Proof.
  induction evs as [|ev rest IH]; intros c c'; cbn [run].
  - intros [= <-]. reflexivity.
  - destruct (step ev c) as [c1|] eqn:Hs; [|discriminate].
    intros H. rewrite (IH _ _ H). eapply step_length, Hs.
Qed.

(** X13: [io_count] is the number of tasks inside a forwarded operation: it
    never goes below 0 and never exceeds the number of tasks. *)
Theorem io_count_counts_in_flight (source : nat) (loc : bool) (filepath : string) (n : nat)
    (evs : list Event) (c : Config) :
  run evs (init source loc filepath n) = Some c ->
  io_count (sf c) = in_flight (tasks c) /\ 0 <= io_count (sf c) <= Z.of_nat n.
Proof.
  intros Hrun.
  assert (Hio : io_count (sf c) = in_flight (tasks c)).
  { eapply run_io_count; [|exact Hrun]. cbn. symmetry. apply in_flight_replicate. }
  split; [exact Hio|]. rewrite Hio.
  pose proof (in_flight_nonneg (tasks c)). pose proof (in_flight_bound (tasks c)) as Hb.
  rewrite (run_length _ _ _ Hrun) in Hb. cbn in Hb. rewrite length_replicate in Hb. lia.
Qed.

Lemma io_count_counts_in_flight_witness :
  exists c, run sample_switch (init 7 false "" 3) = Some c /\
            io_count (sf c) = 3 /\ in_flight (tasks c) = 3.
Proof.
  destruct (run sample_switch (init 7 false "" 3)) as [c|] eqn:Hrun; [|discriminate Hrun].
  exists c. split; [reflexivity|].
  destruct (io_count_counts_in_flight 7 false "" 3 sample_switch c Hrun) as [Hio _].
  assert (E : io_count (sf c) = 3) by (injection Hrun as <-; reflexivity).
  split; [exact E|]. rewrite <- Hio. exact E.
Defined.

Lemma forward_on_current (t : nat) (f : SwitchFile) (ts : list tstate) (old : tstate) :
  ts !! t = Some old -> weight old = 0 ->
  (forall t' file, t' <> t -> ts !! t' = Some (Forwarding file) -> file = m_file f) ->
  (forall t', t' <> t -> ts !! t' <> Some InDoSwitch) ->
  on_current_file (forward t f ts).
Proof.
  intros Ht Hw Hcur Hno. split; cbn.
  - intros t' file Hl.
    apply list_lookup_insert_Some in Hl as [(_ & [= <-] & _)|(Hne & Hl)]; [reflexivity|].
    eapply Hcur; eauto.
  - intros t' Hl.
    apply list_lookup_insert_Some in Hl as [(_ & [=] & _)|(Hne & Hl)].
    exfalso. eapply Hno; eauto.
Qed.

Lemma retask_on_current (c : Config) (f : SwitchFile) (t : nat) (old new : tstate) :
  on_current_file c -> m_file f = m_file (sf c) ->
  tasks c !! t = Some old -> weight new = 0 ->
  (new = InDoSwitch -> in_flight (tasks c) - weight old = 0) ->
  on_current_file {| sf := f; tasks := <[t := new]> (tasks c) |}.
Proof.
  intros [Hcur Hin] Hf Ht Hw Hnew. split; cbn.
  - intros t' file Hl. rewrite Hf.
    apply list_lookup_insert_Some in Hl as [(_ & -> & _)|(Hne & Hl)]; [discriminate Hw|].
    eapply Hcur; eauto.
  - intros t' Hl. rewrite (in_flight_insert _ _ _ _ Ht), Hw.
    apply list_lookup_insert_Some in Hl as [(_ & -> & _)|(Hne & Hl)].
    + rewrite (Hnew eq_refl). reflexivity.
    + pose proof (Hin _ Hl) as H0. pose proof (in_flight_nonneg (tasks c)).
      destruct old; cbn [weight] in *; try lia.
      exfalso. eapply (in_flight_zero (tasks c) t); [|exact Ht]. lia.
Qed.

Lemma step_on_current_file (ev : Event) (c c' : Config) :
  one_switcher c -> on_current_file c -> io_count (sf c) = in_flight (tasks c) ->
  step ev c = Some c' -> on_current_file c'.
Proof.
  intros [Huniq Hst] Hoc Hio. pose proof Hoc as [Hcur Hin].
  assert (Hno0 : state (sf c) <> 2 -> forall t', tasks c !! t' <> Some InDoSwitch).
  { intros H2 t' Hl. apply H2. eapply Hst; eauto. }
  destruct ev as [path|t|t|t opened|t]; cbn [step].
  - intros [= <-]. split; cbn; assumption.
  - destruct (tasks c !! t) as [[| | | |file]|] eqn:Ht; try discriminate.
    destruct (Z.eqb_spec (state (sf c)) 0) as [E0|E0].
    + intros [= <-]. eapply forward_on_current; eauto.
      intros t' _. apply Hno0. lia.
    + destruct (Z.eqb_spec (state (sf c)) 2) as [E2|E2].
      * intros [= <-]. eapply (retask_on_current c (sf c)); eauto. discriminate.
      * cbn [set_state io_count].
        destruct (Z.ltb_spec 0 (io_count (sf c))); intros [= <-].
        -- eapply (retask_on_current c (set_state 2 (sf c))); eauto. discriminate.
        -- eapply (retask_on_current c (set_state 2 (sf c))); eauto.
           intros _. cbn. pose proof (in_flight_nonneg (tasks c)). lia.
  - destruct (tasks c !! t) as [[| | | |file]|] eqn:Ht; try discriminate.
    + destruct (Z.eqb_spec (state (sf c)) 0) as [E0|E0]; cbn [negb]; intros [= <-];
        [|exact Hoc].
      eapply forward_on_current; eauto. intros t' _. apply Hno0. lia.
    + destruct (Z.ltb_spec 0 (io_count (sf c))); intros [= <-]; [exact Hoc|].
      eapply (retask_on_current c (sf c)); eauto.
      intros _. cbn. pose proof (in_flight_nonneg (tasks c)). lia.
  - destruct (tasks c !! t) as [[| | | |file]|] eqn:Ht; try discriminate.
    pose proof (Hin _ Ht) as H0.
    destruct (do_switch opened (sf c)) as [ret f].
    intros [= <-]. eapply (forward_on_current t _ (tasks c) InDoSwitch); [exact Ht|reflexivity| |].
    + intros t' file _ Hl. exfalso.
      eapply (in_flight_zero (tasks c) t'); [|exact Hl]. lia.
    + intros t' Hne Hl. apply Hne. eapply Huniq; eauto.
  - destruct (tasks c !! t) as [[| | | |file]|] eqn:Ht; try discriminate.
    intros [= <-]. split; cbn.
    + intros t' file' Hl.
      apply list_lookup_insert_Some in Hl as [(_ & [=] & _)|(Hne & Hl)]. eapply Hcur; eauto.
    + intros t' Hl.
      apply list_lookup_insert_Some in Hl as [(_ & [=] & _)|(Hne & Hl)].
      exfalso. eapply (in_flight_zero (tasks c) t); [|exact Ht]. rewrite (Hin _ Hl). lia.
Qed.

Lemma run_on_current_file (evs : list Event) :
  forall c c',
    one_switcher c -> on_current_file c -> io_count (sf c) = in_flight (tasks c) ->
    requests_spaced evs c -> run evs c = Some c' ->
    one_switcher c' /\ on_current_file c'.
Proof.
  induction evs as [|ev rest IH]; intros c c' Hone Hoc Hio Hsp; cbn [run requests_spaced] in *.
  - intros [= <-]. auto.
  - destruct Hsp as [Hev Hrest].
    destruct (step ev c) as [c1|] eqn:Hs; [|discriminate].
    intros Hrun. eapply (IH c1); eauto.
    + eapply step_one_switcher; eauto.
    + eapply step_on_current_file; eauto.
    + eapply step_io_count; eauto.
Qed.

(** X14: as long as [set_switch_file] is never called while a task is carrying
    out a switch: at most one task carries out a switch at a time, nothing
    is in flight while a task is inside [do_switch], and every operation in
    flight is on the file [m_file] points to, never on the file that was
    switched away from. *)
Theorem switch_one_at_a_time (source : nat) (loc : bool) (filepath : string) (n : nat)
    (evs : list Event) (c : Config) :
  run evs (init source loc filepath n) = Some c ->
  requests_spaced evs (init source loc filepath n) ->
  one_switcher c /\ on_current_file c /\
  (forall t t' file, tasks c !! t = Some InDoSwitch -> tasks c !! t' <> Some (Forwarding file)).
Proof.
  intros Hrun Hsp.
  destruct (run_on_current_file evs (init source loc filepath n) c) as [Hone Hoc]; auto.
  - apply init_one_switcher.
  - split; cbn.
    + intros t file Hl. apply lookup_replicate in Hl as [[=] _].
    + intros t Hl. apply lookup_replicate in Hl as [[=] _].
  - cbn. symmetry. apply in_flight_replicate.
  - split; [exact Hone|]. split; [exact Hoc|].
    intros t t' file Ht. apply in_flight_zero. rewrite (proj2 Hoc _ Ht). lia.
Qed.

Lemma switch_one_at_a_time_witness :
  requests_spaced sample_switch (init 7 false "" 3) /\
  exists c, run sample_switch (init 7 false "" 3) = Some c /\
            m_file (sf c) = 9%nat /\ m_old (sf c) = Some 7%nat /\
            tasks c = [Forwarding 9; Forwarding 9; Forwarding 9] /\ on_current_file c.
Proof.
  assert (Hsp : requests_spaced sample_switch (init 7 false "" 3)).
  { cbn. repeat split; try discriminate.
    intros _ [|[|[|t']]] s Hl; cbn in Hl; try discriminate; injection Hl as <-; reflexivity. }
  split; [exact Hsp|].
  destruct (run sample_switch (init 7 false "" 3)) as [c|] eqn:Hrun; [|discriminate Hrun].
  exists c. split; [reflexivity|].
  destruct (switch_one_at_a_time 7 false "" 3 sample_switch c Hrun Hsp) as (_ & Hoc & _).
  injection Hrun as <-. repeat split; try reflexivity; apply Hoc.
Defined.

End SwitchSafetyProps.

(** * What the index tests check: properties *)

Module LSMTTestsProps.
Import LSMT LSMTClaims LSMTTests IntProps LSMTProps.

Lemma Index0_snoc (ms : list SegmentMapping) (m : SegmentMapping) :
  Index0 (ms ++ [m]) = insert m (Index0 ms).
Proof. unfold Index0. rewrite fold_left_app. reflexivity. Qed.

Lemma moffsets_after_snoc (ms : list SegmentMapping) (m : SegmentMapping) :
  moffsets_after (ms ++ [m]) = record_write m (moffsets_after ms).
Proof. unfold moffsets_after. rewrite fold_left_app. reflexivity. Qed.

(** The index and the test's array say the same about every block. *)
Lemma Index0_moffsets (writes : list SegmentMapping) (p : Z) :
  Forall random_write writes -> randread_expects (Index0 writes) (moffsets_after writes) p.
Proof.
  induction writes as [|m ms IH] using rev_ind; intros Hall.
  - reflexivity.
  - apply Forall_app in Hall as [Hms Hm]. apply Forall_cons in Hm as [(Hl & Hz & Hmo & Hfit) _].
    unfold randread_expects. rewrite Index0_snoc, moffsets_after_snoc.
    rewrite (insert_point m Hl). unfold record_write.
    destruct (covers m p) eqn:Hc; [|apply IH, Hms].
    unfold at_block. rewrite Hz. apply u32_small.
    unfold covers, m_end in Hc. apply andb_true_iff in Hc as [H1 H2].
    apply Z.leb_le in H1. apply Z.ltb_lt in H2. lia.
Qed.

Lemma lookup_not_truncated (idx : list SegmentMapping) (s : Segment) (cap : nat) :
  (List.length (lookup idx s cap) < cap)%nat ->
  lookup idx s cap = covering idx (s_offset s) (s_end s).
Proof.
  unfold lookup. intros H. rewrite length_take in H. apply take_ge. lia.
Qed.

(** X15: [do_randread] after any sequence of [do_randwrite]: on every block of
    the segment that is read, what [lookup] returns is what the array has
    recorded, the last write that covers the block, or a hole where no
    write covers it. *)
Theorem randwrite_then_randread (writes : list SegmentMapping) (s : Segment) (cap : nat)
    (p : Z) :
  Forall random_write writes ->
  s_offset s <= p < s_end s ->
  (List.length (lookup (Index0 writes) s cap) < cap)%nat ->
  randread_expects (lookup (Index0 writes) s cap) (moffsets_after writes) p.
Proof.
  intros Hall Hp Hcap. rewrite (lookup_not_truncated _ _ _ Hcap).
  destruct (Index0_chain writes) as (lo & hi & Hchain).
  { eapply Forall_impl; [exact Hall|]. intros m (Hl & _). exact Hl. }
  unfold randread_expects. rewrite (covering_point _ _ lo hi p _ Hp Hchain).
  apply (Index0_moffsets writes p Hall).
Qed.

Lemma randwrite_then_randread_witness :
  Forall random_write mapping0_insert /\
  randread_expects (lookup (Index0 mapping0_insert) whole 20) (moffsets_after mapping0_insert) 17 /\
  moffsets_after mapping0_insert 17 = 57 /\ moffsets_after mapping0_insert 25 = 0.
Proof.
  assert (Hall : Forall random_write mapping0_insert).
  { repeat constructor; cbn; lia. }
  split; [exact Hall|]. split; [|split; reflexivity].
  apply (randwrite_then_randread mapping0_insert whole 20 17 Hall).
  - unfold s_end, whole. cbn. lia.
  - vm_compute. lia.
Defined.

Lemma chain_take (n : nat) :
  forall lo hi idx, chain lo hi idx -> chain lo hi (take n idx).
Proof.
  induction n as [|n IH]; intros lo hi idx Hc.
  - rewrite take_0. cbn. eapply chain_le, Hc.
  - destruct idx as [|m idx]; [exact Hc|].
    cbn [take chain] in *. destruct Hc as (H1 & H2 & H3). auto.
Qed.

(** X16: [lookup] returns mappings that lie inside the segment asked for, in
    ascending order and without overlap, at most [cap] of them; unless the
    output is cut short by [cap], they say about every block of the segment
    what the index says. *)
Theorem lookup_clipped (idx : list SegmentMapping) (a b : Z) (s : Segment) (cap : nat) :
  chain a b idx -> 0 < s_length s ->
  chain (s_offset s) (s_end s) (lookup idx s cap) /\
  sorted_nonoverlap (lookup idx s cap) /\
  (List.length (lookup idx s cap) <= cap)%nat /\
  ((List.length (lookup idx s cap) < cap)%nat ->
   forall p, s_offset s <= p < s_end s ->
             point_of (lookup idx s cap) p = point_of idx p) /\
  (forall p, p < s_offset s \/ s_end s <= p -> point_of (lookup idx s cap) p = None).
Proof.
  intros Hc Hs.
  assert (Hl : chain (s_offset s) (s_end s) (lookup idx s cap)).
  { unfold lookup. apply chain_take. eapply covering_chain; [unfold s_end; lia|exact Hc]. }
  split; [exact Hl|]. split; [eapply chain_sorted_nonoverlap, Hl|].
  split; [unfold lookup; rewrite length_take; lia|]. split.
  - intros Hcap p Hp. rewrite (lookup_not_truncated _ _ _ Hcap).
    eapply covering_point; eauto.
  - intros p Hp. eapply chain_point_out; eauto.
Qed.

Lemma lookup_clipped_witness :
  chain 0 1000 lookup_mapping /\
  chain 6 106 (lookup lookup_mapping {| s_offset := 6; s_length := 100 |} 10) /\
  point_of (lookup lookup_mapping {| s_offset := 6; s_length := 100 |} 10) 105 = Some (25, false, 0).
Proof.
  assert (Hc : chain 0 1000 lookup_mapping) by (cbn; unfold m_end; cbn; lia).
  split; [exact Hc|].
  destruct (lookup_clipped lookup_mapping 0 1000 {| s_offset := 6; s_length := 100 |} 10 Hc)
    as (H1 & _ & _ & H4 & _); [cbn; lia|].
  split; [exact H1|].
  rewrite H4; [reflexivity|vm_compute; lia|unfold s_end; cbn; lia].
Defined.

End LSMTTestsProps.
